(** * Security group rules of the Exoscale Terraform provider

    A shallow embedding of the rule identity and reconciliation logic of
    [exoscale/resource_exoscale_security_group_rules.go]: [ruleToID],
    [preparePorts], [securityGroupRulesToRemove], [securityGroupRulesToAdd],
    [readRules] and the rule loops of the create and update passes.

    Go strings are byte strings ([string]); pointers that the code
    dereferences are [option]s, and dereferencing [None] is the [Panic]
    outcome; [(T, error)] results are [result T]. *)

From Stdlib Require Import ZArith NArith Ascii String List Bool Lia.
From Stdlib Require Import Numbers.DecimalString.
From stdpp Require Import base list sorting gmap strings.

Local Open Scope Z_scope.

(** ** Outcomes of fallible code *)

Inductive result (A : Type) : Type :=
| OK (a : A)
| Err (e : string)
| Panic.
Arguments OK {A} a.
Arguments Err {A} e.
Arguments Panic {A}.

#[global] Instance result_ret : MRet result := fun A a => OK a.
#[global] Instance result_bind : MBind result := fun A B k m =>
  match m with
  | OK a => k a
  | Err e => Err e
  | Panic => Panic
  end.

#[global] Instance result_fmap : FMap result := fun A B g m =>
  match m with
  | OK a => OK (g a)
  | Err e => Err e
  | Panic => Panic
  end.

(** [*p] for a pointer [p]: nil dereference panics. *)
Definition deref {A} (p : option A) : result A :=
  match p with
  | Some a => OK a
  | None => Panic
  end.

(** [mapM f l]: run [f] on each element in order, stopping at the first
    failure. *)
Fixpoint mapM {A B} (f : A -> result B) (l : list A) : result (list B) :=
  match l with
  | [] => OK []
  | a :: l' => b ← f a; bs ← mapM f l'; OK (b :: bs)
  end.

(** ** The parts of Go's [strings], [strconv] and [fmt] that the code uses *)

Module GoStrings.

Definition isUpper (c : ascii) : bool :=
  let n := N_of_ascii c in ((65 <=? n) && (n <=? 90))%N.
Definition isLower (c : ascii) : bool :=
  let n := N_of_ascii c in ((97 <=? n) && (n <=? 122))%N.

Definition lowerChar (c : ascii) : ascii :=
  if isUpper c then ascii_of_N (N_of_ascii c + 32) else c.
Definition upperChar (c : ascii) : ascii :=
  if isLower c then ascii_of_N (N_of_ascii c - 32) else c.

Fixpoint mapChars (f : ascii -> ascii) (s : string) : string :=
  match s with
  | EmptyString => EmptyString
  | String c s' => String (f c) (mapChars f s')
  end.

(** [strings.ToLower] and [strings.ToUpper] on strings of ASCII bytes,
    where Go maps the letters A-Z and a-z and nothing else.  On other
    strings Go also maps the letters of other scripts, which these do
    not: a statement that rests on the mapping of a name is made for
    names of ASCII bytes. *)
Definition ToLower : string -> string := mapChars lowerChar.
Definition ToUpper : string -> string := mapChars upperChar.

(** [strings.HasPrefix s prefix]. *)
Fixpoint HasPrefix (s prefix : string) : bool :=
  match prefix, s with
  | EmptyString, _ => true
  | String _ _, EmptyString => false
  | String p prefix', String c s' => Ascii.eqb c p && HasPrefix s' prefix'
  end.

Fixpoint replaceFrom (old new s : string) (skip : nat) : string :=
  match s with
  | EmptyString => EmptyString
  | String c s' =>
      match skip with
      | S k => replaceFrom old new s' k
      | O =>
          if HasPrefix s old
          then new +:+ replaceFrom old new s' (Nat.pred (String.length old))
          else String c (replaceFrom old new s' O)
      end
  end.

(** [strings.ReplaceAll s old new] for a non-empty [old]: the
    non-overlapping occurrences, left to right. *)
Definition ReplaceAll (s old new : string) : string :=
  replaceFrom old new s O.

(** [strings.SplitN s sep n] for a one-byte separator and [n >= 0]:
    at most [n] pieces, the last one the unsplit remainder. *)
Fixpoint SplitN (s : string) (sep : ascii) (n : nat) : list string :=
  match n with
  | O => []
  | S O => [s]
  | S n' =>
      match s with
      | EmptyString => [EmptyString]
      | String c s' =>
          if Ascii.eqb c sep then EmptyString :: SplitN s' sep n'
          else match SplitN s' sep n with
               | piece :: rest => String c piece :: rest
               | [] => [String c EmptyString]
               end
      end
  end.

(** [strings.Split s sep] for a one-byte separator: every piece. *)
Fixpoint Split (s : string) (sep : ascii) : list string :=
  match s with
  | EmptyString => [EmptyString]
  | String c s' =>
      if Ascii.eqb c sep then EmptyString :: Split s' sep
      else match Split s' sep with
           | piece :: rest => String c piece :: rest
           | [] => [String c EmptyString]
           end
  end.

End GoStrings.

Module GoStrconv.

Definition digitOf (c : ascii) : option N :=
  let n := N_of_ascii c in
  if ((48 <=? n) && (n <=? 57))%N then Some (n - 48)%N else None.

Fixpoint parseLoop (maxVal : N) (s : string) (n : N) : N * bool :=
  match s with
  | EmptyString => (n, true)
  | String c s' =>
      match digitOf c with
      | None => (0%N, false)
      | Some d =>
          let n1 := (n * 10 + d)%N in
          if (maxVal <? n1)%N then (maxVal, false) else parseLoop maxVal s' n1
      end
  end.

(** [strconv.ParseUint s 10 bitSize]: the value and whether [err] is
    nil.  A syntax error gives 0, a range error the largest value. *)
Definition ParseUint (s : string) (bitSize : N) : N * bool :=
  match s with
  | EmptyString => (0%N, false)
  | _ => parseLoop (2 ^ bitSize - 1)%N s 0%N
  end.

End GoStrconv.

(** [fmt.Sprintf "%d"]. *)
Definition fmtD (z : Z) : string := NilEmpty.string_of_int (Z.to_int z).

Definition underscore : ascii := "_"%char.
Definition hyphen : ascii := "-"%char.

(** ** [schema.Set] of strings

    The SDK files every element under its hash code: [Add] ignores an
    element whose code is already taken, [Remove] deletes by code, and
    [List] enumerates by code.  A set is held as its [List()] sequence;
    [code s] stands for the place of the hash code of [s] in that
    enumeration order. *)

Definition schemaSet : Type := list string.

Module Schema.
Section WithCode.
Variable code : string -> N.

Definition NewSet : schemaSet := [].
Definition Len (s : schemaSet) : nat := length s.
Definition List (s : schemaSet) : list string := s.

Fixpoint Add (x : string) (s : schemaSet) : schemaSet :=
  match s with
  | [] => [x]
  | y :: s' =>
      match (code x ?= code y)%N with
      | Lt => x :: y :: s'
      | Eq => y :: s'
      | Gt => y :: Add x s'
      end
  end.

Definition Remove (x : string) (s : schemaSet) : schemaSet :=
  List.filter (fun y => negb (code y =? code x)%N) s.

(** The invariant of a set: codes strictly increase along [List()]. *)
Definition wf (s : schemaSet) : Prop :=
  StronglySorted (fun x y => (code x < code y)%N) s.
End WithCode.
End Schema.

(** ** Data model *)

(** A [*net.IPNet]; the code observes it through [String()] only. *)
Record IPNet : Type := { IPNet_String : string }.

(** [egoscale.SecurityGroupRule], the fields the resource touches. *)
Record SecurityGroupRule : Type := {
  Description : option string;
  EndPort : option N;
  FlowDirection : option string;
  ICMPCode : option Z;
  ICMPType : option Z;
  ID : option string;
  Network : option IPNet;
  Protocol : option string;
  SecurityGroupID : option string;
  StartPort : option N
}.

(** One ingress/egress block of the resource, the
    [map[string]interface{}] with the keys of the schema. *)
Record RuleBlock : Type := {
  cidr_list : schemaSet;
  description : string;
  icmp_code : Z;
  icmp_type : Z;
  ports : schemaSet;
  protocol : string;
  user_security_group_list : schemaSet;
  ids : schemaSet
}.

Definition set_ids (v : schemaSet) (r : RuleBlock) : RuleBlock :=
  {| cidr_list := cidr_list r; description := description r;
     icmp_code := icmp_code r; icmp_type := icmp_type r; ports := ports r;
     protocol := protocol r;
     user_security_group_list := user_security_group_list r; ids := v |}.

Definition set_protocol (v : string) (r : RuleBlock) : RuleBlock :=
  {| cidr_list := cidr_list r; description := description r;
     icmp_code := icmp_code r; icmp_type := icmp_type r; ports := ports r;
     protocol := v;
     user_security_group_list := user_security_group_list r; ids := ids r |}.

Definition set_description (v : string) (r : RuleBlock) : RuleBlock :=
  {| cidr_list := cidr_list r; description := v;
     icmp_code := icmp_code r; icmp_type := icmp_type r; ports := ports r;
     protocol := protocol r;
     user_security_group_list := user_security_group_list r; ids := ids r |}.

Definition set_icmp (code type : Z) (r : RuleBlock) : RuleBlock :=
  {| cidr_list := cidr_list r; description := description r;
     icmp_code := code; icmp_type := type; ports := ports r;
     protocol := protocol r;
     user_security_group_list := user_security_group_list r; ids := ids r |}.

Definition set_user_security_group_list (v : schemaSet) (r : RuleBlock)
  : RuleBlock :=
  {| cidr_list := cidr_list r; description := description r;
     icmp_code := icmp_code r; icmp_type := icmp_type r; ports := ports r;
     protocol := protocol r;
     user_security_group_list := v; ids := ids r |}.

(** [fetchRuleFunc]. *)
Definition fetchRuleFunc : Type := string -> option SecurityGroupRule.

(** ** Rule identifiers: [ruleToID] *)

Section Identify.
(** [client.GetSecurityGroup ctx zone id], through the [Name] of the
    group it returns. *)
Variable GetSecurityGroup : string -> result string.

(** Lines 781-790 of [ruleToID]: the value of [name]. *)
Definition peerName (securityGroupRule : SecurityGroupRule) : result string :=
  match Network securityGroupRule with
  | Some network => OK (IPNet_String network)
  | None =>
      gid ← deref (SecurityGroupID securityGroupRule);
      match GetSecurityGroup gid with
      | OK n => OK n
      | Err e => Err ("unable to retrieve Security Group: " +:+ e)
      | Panic => Panic
      end
  end.

Definition ruleToID (securityGroupRule : SecurityGroupRule) : result string :=
  p ← deref (Protocol securityGroupRule);
  let protocol := GoStrings.ToLower p in
  if GoStrings.HasPrefix protocol "icmp" then
    id ← deref (ID securityGroupRule);
    icmpType ← deref (ICMPType securityGroupRule);
    icmpCode ← deref (ICMPCode securityGroupRule);
    OK (id +:+ "_" +:+ protocol +:+ "_" +:+ fmtD icmpType +:+ ":"
           +:+ fmtD icmpCode)
  else
    name ← peerName securityGroupRule;
    if String.eqb protocol "tcp" || String.eqb protocol "udp" then
      id ← deref (ID securityGroupRule);
      startPort ← deref (StartPort securityGroupRule);
      endPort ← deref (EndPort securityGroupRule);
      OK (id +:+ "_" +:+ p +:+ "_" +:+ name +:+ "_"
             +:+ fmtD (Z.of_N startPort) +:+ "-" +:+ fmtD (Z.of_N endPort))
    else
      id ← deref (ID securityGroupRule);
      OK (id +:+ "_" +:+ p +:+ "_" +:+ name).
End Identify.

(** The peer name as the specification words it: the CIDR string if a
    network is present, else the resolved name of the referenced peer
    group, lower-cased. *)
Definition specPeerName (resolveGroupByID : string -> result string)
    (r : SecurityGroupRule) : result string :=
  match Network r with
  | Some network => OK (IPNet_String network)
  | None =>
      gid ← deref (SecurityGroupID r);
      n ← resolveGroupByID gid;
      OK (GoStrings.ToLower n)
  end.

(** [preparePorts]: one [START, END] couple per element of the set, in
    [List()] order; the parse errors are dropped as in the source. *)
Definition preparePorts (values : schemaSet) : list (N * N) :=
  map (fun v =>
         let ps := GoStrings.Split v hyphen in
         let startPort := fst (GoStrconv.ParseUint (nth 0 ps EmptyString) 16) in
         let endPort :=
           if Nat.eqb (length ps) 2
           then fst (GoStrconv.ParseUint (nth 1 ps EmptyString) 16)
           else startPort in
         (startPort, endPort))
      (Schema.List values).

(** ** Removal: [securityGroupRulesToRemove] *)

(** The substring before the first separator, the whole string when
    there is none: the backing ID the specification reads off an
    identifier. *)
Fixpoint substringBefore (sep : ascii) (s : string) : string :=
  match s with
  | EmptyString => EmptyString
  | String c s' =>
      if Ascii.eqb c sep then EmptyString else String c (substringBefore sep s')
  end.

Fixpoint containsByte (sep : ascii) (s : string) : bool :=
  match s with
  | EmptyString => false
  | String c s' => Ascii.eqb c sep || containsByte sep s'
  end.

Definition removalEntry (id : string) : SecurityGroupRule :=
  {| Description := None; EndPort := None; FlowDirection := None;
     ICMPCode := None; ICMPType := None; ID := Some id; Network := None;
     Protocol := None; SecurityGroupID := None; StartPort := None |}.

(** The loop of [securityGroupRulesToRemove]; [metas[0]] panics on an
    empty slice. *)
Fixpoint removeLoop (identifiers : list string)
    (rules : gmap string SecurityGroupRule)
  : result (gmap string SecurityGroupRule) :=
  match identifiers with
  | [] => OK rules
  | identifier :: rest =>
      let metas := GoStrings.SplitN identifier underscore 2 in
      match metas with
      | [] => Panic
      | id :: _ => removeLoop rest (<[identifier := removalEntry id]> rules)
      end
  end.

Definition securityGroupRulesToRemove (rule : RuleBlock)
  : result (gmap string SecurityGroupRule) :=
  removeLoop (Schema.List (ids rule)) ∅.

(** ** Expansion: [securityGroupRulesToAdd] *)

Definition with_Network (n : IPNet) (r : SecurityGroupRule) : SecurityGroupRule :=
  {| Description := Description r; EndPort := EndPort r;
     FlowDirection := FlowDirection r; ICMPCode := ICMPCode r;
     ICMPType := ICMPType r; ID := ID r; Network := Some n;
     Protocol := Protocol r; SecurityGroupID := SecurityGroupID r;
     StartPort := StartPort r |}.

Definition with_SecurityGroupID (g : string) (r : SecurityGroupRule)
  : SecurityGroupRule :=
  {| Description := Description r; EndPort := EndPort r;
     FlowDirection := FlowDirection r; ICMPCode := ICMPCode r;
     ICMPType := ICMPType r; ID := ID r; Network := Network r;
     Protocol := Protocol r; SecurityGroupID := Some g;
     StartPort := StartPort r |}.

Definition with_FlowDirection (d : option string) (r : SecurityGroupRule)
  : SecurityGroupRule :=
  {| Description := Description r; EndPort := EndPort r;
     FlowDirection := d; ICMPCode := ICMPCode r;
     ICMPType := ICMPType r; ID := ID r; Network := Network r;
     Protocol := Protocol r; SecurityGroupID := SecurityGroupID r;
     StartPort := StartPort r |}.

Definition with_ID (id : string) (r : SecurityGroupRule) : SecurityGroupRule :=
  {| Description := Description r; EndPort := EndPort r;
     FlowDirection := FlowDirection r; ICMPCode := ICMPCode r;
     ICMPType := ICMPType r; ID := Some id; Network := Network r;
     Protocol := Protocol r; SecurityGroupID := SecurityGroupID r;
     StartPort := StartPort r |}.

(** The strings of ASCII bytes. *)
Definition isASCII (c : ascii) : bool := (N_of_ascii c <? 128)%N.
Fixpoint asciiOnly (s : string) : bool :=
  match s with
  | EmptyString => true
  | String c s' => isASCII c && asciiOnly s'
  end.

Definition dquote : string := String (ascii_of_N 34) EmptyString.
Definition backslash : string := String (ascii_of_N 92) EmptyString.

Definition hexDigit (n : N) : string :=
  String (nth (N.to_nat n)
              (list_ascii_of_string "0123456789abcdef") "0"%char)
         EmptyString.

(** [strconv.Quote] on one byte: the double quote and the backslash
    get a backslash, a printable ASCII byte is copied, a control byte
    is written as its escape, one of a, b, t, n, v, f, r after a
    backslash for the bytes 7 to 13 and x with two hexadecimal digits
    after a backslash for the others.  A byte from 128 on is copied, as
    Go copies the printable characters of other scripts: the quoted
    text is that of Go on strings of ASCII bytes. *)
Definition quoteByte (c : ascii) : string :=
  let n := N_of_ascii c in
  if (n =? 34)%N || (n =? 92)%N then backslash +:+ String c EmptyString
  else if (32 <=? n)%N && negb (n =? 127)%N then String c EmptyString
  else if (n =? 7)%N then backslash +:+ "a"
  else if (n =? 8)%N then backslash +:+ "b"
  else if (n =? 9)%N then backslash +:+ "t"
  else if (n =? 10)%N then backslash +:+ "n"
  else if (n =? 11)%N then backslash +:+ "v"
  else if (n =? 12)%N then backslash +:+ "f"
  else if (n =? 13)%N then backslash +:+ "r"
  else backslash +:+ "x" +:+ hexDigit (n / 16) +:+ hexDigit (n mod 16).

Fixpoint quoteBytes (s : string) : string :=
  match s with
  | EmptyString => EmptyString
  | String c s' => quoteByte c +:+ quoteBytes s'
  end.

(** [fmt.Sprintf "%q"] on a string. *)
Definition fmtQ (s : string) : string := dquote +:+ quoteBytes s +:+ dquote.

Section Expand.
(** [client.FindSecurityGroup ctx zone x], through the [ID] of the
    group it returns. *)
Variable FindSecurityGroup : string -> result string.
(** [net.ParseCIDR], through the network it returns. *)
Variable ParseCIDR : string -> result IPNet.
(** The helper [nonEmptyStringPtr], declared elsewhere in the package. *)
Variable nonEmptyStringPtr : string -> option string.

Definition baseRules (rule : RuleBlock) : list SecurityGroupRule :=
  let protocol := GoStrings.ToLower (protocol rule) in
  let descr := nonEmptyStringPtr (description rule) in
  if GoStrings.HasPrefix protocol "icmp" then
    [ {| Description := descr; EndPort := None; FlowDirection := None;
         ICMPCode := Some (icmp_code rule); ICMPType := Some (icmp_type rule);
         ID := None; Network := None; Protocol := Some protocol;
         SecurityGroupID := None; StartPort := None |} ]
  else if String.eqb protocol "tcp" || String.eqb protocol "udp" then
    map (fun portRange : N * N =>
           {| Description := descr; EndPort := Some (snd portRange);
              FlowDirection := None; ICMPCode := None; ICMPType := None;
              ID := None; Network := None; Protocol := Some protocol;
              SecurityGroupID := None; StartPort := Some (fst portRange) |})
        (preparePorts (ports rule))
  else
    [ {| Description := descr; EndPort := None; FlowDirection := None;
         ICMPCode := None; ICMPType := None; ID := None; Network := None;
         Protocol := Some protocol; SecurityGroupID := None;
         StartPort := None |} ].

(** The inner loop over [cidrSet.List()] for one base rule. *)
Definition expandCIDRs (cidrSet : schemaSet) (r : SecurityGroupRule)
  : result (list SecurityGroupRule) :=
  mapM (fun c => network ← ParseCIDR c; OK (with_Network network r))
       (Schema.List cidrSet).

(** The inner loop over [userSecurityGroupSet.List()] for one base rule. *)
Definition expandGroups (userSecurityGroupSet : schemaSet)
    (r : SecurityGroupRule) : result (list SecurityGroupRule) :=
  mapM (fun x =>
          match FindSecurityGroup x with
          | OK gid => OK (with_SecurityGroupID gid r)
          | Err e =>
              Err ("unable to retrieve Security Group " +:+ fmtQ x +:+ ": "
                     +:+ e)
          | Panic => Panic
          end)
       (Schema.List userSecurityGroupSet).

Definition securityGroupRulesToAdd (rule : RuleBlock)
  : result (list SecurityGroupRule) :=
  let base := baseRules rule in
  byCIDR ← mapM (expandCIDRs (cidr_list rule)) base;
  byGroup ← mapM (expandGroups (user_security_group_list rule)) base;
  OK (concat byCIDR ++ concat byGroup).
End Expand.

(** ** Reconciliation: [readRules] *)

(** The locals of one iteration of the outer loop of [readRules].
    [ids] aliases [rule["ids"]], so removals act on [l_rule]. *)
Record readLocals : Type := {
  l_rule : RuleBlock;
  l_actualLen : nat;
  l_cidrList : schemaSet;
  l_userSecurityGroupList : schemaSet;
  l_ports : schemaSet
}.

Section Reconcile.
Variable code : string -> N.
Variable GetSecurityGroup : string -> result string.
(** The helper [defaultString], declared elsewhere in the package. *)
Variable defaultString : option string -> string -> string.

(** Lines 706-740: the body of the loop over [ids.List()] for an
    identifier that [ruleFunc] resolves to the rule [r]. *)
Definition readFound (st : readLocals) (r : SecurityGroupRule)
  : result readLocals :=
  let actualLen := S (l_actualLen st) in
  p ← deref (Protocol r);
  let protocol := GoStrings.ToUpper p in
  let rule :=
    set_description (defaultString (Description r) "")
                    (set_protocol protocol (l_rule st)) in
  let cidrList :=
    match Network r with
    | Some network =>
        Schema.Add code (IPNet_String network) (l_cidrList st)
    | None => l_cidrList st
    end in
  userSecurityGroupList ←
    match SecurityGroupID r with
    | Some gid =>
        match GetSecurityGroup gid with
        | OK name => OK (Schema.Add code name (l_userSecurityGroupList st))
        | Err e => Err ("unable to retrieve Security Group: " +:+ e)
        | Panic => Panic
        end
    | None => OK (l_userSecurityGroupList st)
    end;
  if GoStrings.HasPrefix protocol "ICMP" then
    icmpCode ← deref (ICMPCode r);
    icmpType ← deref (ICMPType r);
    OK {| l_rule :=
            set_icmp icmpCode icmpType
              (set_protocol (GoStrings.ReplaceAll protocol "V6" "v6") rule);
          l_actualLen := actualLen;
          l_cidrList := cidrList;
          l_userSecurityGroupList := userSecurityGroupList;
          l_ports := l_ports st |}
  else if String.eqb protocol "TCP" || String.eqb protocol "UDP" then
    let startPort := default 0%N (StartPort r) in
    let endPort := default 0%N (EndPort r) in
    let entry :=
      if (startPort =? endPort)%N then fmtD (Z.of_N startPort)
      else fmtD (Z.of_N startPort) +:+ "-" +:+ fmtD (Z.of_N endPort) in
    OK {| l_rule := rule;
          l_actualLen := actualLen;
          l_cidrList := cidrList;
          l_userSecurityGroupList := userSecurityGroupList;
          l_ports := Schema.Add code entry (l_ports st) |}
  else
    OK {| l_rule := rule;
          l_actualLen := actualLen;
          l_cidrList := cidrList;
          l_userSecurityGroupList := userSecurityGroupList;
          l_ports := l_ports st |}.

(** The body of the loop over [ids.List()]. *)
Definition readStep (ruleFunc : fetchRuleFunc) (st : readLocals) (id : string)
  : result readLocals :=
  match ruleFunc id with
  | None =>
      OK {| l_rule := set_ids (Schema.Remove code id (ids (l_rule st)))
                              (l_rule st);
            l_actualLen := l_actualLen st;
            l_cidrList := l_cidrList st;
            l_userSecurityGroupList := l_userSecurityGroupList st;
            l_ports := l_ports st |}
  | Some r => readFound st r
  end.

(** The loop over the snapshot [ids.List()]. *)
Fixpoint readWalk (ruleFunc : fetchRuleFunc) (l : list string)
    (st : readLocals) : result readLocals :=
  match l with
  | [] => OK st
  | id :: l' => st' ← readStep ruleFunc st id; readWalk ruleFunc l' st'
  end.

Definition readInit (rule : RuleBlock) : readLocals :=
  {| l_rule := rule; l_actualLen := 0%nat;
     l_cidrList := Schema.NewSet;
     l_userSecurityGroupList := Schema.NewSet;
     l_ports := Schema.NewSet |}.

(** The test of lines 743-746. *)
Definition mustClearPorts (rule : RuleBlock) (st : readLocals) : bool :=
  let cidrLen := Schema.Len (cidr_list rule) in
  let userSecurityGroupLen := Schema.Len (user_security_group_list rule) in
  let portsLen := Schema.Len (ports rule) in
  let expectedLen := ((cidrLen + userSecurityGroupLen) * portsLen)%nat in
  Nat.eqb (Schema.Len (l_cidrList st)) cidrLen
  && Nat.eqb (Schema.Len (l_ports st)) portsLen
  && Nat.eqb (Schema.Len (l_userSecurityGroupList st)) userSecurityGroupLen
  && negb (Nat.eqb expectedLen (l_actualLen st)).

(** The body of the outer loop of [readRules]: one rule block. *)
Definition readRule (ruleFunc : fetchRuleFunc) (rule : RuleBlock)
  : result RuleBlock :=
  st ← readWalk ruleFunc (Schema.List (ids rule)) (readInit rule);
  let ports :=
    if mustClearPorts rule st then Schema.NewSet else l_ports st in
  OK {| cidr_list := l_cidrList st;
        description := description (l_rule st);
        icmp_code := icmp_code (l_rule st);
        icmp_type := icmp_type (l_rule st);
        ports := ports;
        protocol := protocol (l_rule st);
        user_security_group_list := l_userSecurityGroupList st;
        ids := ids (l_rule st) |}.

(** [readRules] over the blocks of one direction, in [rules.List()]
    order; the first failure is returned. *)
Definition readRules (ruleFunc : fetchRuleFunc) (rules : list RuleBlock)
  : result (list RuleBlock) :=
  mapM (readRule ruleFunc) rules.
End Reconcile.

(** Vocabulary for the statements about [readRules]. *)

(** Whether the backing rules hold an identifier. *)
Definition present (ruleFunc : fetchRuleFunc) (id : string) : bool :=
  match ruleFunc id with
  | Some _ => true
  | None => false
  end.

(** The walk over the rules that the identifiers resolve to. *)
Fixpoint readFoundAll (code : string → N)
    (GetSecurityGroup : string → result string)
    (defaultString : option string → string → string)
    (rs : list SecurityGroupRule) (st : readLocals) : result readLocals :=
  match rs with
  | [] => OK st
  | r :: rs' =>
      st' ← readFound code GetSecurityGroup defaultString st r;
      readFoundAll code GetSecurityGroup defaultString rs' st'
  end.

(** A backing TCP rule for one network and one port. *)
Definition tcpBacking (network : string) (port : N) (r : SecurityGroupRule)
  : Prop :=
  Protocol r = Some "tcp" ∧
  Network r = Some {| IPNet_String := network |} ∧
  SecurityGroupID r = None ∧
  StartPort r = Some port ∧ EndPort r = Some port.

(** A change of the [ids] set that the locals alias. *)
Definition map_ids (g : schemaSet → schemaSet) (st : readLocals) : readLocals :=
  {| l_rule := set_ids (g (ids (l_rule st))) (l_rule st);
     l_actualLen := l_actualLen st;
     l_cidrList := l_cidrList st;
     l_userSecurityGroupList := l_userSecurityGroupList st;
     l_ports := l_ports st |}.

(** The removals that a walk over [l] makes. *)
Definition dropAbsent (code : string → N) (ruleFunc : fetchRuleFunc)
    (l : list string) (s : schemaSet) : schemaSet :=
  fold_left (fun s id => if present ruleFunc id then s
                         else Schema.Remove code id s) l s.

(** Whether a walk over [l] leaves an element in the set. *)
Definition kept (code : string → N) (ruleFunc : fetchRuleFunc)
    (l : list string) (x : string) : bool :=
  forallb (fun y => present ruleFunc y || negb (code x =? code y)%N) l.

(** The locals with another rule block in place of [l_rule]. *)
Definition with_rule (rl : RuleBlock) (st : readLocals) : readLocals :=
  {| l_rule := rl;
     l_actualLen := l_actualLen st;
     l_cidrList := l_cidrList st;
     l_userSecurityGroupList := l_userSecurityGroupList st;
     l_ports := l_ports st |}.

(** What one successful iteration of the walk writes into the rule
    block. *)
Definition writeRule (code : string → N)
    (defaultString : option string → string → string)
    (ruleFunc : fetchRuleFunc) (rl : RuleBlock) (id : string) : RuleBlock :=
  match ruleFunc id with
  | None => set_ids (Schema.Remove code id (ids rl)) rl
  | Some r =>
      let protocol := GoStrings.ToUpper (default "" (Protocol r)) in
      let rl1 :=
        set_description (defaultString (Description r) "")
                        (set_protocol protocol rl) in
      if GoStrings.HasPrefix protocol "ICMP" then
        set_icmp (default 0 (ICMPCode r)) (default 0 (ICMPType r))
          (set_protocol (GoStrings.ReplaceAll protocol "V6" "v6") rl1)
      else rl1
  end.

(** A change [w] of the rule block settles a field when it either
    overwrites the field with a fixed value or leaves it as it was. *)
Definition settles {A} (field : RuleBlock → A) (w : RuleBlock → RuleBlock)
  : Prop :=
  (∃ v, ∀ rl, field (w rl) = v) ∨ (∀ rl, field (w rl) = field rl).

(** ** The rule loops of the create and update passes *)

Section Passes.
Variable code : string -> N.
Variable GetSecurityGroup : string -> result string.
Variable FindSecurityGroup : string -> result string.
Variable ParseCIDR : string -> result IPNet.
Variable nonEmptyStringPtr : string -> option string.
(** [client.CreateSecurityGroupRule ctx zone securityGroup rule]. *)
Variable CreateSecurityGroupRule : SecurityGroupRule -> result SecurityGroupRule.

(** Lines 483-490 of [resourceSecurityGroupRulesRead]: the index of
    the rules of the group by identifier. *)
Fixpoint ruleIDsLoop (rules : list SecurityGroupRule) (i : nat)
    (ruleIDs : gmap string nat) : result (gmap string nat) :=
  match rules with
  | [] => OK ruleIDs
  | rule :: rest =>
      id ← ruleToID GetSecurityGroup rule;
      ruleIDsLoop rest (S i) (<[id := i]> ruleIDs)
  end.

(** The closure handed to [readRules] at lines 493-499 and 510-516. *)
Definition lookupRule (rules : list SecurityGroupRule)
    (ruleIDs : gmap string nat) : fetchRuleFunc :=
  fun id =>
    match ruleIDs !! id with
    | None => None
    | Some idx => rules !! idx
    end.

(** Lines 483-524, for the blocks of one direction. *)
Definition readDirection (defaultString : option string -> string -> string)
    (groupRules : list SecurityGroupRule) (blocks : list RuleBlock)
  : result (list RuleBlock) :=
  ruleIDs ← ruleIDsLoop groupRules 0%nat ∅;
  readRules code GetSecurityGroup defaultString
            (lookupRule groupRules ruleIDs) blocks.

(** Lines 411-428 of [resourceSecurityGroupRulesCreate]: the
    diagnostics built from a [ruleToID] error are dropped and the loop
    goes on with the zero value of [id]. *)
Fixpoint createLoop (flowDirection : string)
    (rulesToAdd : list SecurityGroupRule) (ids : schemaSet)
  : result schemaSet :=
  match rulesToAdd with
  | [] => OK ids
  | ruleToAdd :: rest =>
      let ruleToAdd :=
        with_FlowDirection (nonEmptyStringPtr flowDirection) ruleToAdd in
      securityGroupRule ← CreateSecurityGroupRule ruleToAdd;
      match ruleToID GetSecurityGroup securityGroupRule with
      | OK id => createLoop flowDirection rest (Schema.Add code id ids)
      | Err _ => createLoop flowDirection rest (Schema.Add code "" ids)
      | Panic => Panic
      end
  end.

(** Lines 395-429: one rule block of the create pass. *)
Definition createRule (flowDirection : string) (rule : RuleBlock)
  : result RuleBlock :=
  let userSecurityGroupList :=
    fold_left (fun acc x => Schema.Add code (GoStrings.ToLower x) acc)
              (Schema.List (user_security_group_list rule)) Schema.NewSet in
  let rule := set_user_security_group_list userSecurityGroupList rule in
  rulesToAdd ← securityGroupRulesToAdd FindSecurityGroup ParseCIDR
                 nonEmptyStringPtr rule;
  ids ← createLoop flowDirection rulesToAdd (ids rule);
  OK (set_ids ids rule).

(** Lines 589-600 of [resourceSecurityGroupRulesUpdate]. *)
Fixpoint updateAddLoop (flowDirection : string)
    (rulesToAdd : list SecurityGroupRule) (ids : schemaSet)
  : result schemaSet :=
  match rulesToAdd with
  | [] => OK ids
  | ruleToAdd :: rest =>
      let ruleToAdd :=
        with_FlowDirection (nonEmptyStringPtr flowDirection) ruleToAdd in
      securityGroupRule ← CreateSecurityGroupRule ruleToAdd;
      id ← ruleToID GetSecurityGroup securityGroupRule;
      updateAddLoop flowDirection rest (Schema.Add code id ids)
  end.

(** Lines 581-601: one added rule block of the update pass. *)
Definition updateAddRule (flowDirection : string) (rule : RuleBlock)
  : result RuleBlock :=
  rulesToAdd ← securityGroupRulesToAdd FindSecurityGroup ParseCIDR
                 nonEmptyStringPtr rule;
  ids ← updateAddLoop flowDirection rulesToAdd (ids rule);
  OK (set_ids ids rule).
End Passes.

(** ** Concrete surroundings for the examples *)

Module Sample.

(** A collision-free code: the bytes of the string as a number. *)
Fixpoint codeFrom (acc : N) (s : string) : N :=
  match s with
  | EmptyString => acc
  | String c s' => codeFrom (acc * 256 + N_of_ascii c)%N s'
  end.
Definition code (s : string) : N := codeFrom 1%N s.

Definition defaultString (p : option string) (d : string) : string :=
  default d p.
Definition nonEmptyStringPtr (s : string) : option string :=
  if String.eqb s "" then None else Some s.

Definition ParseCIDR (c : string) : result IPNet :=
  OK {| IPNet_String := c |}.

(** A registry without groups: every lookup fails. *)
Definition noGroup (x : string) : result string :=
  Err "resource not found".

(** A registry holding the group [web] under the ID [g-1]. *)
Definition GetSecurityGroup (id : string) : result string :=
  if String.eqb id "g-1" then OK "web" else Err "resource not found".
Definition FindSecurityGroup (x : string) : result string :=
  if String.eqb x "web" || String.eqb x "g-1" then OK "g-1"
  else Err "resource not found".

Definition tcpRule (id cidr : string) (startPort endPort : N)
  : SecurityGroupRule :=
  {| Description := None; EndPort := Some endPort; FlowDirection := Some "ingress";
     ICMPCode := None; ICMPType := None; ID := Some id;
     Network := Some {| IPNet_String := cidr |}; Protocol := Some "tcp";
     SecurityGroupID := None; StartPort := Some startPort |}.

Definition netA : string := "10.0.0.0/8".
Definition netB : string := "192.168.0.0/16".

(** The backing rules A:80, A:443 and B:80; B:443 is gone. *)
Definition threeOfFour : list SecurityGroupRule :=
  [ tcpRule "r1" netA 80 80; tcpRule "r2" netA 443 443;
    tcpRule "r3" netB 80 80 ].

Definition setOf (l : list string) : schemaSet :=
  fold_left (fun acc x => Schema.Add code x acc) l Schema.NewSet.

(** The block declaring CIDRs {A, B} and ports {80, 443}, holding the
    identifiers of its four rules. *)
Definition blockAB : RuleBlock :=
  {| cidr_list := setOf [netA; netB]; description := "";
     icmp_code := 0; icmp_type := 0; ports := setOf ["80"; "443"];
     protocol := "TCP"; user_security_group_list := Schema.NewSet;
     ids := setOf [ "r1_tcp_10.0.0.0/8_80-80"; "r2_tcp_10.0.0.0/8_443-443";
                    "r3_tcp_192.168.0.0/16_80-80";
                    "r4_tcp_192.168.0.0/16_443-443" ] |}.

Definition fetch (rules : list SecurityGroupRule) : fetchRuleFunc :=
  match ruleIDsLoop noGroup rules 0%nat ∅ with
  | OK ruleIDs => lookupRule rules ruleIDs
  | _ => fun _ => None
  end.

Definition read (rules : list SecurityGroupRule) (b : RuleBlock)
  : result RuleBlock :=
  readRule code noGroup defaultString (fetch rules) b.

(** A TCP block with one CIDR and no port. *)
Definition tcpNoPorts : RuleBlock :=
  {| cidr_list := setOf [netA]; description := "";
     icmp_code := 0; icmp_type := 0; ports := Schema.NewSet;
     protocol := "TCP"; user_security_group_list := Schema.NewSet;
     ids := Schema.NewSet |}.

(** A TCP block with two CIDRs, the group [web] and two ports. *)
Definition tcpBlock : RuleBlock :=
  {| cidr_list := setOf [netA; netB]; description := "web";
     icmp_code := 0; icmp_type := 0; ports := setOf ["80"; "8000-8080"];
     protocol := "TCP"; user_security_group_list := setOf ["web"];
     ids := Schema.NewSet |}.

Definition expand (b : RuleBlock) : result (list SecurityGroupRule) :=
  securityGroupRulesToAdd FindSecurityGroup ParseCIDR nonEmptyStringPtr b.

(** All four backing rules of [blockAB]. *)
Definition fourOfFour : list SecurityGroupRule :=
  threeOfFour ++ [ tcpRule "r4" netB 443 443 ].

(** An ICMP block with two CIDRs. *)
Definition icmpBlock : RuleBlock :=
  {| cidr_list := setOf [netA; netB]; description := "ping";
     icmp_code := 0; icmp_type := 8; ports := Schema.NewSet;
     protocol := "ICMP"; user_security_group_list := Schema.NewSet;
     ids := Schema.NewSet |}.

(** A TCP block whose peer is the group [web]. *)
Definition groupBlock : RuleBlock :=
  {| cidr_list := Schema.NewSet; description := "ssh";
     icmp_code := 0; icmp_type := 0; ports := setOf ["22"];
     protocol := "TCP"; user_security_group_list := setOf ["web"];
     ids := Schema.NewSet |}.

(** A backing service that files every created rule under [r9]. *)
Definition CreateSecurityGroupRule (r : SecurityGroupRule)
  : result SecurityGroupRule :=
  OK (with_ID "r9" r).

(** The rule that [groupBlock] expands to. *)
Definition groupRule : SecurityGroupRule :=
  {| Description := Some "ssh"; EndPort := Some 22%N; FlowDirection := None;
     ICMPCode := None; ICMPType := None; ID := None; Network := None;
     Protocol := Some "tcp"; SecurityGroupID := Some "g-1";
     StartPort := Some 22%N |}.

(** The rule of the ICMP key example. *)
Definition icmpv6Rule : SecurityGroupRule :=
  {| Description := None; EndPort := None; FlowDirection := Some "ingress";
     ICMPCode := Some 0; ICMPType := Some 3; ID := Some "abc";
     Network := Some {| IPNet_String := "::/0" |};
     Protocol := Some "ICMPv6"; SecurityGroupID := None;
     StartPort := None |}.

(** Another registry, which agrees with [GetSecurityGroup] on [g-1]. *)
Definition GetSecurityGroup' (id : string) : result string :=
  if String.eqb id "g-1" then OK "web" else OK "default".

(** A block holding the identifier of the removal example. *)
Definition blockToRemove : RuleBlock :=
  {| cidr_list := setOf [netA]; description := "";
     icmp_code := 0; icmp_type := 0; ports := setOf ["80"];
     protocol := "TCP"; user_security_group_list := Schema.NewSet;
     ids := ["abc_tcp_10.0.0.0/8_80-80"] |}.

(** A block holding an identifier without separator. *)
Definition blockMalformed : RuleBlock :=
  {| cidr_list := Schema.NewSet; description := "";
     icmp_code := 0; icmp_type := 0; ports := Schema.NewSet;
     protocol := "TCP"; user_security_group_list := Schema.NewSet;
     ids := ["abc"] |}.

(** A UDP rule for the port range 8000-8080. *)
Definition udpRange : SecurityGroupRule :=
  {| Description := None; EndPort := Some 8080%N;
     FlowDirection := Some "ingress";
     ICMPCode := None; ICMPType := None; ID := Some "r7";
     Network := Some {| IPNet_String := netA |}; Protocol := Some "udp";
     SecurityGroupID := None; StartPort := Some 8000%N |}.

(** A block that holds the identifier of the rule [r2] only. *)
Definition blockR2 : RuleBlock :=
  {| cidr_list := setOf [netA]; description := "";
     icmp_code := 0; icmp_type := 0; ports := setOf ["443"];
     protocol := "TCP"; user_security_group_list := Schema.NewSet;
     ids := ["r2_tcp_10.0.0.0/8_443-443"] |}.

(** A UDP block without port, whose peers are a group that no registry
    knows and a string that is no CIDR. *)
Definition udpNoPorts : RuleBlock :=
  {| cidr_list := setOf ["not-a-cidr"]; description := "";
     icmp_code := 0; icmp_type := 0; ports := Schema.NewSet;
     protocol := "udp"; user_security_group_list := setOf ["nowhere"];
     ids := Schema.NewSet |}.

(** A parser that accepts no string. *)
Definition noCIDR (c : string) : result IPNet := Err "invalid CIDR address".

(** A backing service that deletes whatever it is asked to. *)
Definition deleteAny (r : SecurityGroupRule) : result unit := OK tt.

(** A backing service that deletes every rule but [r2]. *)
Definition DeleteSecurityGroupRule (r : SecurityGroupRule) : result unit :=
  if bool_decide (ID r = Some "r2") then Err "rule in use" else OK tt.

End Sample.

(** The rules of an expansion as the backing service holds them once
    created, each under the backing ID it was given. *)
Definition created (backingIDs : list string) (rules : list SecurityGroupRule)
  : list SecurityGroupRule :=
  zip_with with_ID backingIDs rules.

(** * The rest of the resource *)

(** Whether a port string and its parse agree for the port [n]:
    [fmt.Sprintf "%d"] followed by [strconv.ParseUint] gives [n] back
    without error, and the string has no hyphen. *)
Definition portPrintsAndParses (n : N) : bool :=
  let s := fmtD (Z.of_N n) in
  let '(v, ok) := GoStrconv.ParseUint s 16 in
  (v =? n)%N && ok && negb (containsByte hyphen s).

(** [allBelow check k prefix]: [check] holds of all the numbers that
    extend the binary prefix [prefix] by [k] bits. *)
Fixpoint allBelow (check : N → bool) (k : nat) (prefix : N) : bool :=
  match k with
  | O => check prefix
  | S k' =>
      allBelow check k' (2 * prefix) && allBelow check k' (2 * prefix + 1)
  end.

(** ** The removal loops of the update and delete passes *)

Section Removal.
Variable code : string -> N.
(** [client.DeleteSecurityGroupRule ctx zone securityGroup rule]. *)
Variable DeleteSecurityGroupRule : SecurityGroupRule -> result unit.

(** Lines 573-578 of [resourceSecurityGroupRulesUpdate] and 649-655 of
    [resourceSecurityGroupRulesDelete]: the loop over the entries of the
    map, in the order [entries] in which [range] visits them.  The set
    [ids] is changed in place, so the loop is given with the set as it
    leaves it and with its outcome. *)
Fixpoint deleteLoop (entries : list (string * SecurityGroupRule))
    (ids : schemaSet) : schemaSet * result unit :=
  match entries with
  | [] => (ids, OK tt)
  | (identifier, securityGroupRule) :: rest =>
      match DeleteSecurityGroupRule securityGroupRule with
      | OK _ => deleteLoop rest (Schema.Remove code identifier ids)
      | Err e => (ids, Err e)
      | Panic => (ids, Panic)
      end
  end.

(** Lines 566-578 and 641-655: one rule block to remove.  [mapOrder]
    stands for the order in which [range] visits a Go map. *)
Definition removeRuleBlock
    (mapOrder : gmap string SecurityGroupRule ->
                list (string * SecurityGroupRule))
    (rule : RuleBlock) : RuleBlock * result unit :=
  match securityGroupRulesToRemove rule with
  | OK rulesToRemove =>
      let '(ids', outcome) := deleteLoop (mapOrder rulesToRemove) (ids rule) in
      (set_ids ids' rule, outcome)
  | Err e => (rule, Err e)
  | Panic => (rule, Panic)
  end.
End Removal.

(** ** The upgrades of the stored state *)

(** The fragment of the syntax of Go's [regexp] that the resource uses,
    and its matching: the match that a backtracking search finds first,
    the operators being greedy. *)
Module GoRegexp.

Inductive re : Type :=
| Bol                                  (* the start of the text *)
| Eol                                  (* the end of the text *)
| Lit (s : string)
| Class (p : ascii -> bool)            (* one byte of a class *)
| Star (p : ascii -> bool)             (* greedy star of a class *)
| Plus (p : ascii -> bool)             (* greedy plus of a class *)
| Rep (n : nat) (p : ascii -> bool)    (* n bytes of a class *)
| Opt (r : re)                         (* greedy option *)
| Alt (a b : re)                       (* ordered choice *)
| Seq (a b : re)
| Cap (i : nat) (r : re).              (* the group number i *)

Fixpoint cat (rs : list re) : re :=
  match rs with
  | [] => Lit EmptyString
  | [r] => r
  | r :: rs' => Seq r (cat rs')
  end.

(** [[0-9]], [[a-z]], [[0-9a-z-]] and [.], which matches every byte
    but the newline. *)
Definition digit (c : ascii) : bool :=
  let n := N_of_ascii c in ((48 <=? n) && (n <=? 57))%N.
Definition lower (c : ascii) : bool := GoStrings.isLower c.
Definition digitLowerHyphen (c : ascii) : bool :=
  digit c || lower c || Ascii.eqb c hyphen.
Definition dot (c : ascii) : bool := negb (Ascii.eqb c "010"%char).

Fixpoint allChars (p : ascii -> bool) (s : string) : bool :=
  match s with
  | EmptyString => true
  | String c s' => p c && allChars p s'
  end.

Fixpoint dropBytes (n : nat) (s : string) : string :=
  match n, s with
  | S n', String _ s' => dropBytes n' s'
  | _, _ => s
  end.

Definition takeBytes (n : nat) (s : string) : string := substring 0 n s.

(** The text of the groups; a group that took no part in the match
    reads as the empty string. *)
Definition captures : Type := nat -> string.
Definition noCaptures : captures := fun _ => EmptyString.
Definition setCapture (i : nat) (s : string) (caps : captures) : captures :=
  fun j => if Nat.eqb j i then s else caps j.

Section Run.
Context {R : Type}.

(** What is left to match: called with the offset reached, the rest of
    the input and the groups so far. *)
Definition cont : Type := nat -> string -> captures -> option R.

Fixpoint star (p : ascii -> bool) (k : cont) (pos : nat) (rest : string)
    (caps : captures) : option R :=
  match rest with
  | String c rest' =>
      if p c then
        match star p k (S pos) rest' caps with
        | Some x => Some x
        | None => k pos rest caps
        end
      else k pos rest caps
  | EmptyString => k pos rest caps
  end.

Fixpoint rep (n : nat) (p : ascii -> bool) (k : cont) (pos : nat)
    (rest : string) (caps : captures) : option R :=
  match n with
  | O => k pos rest caps
  | S n' =>
      match rest with
      | String c rest' => if p c then rep n' p k (S pos) rest' caps else None
      | EmptyString => None
      end
  end.

Fixpoint run (r : re) (k : cont) (pos : nat) (rest : string)
    (caps : captures) : option R :=
  match r with
  | Bol => if Nat.eqb pos 0 then k pos rest caps else None
  | Eol =>
      match rest with
      | EmptyString => k pos rest caps
      | String _ _ => None
      end
  | Lit s =>
      if GoStrings.HasPrefix rest s
      then k (pos + String.length s)%nat (dropBytes (String.length s) rest)
             caps
      else None
  | Class p => rep 1 p k pos rest caps
  | Star p => star p k pos rest caps
  | Plus p => rep 1 p (star p k) pos rest caps
  | Rep n p => rep n p k pos rest caps
  | Opt r' =>
      match run r' k pos rest caps with
      | Some x => Some x
      | None => k pos rest caps
      end
  | Alt a b =>
      match run a k pos rest caps with
      | Some x => Some x
      | None => run b k pos rest caps
      end
  | Seq a b =>
      run a (fun pos' rest' caps' => run b k pos' rest' caps') pos rest caps
  | Cap i r' =>
      run r'
          (fun pos' rest' caps' =>
             k pos' rest'
               (setCapture i (takeBytes (pos' - pos) rest) caps'))
          pos rest caps
  end.
End Run.

(** The match of a pattern that begins with [^]: it starts at offset 0
    or there is none.  The result is the offset of its end, the input
    after it and the groups. *)
Definition matchStart (r : re) (src : string)
  : option (nat * string * captures) :=
  run r (fun pos rest caps => Some (pos, rest, caps)) 0%nat src noCaptures.

(** A replacement template: text and references [${i}]. *)
Inductive piece : Type :=
| Text (s : string)
| Ref (i : nat).

Fixpoint expand (template : list piece) (caps : captures) : string :=
  match template with
  | [] => EmptyString
  | Text s :: template' => s +:+ expand template' caps
  | Ref i :: template' => caps i +:+ expand template' caps
  end.

(** [re.ReplaceAllString src repl] for a pattern that begins with [^]. *)
Definition ReplaceAllString (r : re) (src : string) (repl : list piece)
  : string :=
  match matchStart r src with
  | Some (_, rest, caps) => expand repl caps +:+ rest
  | None => src
  end.

(** [re.FindStringSubmatch s] for a pattern that begins with [^] and has
    [n] groups: nil when there is no match, else the text of the match
    followed by the text of the groups. *)
Definition FindStringSubmatch (r : re) (n : nat) (s : string) : list string :=
  match matchStart r s with
  | Some (pos, _, caps) => takeBytes pos s :: map caps (seq 1 n)
  | None => []
  end.

End GoRegexp.

(** A rule with another start port: a start port 0 of the releases
    before 0.31 comes back from the API as 1. *)
Definition with_StartPort (p : N) (r : SecurityGroupRule)
  : SecurityGroupRule :=
  {| Description := Description r; EndPort := EndPort r;
     FlowDirection := FlowDirection r; ICMPCode := ICMPCode r;
     ICMPType := ICMPType r; ID := ID r; Network := Network r;
     Protocol := Protocol r; SecurityGroupID := SecurityGroupID r;
     StartPort := Some p |}.

(** Whether [fmt.Sprintf "%d"] prints the port [n] with digits only, at
    least one, and prints 0 for the port 0 only. *)
Definition portPrintsDigits (n : N) : bool :=
  let s := fmtD (Z.of_N n) in
  GoRegexp.allChars GoRegexp.digit s
  && negb (String.eqb s "")
  && (negb (String.eqb s "0") || (n =? 0)%N).

Module Migration.
Import GoRegexp.

(** The helper structure [stateSecurityGroupRule]. *)
Record stateSecurityGroupRule : Type := {
  CIDRList : list string;
  Description : string;
  ICMPCode : option Z;
  ICMPType : option Z;
  IDs : list string;
  Ports : list string;
  Protocol : string;
  UserSecurityGroupList : list string
}.

(** Whether a loop that writes [new] over [old], index by index, has
    met an index where the two differ. *)
Definition differ (old new : list string) : bool :=
  existsb (fun '(a, b) => negb (String.eqb a b)) (combine old new).

(** ** [resourceSecurityGroupRulesStateUpgradeV0] *)
Module V0.

(** The pattern of line 229, piece by piece:
    ^ ( [0-9a-z-]{36} _ (?:tcp|udp) _ .* ) _0 ( -[0-9]+ )? $ *)
Definition ruleIDRegex : re :=
  cat [ Bol;
        Cap 1 (cat [ Rep 36 digitLowerHyphen; Lit "_";
                     Alt (Lit "tcp") (Lit "udp"); Lit "_"; Star dot ]);
        Lit "_0";
        Opt (Cap 2 (cat [ Lit "-"; Plus digit ]));
        Eol ].

(** The pattern of line 230, piece by piece: ^ 0- ( [0-9]+ ) $ *)
Definition rulePortsRegex : re :=
  cat [ Bol; Lit "0-"; Cap 1 (Plus digit); Eol ].

(** The two forms of the end of an identifier after its last [_0], as
    the pattern has them: nothing, or a hyphen and digits. *)
Definition isTail (suf : string) : Prop :=
  suf = "" ∨ ∃ d, suf = "-" +:+ d ∧ d ≠ "" ∧ allChars digit d = true.

(** Line 247: the new value of [rule.IDs[idx]]. *)
Definition patchID (ruleID : string) : string :=
  ReplaceAllString ruleIDRegex ruleID [Ref 1; Text "_1"; Ref 2].

(** Line 256: the new value of [rule.Ports[idx]]. *)
Definition patchPorts (ports : string) : string :=
  ReplaceAllString rulePortsRegex ports [Text "1-"; Ref 1].

(** Lines 245-261: the two loops over one rule of the state, with the
    rule as they leave it and the value of [patchRules] after them. *)
Definition patchRule (rule : stateSecurityGroupRule)
  : stateSecurityGroupRule * bool :=
  let ids := map patchID (IDs rule) in
  let ports := map patchPorts (Ports rule) in
  ({| CIDRList := CIDRList rule; Description := Description rule;
      ICMPCode := ICMPCode rule; ICMPType := ICMPType rule;
      IDs := ids; Ports := ports; Protocol := Protocol rule;
      UserSecurityGroupList := UserSecurityGroupList rule |},
   differ (IDs rule) ids || differ (Ports rule) ports).
End V0.

(** ** [resourceSecurityGroupRulesStateUpgradeV1] *)
Module V1.

(** The pattern of line 291, piece by piece:
    ^ ( [0-9a-z-]{36} _ (?:[a-z]+6?) _ ) ( .* ) ( _[0-9]+-[0-9]+ )? $ *)
Definition ruleIDRegex : re :=
  cat [ Bol;
        Cap 1 (cat [ Rep 36 digitLowerHyphen; Lit "_";
                     cat [ Plus lower; Opt (Lit "6") ]; Lit "_" ]);
        Cap 2 (Star dot);
        Opt (Cap 3 (cat [ Lit "_"; Plus digit; Lit "-"; Plus digit ]));
        Eol ].

(** Lines 311-319: the new value of [rule.IDs[idx]]. *)
Definition patchID (ruleID : string) : string :=
  let matches := FindStringSubmatch ruleIDRegex 3 ruleID in
  if Nat.eqb (length matches) 4
  then nth 1 matches EmptyString
         +:+ GoStrings.ToLower (nth 2 matches EmptyString)
         +:+ nth 3 matches EmptyString
  else ruleID.

(** Lines 310-329: the two loops over one rule of the state, with the
    rule as they leave it and the value of [patchRules] after them. *)
Definition patchRule (rule : stateSecurityGroupRule)
  : stateSecurityGroupRule * bool :=
  let ids := map patchID (IDs rule) in
  let groups := map GoStrings.ToLower (UserSecurityGroupList rule) in
  ({| CIDRList := CIDRList rule; Description := Description rule;
      ICMPCode := ICMPCode rule; ICMPType := ICMPType rule;
      IDs := ids; Ports := Ports rule; Protocol := Protocol rule;
      UserSecurityGroupList := groups |},
   differ (IDs rule) ids
   || differ (UserSecurityGroupList rule) groups).
End V1.
End Migration.

(** * Properties *)

(** ** The helpers on small inputs *)

Example SplitN_identifier :
  GoStrings.SplitN "abc_tcp_10.0.0.0/8_80-80" underscore 2
  = ["abc"; "tcp_10.0.0.0/8_80-80"].
Proof. reflexivity. Qed.

Example SplitN_empty : GoStrings.SplitN "" underscore 2 = [""].
Proof. reflexivity. Qed.

Example ReplaceAll_icmpv6 : GoStrings.ReplaceAll "ICMPV6" "V6" "v6" = "ICMPv6".
Proof. reflexivity. Qed.

Example ParseUint_range : GoStrconv.ParseUint "70000" 16 = (65535%N, false).
Proof. reflexivity. Qed.

Example ParseUint_syntax : GoStrconv.ParseUint "8o" 16 = (0%N, false).
Proof. reflexivity. Qed.

Example preparePorts_forms :
  preparePorts ["80"; "8000-8080"; "1-2-3"; "http"]
  = [(80, 80); (8000, 8080); (1, 1); (0, 0)]%N.
Proof. reflexivity. Qed.

Example ruleToID_tcp :
  ruleToID Sample.noGroup (Sample.tcpRule "r1" Sample.netA 80 80)
  = OK "r1_tcp_10.0.0.0/8_80-80".
Proof. reflexivity. Qed.

Example ruleToID_lookup_fails :
  ruleToID Sample.noGroup (with_ID "r9" Sample.groupRule)
  = Err "unable to retrieve Security Group: resource not found".
Proof. reflexivity. Qed.

Example expand_tcpBlock_first :
  head <$> Sample.expand Sample.tcpBlock
  = OK (Some {| Description := Some "web"; EndPort := Some 80%N;
                FlowDirection := None; ICMPCode := None; ICMPType := None;
                ID := None; Network := Some {| IPNet_String := Sample.netA |};
                Protocol := Some "tcp"; SecurityGroupID := None;
                StartPort := Some 80%N |}).
Proof. reflexivity. Qed.

(** ** Strings *)

Lemma SplitN_2_head (s : string) (sep : ascii) :
  ∃ rest, GoStrings.SplitN s sep 2 = substringBefore sep s :: rest.
Proof.
  induction s as [|c s IH]; simpl.
  - by exists [].
  - destruct (Ascii.eqb c sep).
    + by eexists.
    + destruct IH as [rest IH]. simpl in IH. rewrite IH. by eexists.
Qed.

Lemma substringBefore_whole (sep : ascii) (s : string) :
  containsByte sep s = false → substringBefore sep s = s.
Proof.
  induction s as [|c s IH]; simpl; [done|].
  destruct (Ascii.eqb c sep); simpl; [done|].
  intros H. by rewrite IH.
Qed.

Lemma substringBefore_app (sep : ascii) (a b : string) :
  containsByte sep a = false →
  substringBefore sep (a +:+ String sep b) = a.
Proof.
  induction a as [|c a IH]; simpl.
  - by rewrite Ascii.eqb_refl.
  - destruct (Ascii.eqb c sep); simpl; [done|].
    intros H. by rewrite IH.
Qed.

(** ** Sets *)

Lemma Add_Forall (code : string → N) (P : string → Prop) (x : string)
    (s : schemaSet) :
  P x → Forall P s → Forall P (Schema.Add code x s).
Proof.
  intros Hx. induction 1 as [|y s Hy Hs IH]; simpl.
  - by constructor.
  - destruct (code x ?= code y)%N; repeat constructor; done.
Qed.

(** [Add] and [Remove] keep the codes strictly increasing. *)
Lemma Add_wf (code : string → N) (x : string) (s : schemaSet) :
  Schema.wf code s → Schema.wf code (Schema.Add code x s).
Proof.
  unfold Schema.wf. induction 1 as [|y s Hs IH Hy]; simpl.
  - repeat constructor.
  - destruct (code x ?= code y)%N eqn:Hcmp.
    + by constructor.
    + change (code x < code y)%N in Hcmp.
      constructor; [by constructor|]. constructor; [done|].
      eapply Forall_impl; [exact Hy|]. intros z Hz. cbv beta in Hz. lia.
    + apply N.compare_gt_iff in Hcmp.
      constructor; [done|]. by apply Add_Forall.
Qed.

Lemma Remove_wf (code : string → N) (x : string) (s : schemaSet) :
  Schema.wf code s → Schema.wf code (Schema.Remove code x s).
Proof.
  unfold Schema.wf, Schema.Remove.
  induction 1 as [|y s Hs IH Hy]; simpl; [constructor|].
  destruct (negb _); [|done].
  constructor; [done|].
  apply Forall_forall. intros z Hz%list_elem_of_In%filter_In.
  rewrite Forall_forall in Hy. apply Hy, list_elem_of_In, Hz.
Qed.

(** In a well-formed set no two elements share a code. *)
Lemma wf_NoDup_codes (code : string → N) (s : schemaSet) :
  Schema.wf code s → NoDup (code <$> s).
Proof.
  unfold Schema.wf. induction 1 as [|y s Hs IH Hy]; [constructor|].
  rewrite fmap_cons. apply NoDup_cons. split; [|done].
  intros (z & Hz & Hin)%list_elem_of_fmap.
  rewrite Forall_forall in Hy. specialize (Hy z Hin). lia.
Qed.

(** ** Removal *)

Lemma removeLoop_spec (l : list string) (m0 : gmap string SecurityGroupRule) :
  ∃ m, removeLoop l m0 = OK m ∧
       ∀ id, m !! id =
             if decide (id ∈ l)
             then Some (removalEntry (substringBefore underscore id))
             else m0 !! id.
Proof.
  revert m0. induction l as [|x l IH]; intros m0; simpl.
  - exists m0. split; [done|]. intros id.
    destruct (decide (id ∈ [])) as [H|_]; [|done].
    by apply elem_of_nil in H.
  - destruct (SplitN_2_head x underscore) as [rest ->].
    destruct (IH (<[x:=removalEntry (substringBefore underscore x)]> m0))
      as (m & -> & Hm).
    exists m. split; [done|]. intros id. rewrite Hm.
    destruct (decide (id ∈ l)) as [Hin|Hnin].
    + rewrite decide_True; [done|]. apply elem_of_cons. by right.
    + destruct (decide (id = x)) as [->|Hne].
      * rewrite decide_True; [|apply elem_of_cons; by left].
        by rewrite lookup_insert_eq.
      * rewrite decide_False.
        -- by rewrite lookup_insert_ne.
        -- intros [?|?]%elem_of_cons; done.
Qed.

Lemma removeLoop_dom (l : list string) (m : gmap string SecurityGroupRule) :
  removeLoop l ∅ = OK m → dom m = list_to_set l.
Proof.
  intros H. destruct (removeLoop_spec l ∅) as (m' & H' & Hm).
  rewrite H in H'. injection H' as <-.
  apply set_eq. intros id. rewrite elem_of_dom, Hm, elem_of_list_to_set.
  case_decide; [by split; [|eauto]|].
  rewrite lookup_empty. split; [by intros [? ?]|done].
Qed.

(** C7. For every rule block, [securityGroupRulesToRemove] returns a map
    holding, for each identifier of [ids], an entry that carries only a
    backing ID, namely the substring of the identifier before its first
    underscore, and holding nothing else.  The function takes no resolver
    or client: it is string parsing only. *)
Theorem securityGroupRulesToRemove_entries (rule : RuleBlock) :
  ∃ m, securityGroupRulesToRemove rule = OK m ∧
       (∀ id, id ∈ ids rule →
              m !! id =
                Some {| Description := None; EndPort := None;
                        FlowDirection := None; ICMPCode := None;
                        ICMPType := None;
                        ID := Some (substringBefore underscore id);
                        Network := None; Protocol := None;
                        SecurityGroupID := None; StartPort := None |}) ∧
       (∀ id, id ∉ ids rule → m !! id = None).
Proof.
  unfold securityGroupRulesToRemove, Schema.List.
  destruct (removeLoop_spec (ids rule) ∅) as (m & Hm & Hl).
  exists m. split; [done|]. split; intros id Hid; rewrite Hl.
  - by rewrite decide_True.
  - by rewrite decide_False.
Qed.

(** C10. [securityGroupRulesToRemove] neither fails nor panics, whatever
    the identifiers: it returns a map whose keys are exactly the
    identifiers, one entry for each, and an identifier without
    underscore is its own backing ID. *)
Theorem securityGroupRulesToRemove_total (rule : RuleBlock) :
  ∃ m, securityGroupRulesToRemove rule = OK m ∧
       dom m = list_to_set (ids rule) ∧
       (NoDup (ids rule) → size m = length (ids rule)) ∧
       (∀ id, id ∈ ids rule → containsByte underscore id = false →
              ∃ e, m !! id = Some e ∧ ID e = Some id).
Proof.
  unfold securityGroupRulesToRemove, Schema.List.
  destruct (removeLoop_spec (ids rule) ∅) as (m & Hm & Hl).
  exists m. split; [done|].
  pose proof (removeLoop_dom _ _ Hm) as Hdom.
  split; [done|]. split.
  - intros Hnd. rewrite <- size_dom, Hdom.
    by apply size_list_to_set.
  - intros id Hid Hnone. rewrite Hl, decide_True by done.
    eexists. split; [reflexivity|]. simpl.
    by rewrite substringBefore_whole.
Qed.

(** ** Identification *)

(** C2, as the code has it. On a rule with a backing ID and a protocol,
    [ruleToID] returns the key in the prescribed format:
    [id_protocol-lowercased_type:code] for the ICMP family,
    [id_protocol_peer_start-end] for TCP and UDP and [id_protocol_peer]
    otherwise, with the protocol as the rule stores it.  The peer name
    is the CIDR string if a network is present; else it is the name of
    the peer group exactly as the registry returns it: [ruleToID] does
    not lower-case it. *)
Theorem ruleToID_format (GetSecurityGroup : string → result string)
    (r : SecurityGroupRule) (id p : string) :
  ID r = Some id →
  Protocol r = Some p →
  (GoStrings.HasPrefix (GoStrings.ToLower p) "icmp" = true →
   ∀ t c, ICMPType r = Some t → ICMPCode r = Some c →
     ruleToID GetSecurityGroup r =
       OK (id +:+ "_" +:+ GoStrings.ToLower p +:+ "_" +:+ fmtD t +:+ ":"
              +:+ fmtD c)) ∧
  (GoStrings.HasPrefix (GoStrings.ToLower p) "icmp" = false →
   ∀ name,
     (∃ n, Network r = Some n ∧ name = IPNet_String n) ∨
     (Network r = None ∧
      ∃ gid, SecurityGroupID r = Some gid ∧ GetSecurityGroup gid = OK name) →
     (GoStrings.ToLower p = "tcp" ∨ GoStrings.ToLower p = "udp" →
      ∀ s e, StartPort r = Some s → EndPort r = Some e →
        ruleToID GetSecurityGroup r =
          OK (id +:+ "_" +:+ p +:+ "_" +:+ name +:+ "_" +:+ fmtD (Z.of_N s)
                 +:+ "-" +:+ fmtD (Z.of_N e))) ∧
     (GoStrings.ToLower p ≠ "tcp" → GoStrings.ToLower p ≠ "udp" →
      ruleToID GetSecurityGroup r = OK (id +:+ "_" +:+ p +:+ "_" +:+ name))).
Proof.
  intros Hid Hp. split.
  - intros Hicmp t c Ht Hc. unfold ruleToID.
    rewrite Hp; simpl. rewrite Hicmp, Hid, Ht, Hc. done.
  - intros Hicmp name Hname.
    assert (Hpeer : peerName GetSecurityGroup r = OK name).
    { unfold peerName.
      destruct Hname as [(n & -> & ->)|(-> & gid & -> & Hg)]; [done|].
      simpl. by rewrite Hg. }
    split.
    + intros Htcp s e Hs He. unfold ruleToID.
      rewrite Hp; simpl. rewrite Hicmp, Hpeer; simpl.
      assert (String.eqb (GoStrings.ToLower p) "tcp"
              || String.eqb (GoStrings.ToLower p) "udp" = true) as ->.
      { destruct Htcp as [-> | ->]; done. }
      rewrite Hid, Hs, He. done.
    + intros Hn1 Hn2. unfold ruleToID.
      rewrite Hp; simpl. rewrite Hicmp, Hpeer; simpl.
      apply String.eqb_neq in Hn1, Hn2. rewrite Hn1, Hn2; simpl.
      rewrite Hid. done.
Qed.

(** C8. The key of a rule is a function of the rule and of the name under
    which the registry resolves the rule's own peer group: two runs whose
    resolvers agree on that group give the same outcome, byte for byte.
    No set or map is listed on the way. *)
Theorem ruleToID_deterministic (G1 G2 : string → result string)
    (r : SecurityGroupRule) :
  (∀ gid, SecurityGroupID r = Some gid → G1 gid = G2 gid) →
  ruleToID G1 r = ruleToID G2 r.
Proof.
  intros Hagree. unfold ruleToID.
  destruct (Protocol r) as [p|]; simpl; [|done].
  destruct (GoStrings.HasPrefix (GoStrings.ToLower p) "icmp"); [done|].
  unfold peerName. destruct (Network r); [done|].
  destruct (SecurityGroupID r) as [gid|]; simpl; [|done].
  by rewrite (Hagree gid eq_refl).
Qed.

(** ** Expansion *)

Lemma mapM_total {A B} (f : A → result B) (l : list A) :
  Forall (λ a, ∃ b, f a = OK b) l →
  ∃ bs, mapM f l = OK bs ∧ length bs = length l.
Proof.
  induction 1 as [|a l [b Hb] _ (bs & Hbs & Hlen)]; simpl.
  - by exists [].
  - rewrite Hb; simpl. rewrite Hbs; simpl. exists (b :: bs).
    split; [done|]. simpl. by rewrite Hlen.
Qed.

Lemma mapM_Forall2 {A B} (f : A → result B) (l : list A) (bs : list B) :
  mapM f l = OK bs → Forall2 (λ a b, f a = OK b) l bs.
Proof.
  revert bs. induction l as [|a l IH]; simpl; intros bs H.
  - injection H as <-. constructor.
  - destruct (f a) as [b| |] eqn:Hb; simpl in H; try done.
    destruct (mapM f l) as [bs'| |]; simpl in H; try done.
    injection H as <-. constructor; auto.
Qed.

Lemma length_concat_uniform {A} (n : nat) (ls : list (list A)) :
  Forall (λ l, length l = n) ls → length (concat ls) = (length ls * n)%nat.
Proof.
  induction 1 as [|l ls Hl _ IH]; simpl; [done|].
  rewrite length_app, IH, Hl. done.
Qed.

Lemma icmp_not_tcp_udp (lp : string) :
  GoStrings.HasPrefix lp "icmp" = true →
  String.eqb lp "tcp" || String.eqb lp "udp" = false.
Proof.
  destruct lp as [|c lp]; simpl; [done|].
  destruct (Ascii.eqb c "i") eqn:Hc; simpl; [|done].
  apply Ascii.eqb_eq in Hc as ->. done.
Qed.

Lemma length_baseRules (nonEmptyStringPtr : string → option string)
    (rule : RuleBlock) :
  length (baseRules nonEmptyStringPtr rule) =
    if String.eqb (GoStrings.ToLower (protocol rule)) "tcp"
       || String.eqb (GoStrings.ToLower (protocol rule)) "udp"
    then Schema.Len (ports rule) else 1%nat.
Proof.
  unfold baseRules.
  destruct (GoStrings.HasPrefix _ "icmp") eqn:Hicmp.
  - by rewrite (icmp_not_tcp_udp _ Hicmp).
  - destruct (_ || _); [|done].
    unfold preparePorts, Schema.List, Schema.Len.
    by rewrite !length_map.
Qed.

Lemma expandCIDRs_total (ParseCIDR : string → result IPNet)
    (cidrSet : schemaSet) (r : SecurityGroupRule) :
  Forall (λ c, ∃ n, ParseCIDR c = OK n) cidrSet →
  ∃ rs, expandCIDRs ParseCIDR cidrSet r = OK rs ∧
        length rs = Schema.Len cidrSet.
Proof.
  intros H. apply mapM_total.
  eapply Forall_impl; [exact H|]. intros c [n ->]. by eexists.
Qed.

Lemma expandGroups_total (FindSecurityGroup : string → result string)
    (groupSet : schemaSet) (r : SecurityGroupRule) :
  Forall (λ x, ∃ g, FindSecurityGroup x = OK g) groupSet →
  ∃ rs, expandGroups FindSecurityGroup groupSet r = OK rs ∧
        length rs = Schema.Len groupSet.
Proof.
  intros H. apply mapM_total.
  eapply Forall_impl; [exact H|]. intros c [n ->]. by eexists.
Qed.

Lemma mapM_uniform {A B} (f : A → result (list B)) (n : nat) (l : list A) :
  (∀ a, ∃ bs, f a = OK bs ∧ length bs = n) →
  ∃ bss, mapM f l = OK bss ∧ length (concat bss) = (length l * n)%nat.
Proof.
  intros Hf.
  destruct (mapM_total f l) as (bss & Hbss & Hlen).
  { apply Forall_forall. intros a _. destruct (Hf a) as (bs & ? & _). eauto. }
  exists bss. split; [done|]. rewrite <- Hlen.
  apply length_concat_uniform.
  apply mapM_Forall2 in Hbss.
  clear Hlen. induction Hbss as [|a bs l' bss' Hab _ IH].
  - constructor.
  - constructor; [|done].
    destruct (Hf a) as (bs' & Hbs' & ?). congruence.
Qed.

(** C3, as the code has it. When every declared CIDR parses and every
    declared peer group is found, [securityGroupRulesToAdd] returns
    exactly [(c + g) * p] rules for TCP and UDP, [p] being the number of
    declared ports, and [(c + g) * 1] rules for any other protocol, the
    ICMP family included. *)
Theorem securityGroupRulesToAdd_count
    (FindSecurityGroup : string → result string)
    (ParseCIDR : string → result IPNet)
    (nonEmptyStringPtr : string → option string) (rule : RuleBlock) :
  Forall (λ c, ∃ n, ParseCIDR c = OK n) (cidr_list rule) →
  Forall (λ x, ∃ g, FindSecurityGroup x = OK g)
         (user_security_group_list rule) →
  ∃ rules,
    securityGroupRulesToAdd FindSecurityGroup ParseCIDR nonEmptyStringPtr rule
      = OK rules ∧
    length rules =
      ((Schema.Len (cidr_list rule)
        + Schema.Len (user_security_group_list rule))
       * (if String.eqb (GoStrings.ToLower (protocol rule)) "tcp"
             || String.eqb (GoStrings.ToLower (protocol rule)) "udp"
          then Schema.Len (ports rule) else 1))%nat.
Proof.
  intros Hc Hg. unfold securityGroupRulesToAdd.
  rewrite <- (length_baseRules nonEmptyStringPtr).
  set (base := baseRules nonEmptyStringPtr rule).
  destruct (mapM_uniform (expandCIDRs ParseCIDR (cidr_list rule))
              (Schema.Len (cidr_list rule)) base) as (byC & -> & HlenC).
  { intros r. by apply expandCIDRs_total. }
  destruct (mapM_uniform
              (expandGroups FindSecurityGroup (user_security_group_list rule))
              (Schema.Len (user_security_group_list rule)) base)
    as (byG & -> & HlenG).
  { intros r. by apply expandGroups_total. }
  simpl. eexists. split; [done|].
  rewrite length_app, HlenC, HlenG. lia.
Qed.

(** C3, as stated, fails: a TCP block with one CIDR and no port expands to
    no rule at all, where [(c + g) * max 1 p] is 1. *)
Lemma securityGroupRulesToAdd_count_max_refuted :
  Sample.expand Sample.tcpNoPorts = OK [] ∧
  ((Schema.Len (cidr_list Sample.tcpNoPorts)
    + Schema.Len (user_security_group_list Sample.tcpNoPorts))
   * Nat.max 1 (Schema.Len (ports Sample.tcpNoPorts)))%nat = 1%nat.
Proof. split; reflexivity. Qed.

(** The count on a TCP block with two CIDRs, one group and two ports. *)
Lemma securityGroupRulesToAdd_count_witness :
  ∃ rules, Sample.expand Sample.tcpBlock = OK rules ∧ length rules = 6%nat.
Proof.
  destruct (securityGroupRulesToAdd_count Sample.FindSecurityGroup
              Sample.ParseCIDR Sample.nonEmptyStringPtr Sample.tcpBlock)
    as (rules & H & Hlen).
  - repeat constructor; by eexists.
  - repeat constructor; by eexists.
  - exists rules. split; [exact H|exact Hlen].
Defined.

(** ** Reconciliation *)

Section ReconcileFacts.
Context (code : string → N) (GetSecurityGroup : string → result string)
        (defaultString : option string → string → string)
        (ruleFunc : fetchRuleFunc).

Local Notation "'step'" :=
  (readStep code GetSecurityGroup defaultString ruleFunc).
Local Notation "'walk'" :=
  (readWalk code GetSecurityGroup defaultString ruleFunc).
Local Notation "'isPresent'" := (present ruleFunc).

Lemma readStep_absent (st : readLocals) (id : string) :
  isPresent id = false →
  step st id = OK (map_ids (Schema.Remove code id) st).
Proof.
  unfold present, readStep, readFound. by destruct (ruleFunc id).
Qed.

Lemma readStep_present_ids (g : schemaSet → schemaSet) (st : readLocals)
    (id : string) :
  isPresent id = true →
  step (map_ids g st) id = map_ids g <$> step st id.
Proof.
  unfold present, readStep, readFound. destruct (ruleFunc id) as [r|]; [intros _|done].
  destruct (Protocol r) as [p|]; simpl; [|done].
  destruct (SecurityGroupID r) as [gid|]; simpl.
  - destruct (GetSecurityGroup gid); simpl; try done.
    destruct (GoStrings.HasPrefix _ _).
    + destruct (ICMPCode r), (ICMPType r); done.
    + destruct (_ || _); done.
  - destruct (GoStrings.HasPrefix _ _).
    + destruct (ICMPCode r), (ICMPType r); done.
    + destruct (_ || _); done.
Qed.

Lemma readStep_present_keeps_ids (st st' : readLocals) (id : string) :
  isPresent id = true → step st id = OK st' →
  ids (l_rule st') = ids (l_rule st).
Proof.
  unfold present, readStep, readFound. destruct (ruleFunc id) as [r|]; [intros _|done].
  destruct (Protocol r) as [p|]; simpl; [|done].
  destruct (match SecurityGroupID r with Some _ => _ | None => _ end);
    simpl; try done.
  destruct (GoStrings.HasPrefix _ _).
  - destruct (ICMPCode r), (ICMPType r); simpl; try done.
    by intros [= <-].
  - destruct (_ || _); by intros [= <-].
Qed.

Lemma readWalk_present_ids (g : schemaSet → schemaSet) (l : list string)
    (st : readLocals) :
  forallb isPresent l = true →
  walk l (map_ids g st) = map_ids g <$> walk l st.
Proof.
  revert st. induction l as [|id l IH]; intros st; simpl; [done|].
  intros [Hid Hl]%andb_prop.
  rewrite (readStep_present_ids g st id Hid).
  destruct (step st id) as [st1| |]; simpl; try done.
  by apply IH.
Qed.

Lemma readWalk_present_keeps_ids (l : list string) (st st' : readLocals) :
  forallb isPresent l = true → walk l st = OK st' →
  ids (l_rule st') = ids (l_rule st).
Proof.
  revert st. induction l as [|id l IH]; intros st; simpl.
  - by intros _ [= <-].
  - intros [Hid Hl]%andb_prop.
    destruct (step st id) as [st1| |] eqn:Hst; simpl; try done.
    intros H. rewrite (IH _ Hl H).
    by apply (readStep_present_keeps_ids _ _ id).
Qed.

Lemma map_ids_compose (g h : schemaSet → schemaSet) (st : readLocals) :
  map_ids g (map_ids h st) = map_ids (g ∘ h) st.
Proof. by destruct st as [[] ? ? ? ?]. Qed.

Lemma map_ids_fmap_compose (g h : schemaSet → schemaSet)
    (m : result readLocals) :
  map_ids g <$> (map_ids h <$> m) = map_ids (g ∘ h) <$> m.
Proof.
  destruct m as [st| |]; [|done..].
  unfold fmap, result_fmap. by rewrite map_ids_compose.
Qed.

Lemma map_ids_fmap_ext (g h : schemaSet → schemaSet)
    (m : result readLocals) :
  (∀ s, g s = h s) → map_ids g <$> m = map_ids h <$> m.
Proof.
  intros Hgh. destruct m as [st| |]; [|done..].
  unfold fmap, result_fmap, map_ids. by rewrite Hgh.
Qed.

Lemma forallb_filter_id {A} (q : A → bool) (l : list A) :
  forallb q (List.filter q l) = true.
Proof.
  induction l as [|a l IH]; simpl; [done|].
  destruct (q a) eqn:Hq; simpl; [|done]. by rewrite Hq.
Qed.

(** Identifiers that the backing rules do not hold are skipped: they
    only leave the set of identifiers. *)
Lemma readWalk_skip (l : list string) (st : readLocals) :
  walk l st =
    map_ids (dropAbsent code ruleFunc l) <$>
      walk (List.filter isPresent l) st.
Proof.
  revert st. induction l as [|id l IH]; intros st; simpl.
  - by destruct st as [[] ? ? ? ?].
  - assert (Hdrop : ∀ s, dropAbsent code ruleFunc (id :: l) s =
              dropAbsent code ruleFunc l
                (if isPresent id then s else Schema.Remove code id s))
      by done.
    destruct (isPresent id) eqn:Hid; simpl.
    + destruct (step st id) as [st1| |]; [|done..].
      change (walk l st1 =
              map_ids (dropAbsent code ruleFunc (id :: l)) <$>
                walk (List.filter isPresent l) st1).
      rewrite IH. apply map_ids_fmap_ext. intros s. by rewrite Hdrop.
    + rewrite (readStep_absent st id Hid).
      change (walk l (map_ids (Schema.Remove code id) st) =
              map_ids (dropAbsent code ruleFunc (id :: l)) <$>
                walk (List.filter isPresent l) st).
      rewrite IH.
      rewrite readWalk_present_ids by apply forallb_filter_id.
      rewrite map_ids_fmap_compose.
      apply map_ids_fmap_ext. intros s. by rewrite Hdrop.
Qed.

Lemma filter_true {A} (l : list A) : List.filter (λ _, true) l = l.
Proof. induction l as [|a l IH]; simpl; [done|]. by rewrite IH. Qed.

Lemma filter_twice {A} (p q : A → bool) (l : list A) :
  List.filter q (List.filter p l) = List.filter (λ x, p x && q x) l.
Proof.
  induction l as [|a l IH]; simpl; [done|].
  destruct (p a); simpl; [|done]. destruct (q a); by rewrite IH.
Qed.

Lemma dropAbsent_filter (l : list string) (s : schemaSet) :
  dropAbsent code ruleFunc l s = List.filter (kept code ruleFunc l) s.
Proof.
  revert s. induction l as [|id l IH]; intros s.
  - simpl. by rewrite filter_true.
  - change (dropAbsent code ruleFunc (id :: l) s)
      with (dropAbsent code ruleFunc l
              (if isPresent id then s else Schema.Remove code id s)).
    rewrite IH. unfold kept at 2. simpl.
    destruct (isPresent id); simpl; [done|].
    unfold Schema.Remove. by rewrite filter_twice.
Qed.

(** In a well-formed set the walk removes the absent identifiers and
    no other. *)
Lemma kept_present (l : list string) (x : string) :
  NoDup (code <$> l) → x ∈ l → kept code ruleFunc l x = isPresent x.
Proof.
  intros Hnd Hx. unfold kept.
  destruct (isPresent x) eqn:Hp.
  - apply forallb_forall. intros y Hy%list_elem_of_In.
    destruct (N.eqb_spec (code x) (code y)) as [Heq|Hne]; simpl.
    + assert (y = x) as ->; [|by rewrite Hp].
      apply list_elem_of_lookup in Hx as [i Hi].
      apply list_elem_of_lookup in Hy as [j Hj].
      assert (i = j) as ->; [|congruence].
      eapply NoDup_lookup; [exact Hnd|..].
      * by rewrite list_lookup_fmap, Hi.
      * rewrite list_lookup_fmap, Hj. simpl. by rewrite Heq.
    + by rewrite orb_true_r.
  - apply not_true_is_false. intros Hall.
    rewrite forallb_forall in Hall.
    specialize (Hall x (proj1 (list_elem_of_In _ _) Hx)).
    by rewrite Hp, N.eqb_refl in Hall.
Qed.

Lemma dropAbsent_self (l : list string) :
  NoDup (code <$> l) →
  dropAbsent code ruleFunc l l = List.filter isPresent l.
Proof.
  intros Hnd. rewrite dropAbsent_filter.
  apply List.filter_ext_in. intros x Hx%list_elem_of_In.
  by apply kept_present.
Qed.

Lemma dropAbsent_all_absent (l : list string) :
  forallb (λ id, negb (isPresent id)) l = true →
  dropAbsent code ruleFunc l l = [].
Proof.
  intros Habs. rewrite dropAbsent_filter.
  rewrite forallb_forall in Habs.
  assert (∀ l', (∀ x, In x l' → In x l) →
                List.filter (kept code ruleFunc l) l' = []) as H;
    [|by apply H].
  induction l' as [|x l' IH]; intros Hsub; simpl; [done|].
  assert (kept code ruleFunc l x = false) as ->.
  { apply not_true_is_false. intros Hall. unfold kept in Hall.
    rewrite forallb_forall in Hall.
    specialize (Hall x (Hsub x (or_introl eq_refl))).
    specialize (Habs x (Hsub x (or_introl eq_refl))).
    rewrite N.eqb_refl in Hall. simpl in Hall.
    rewrite orb_false_r in Hall. by rewrite Hall in Habs. }
  apply IH. intros y Hy. apply Hsub. by right.
Qed.

Lemma readStep_actualLen (st st' : readLocals) (id : string) :
  step st id = OK st' →
  l_actualLen st' =
    (l_actualLen st + if isPresent id then 1 else 0)%nat.
Proof.
  unfold present, readStep, readFound. destruct (ruleFunc id) as [r|].
  - destruct (Protocol r) as [p|]; simpl; [|done].
    destruct (match SecurityGroupID r with Some _ => _ | None => _ end);
      simpl; try done.
    destruct (GoStrings.HasPrefix _ _).
    + destruct (ICMPCode r), (ICMPType r); simpl; try done.
      intros [= <-]; simpl; lia.
    + destruct (_ || _); intros [= <-]; simpl; lia.
  - intros [= <-]; simpl; lia.
Qed.

(** [actualLen] counts the identifiers that the backing rules hold. *)
Lemma readWalk_actualLen (l : list string) (st st' : readLocals) :
  walk l st = OK st' →
  l_actualLen st' =
    (l_actualLen st + length (List.filter isPresent l))%nat.
Proof.
  revert st. induction l as [|id l IH]; intros st; simpl.
  - intros [= <-]. lia.
  - destruct (step st id) as [st1| |] eqn:Hst; simpl; try done.
    intros H. rewrite (IH _ H), (readStep_actualLen _ _ _ Hst).
    destruct (isPresent id); simpl; lia.
Qed.

Local Notation "'write'" := (writeRule code defaultString ruleFunc).
Local Notation "'finish'" := (fun rule st =>
  {| cidr_list := l_cidrList st;
     description := description (l_rule st);
     icmp_code := icmp_code (l_rule st);
     icmp_type := icmp_type (l_rule st);
     ports := if mustClearPorts rule st then Schema.NewSet else l_ports st;
     protocol := protocol (l_rule st);
     user_security_group_list := l_userSecurityGroupList st;
     ids := ids (l_rule st) |}).

(** The walk reads the rule block nowhere: it only writes into it. *)
Lemma readStep_with_rule (rl : RuleBlock) (st : readLocals) (id : string) :
  step (with_rule rl st) id = with_rule (write rl id) <$> step st id.
Proof.
  unfold writeRule, readStep, readFound. destruct (ruleFunc id) as [r|]; [|done].
  destruct (Protocol r) as [p|]; simpl; [|done].
  destruct (match SecurityGroupID r with Some _ => _ | None => _ end);
    simpl; try done.
  destruct (GoStrings.HasPrefix _ _).
  - destruct (ICMPCode r), (ICMPType r); done.
  - destruct (_ || _); done.
Qed.

Lemma readWalk_with_rule (l : list string) (rl : RuleBlock)
    (st : readLocals) :
  walk l (with_rule rl st) = with_rule (fold_left write l rl) <$> walk l st.
Proof.
  revert rl st. induction l as [|id l IH]; intros rl st; simpl; [done|].
  rewrite readStep_with_rule.
  destruct (step st id) as [st1| |]; [|done..].
  apply IH.
Qed.

Lemma write_settles (id : string) :
  settles protocol (λ rl, write rl id) ∧
  settles description (λ rl, write rl id) ∧
  settles icmp_code (λ rl, write rl id) ∧
  settles icmp_type (λ rl, write rl id).
Proof.
  unfold settles, writeRule.
  destruct (ruleFunc id) as [r|]; [destruct (GoStrings.HasPrefix _ _)|];
    simpl; repeat split;
    solve [ left; eexists; intros rl; reflexivity
          | right; intros rl; reflexivity ].
Qed.

Lemma settles_fold {A} (field : RuleBlock → A) (l : list string) :
  (∀ id, settles field (λ rl, write rl id)) →
  settles field (fold_left write l).
Proof.
  intros Hw. induction l as [|id l IH]; simpl.
  - by right.
  - destruct IH as [[v Hv]|Hid].
    + left. exists v. intros rl. apply Hv.
    + destruct (Hw id) as [[v Hv]|Hkeep].
      * left. exists v. intros rl. by rewrite Hid.
      * right. intros rl. by rewrite Hid.
Qed.

Lemma settles_again {A} (field : RuleBlock → A) (w : RuleBlock → RuleBlock)
    (rl0 rl1 : RuleBlock) :
  settles field w → field rl1 = field (w rl0) →
  field (w rl1) = field (w rl0).
Proof.
  intros [[v Hv]|Hkeep] Heq.
  - by rewrite !Hv.
  - by rewrite Hkeep.
Qed.

Lemma filter_none (l : list string) :
  forallb (λ id, negb (isPresent id)) l = true →
  List.filter isPresent l = [].
Proof.
  induction l as [|id l IH]; simpl; [done|].
  intros [Hid Hl]%andb_prop. apply negb_true_iff in Hid.
  rewrite Hid. by apply IH.
Qed.

Lemma filter_fixed {A} (q : A → bool) (l : list A) :
  List.filter q (List.filter q l) = List.filter q l.
Proof.
  rewrite filter_twice. apply List.filter_ext. intros a. by destruct (q a).
Qed.

(** The shape of one pass in terms of the identifiers that the
    backing rules hold. *)
Lemma readRule_shape (rule rule' : RuleBlock) :
  readRule code GetSecurityGroup defaultString ruleFunc rule = OK rule' →
  ∃ st, walk (List.filter isPresent (ids rule)) (readInit rule) = OK st ∧
        walk (ids rule) (readInit rule)
          = OK (map_ids (dropAbsent code ruleFunc (ids rule)) st) ∧
        ids (l_rule st) = ids rule ∧
        l_actualLen st = length (List.filter isPresent (ids rule)) ∧
        rule' = finish rule
                  (map_ids (dropAbsent code ruleFunc (ids rule)) st).
Proof.
  unfold readRule, Schema.List. rewrite readWalk_skip.
  destruct (walk (List.filter isPresent (ids rule)) (readInit rule))
    as [st| |] eqn:Hw; [|done..].
  simpl. intros [= <-]. exists st.
  split; [done|]. split; [done|]. split.
  - by rewrite (readWalk_present_keeps_ids _ _ _ (forallb_filter_id _ _) Hw).
  - split; [|done].
    rewrite (readWalk_actualLen _ _ _ Hw). simpl.
    by rewrite filter_fixed.
Qed.

Lemma readWalk_found (l : list string) (st : readLocals) :
  forallb isPresent l = true →
  walk l st
  = readFoundAll code GetSecurityGroup defaultString (omap ruleFunc l) st.
Proof.
  revert st. induction l as [|id l IH]; intros st; [done|].
  intros [Hid Hl]%andb_prop. unfold present in Hid.
  cbn [readWalk omap list_omap]. unfold readStep.
  destruct (ruleFunc id) as [r|]; [|done].
  cbn [readFoundAll].
  destruct (readFound _ _ _ st r) as [st1| |]; [|done..].
  by apply IH.
Qed.

Lemma omap_filter_present (l : list string) :
  omap ruleFunc (List.filter isPresent l) = omap ruleFunc l.
Proof.
  induction l as [|id l IH]; [done|].
  cbn [List.filter omap list_omap]. unfold present at 1.
  destruct (ruleFunc id) as [r|] eqn:Hr; [|done].
  cbn [omap list_omap]. by rewrite Hr, IH.
Qed.

Lemma readFound_tcp (st : readLocals) (r : SecurityGroupRule)
    (network : string) (port : N) :
  tcpBacking network port r →
  readFound code GetSecurityGroup defaultString st r
  = OK {| l_rule := set_description (defaultString (Description r) "")
                      (set_protocol "TCP" (l_rule st));
          l_actualLen := S (l_actualLen st);
          l_cidrList := Schema.Add code network (l_cidrList st);
          l_userSecurityGroupList := l_userSecurityGroupList st;
          l_ports := Schema.Add code (fmtD (Z.of_N port)) (l_ports st) |}.
Proof.
  intros (Hp & Hn & Hg & Hs & He). unfold readFound.
  rewrite Hp, Hn, Hg, Hs, He. simpl. by rewrite N.eqb_refl.
Qed.

(** Two elements with distinct codes, one of them added twice, make a
    set of two, in whatever order they are added. *)
Lemma Len_Add_three (x y : string) (l : list string) :
  code x ≠ code y →
  l ∈ [[x; x; y]; [x; y; x]; [y; x; x]] →
  Schema.Len (fold_left (λ s z, Schema.Add code z s) l Schema.NewSet) = 2%nat.
Proof.
  intros Hne Hl.
  assert (Hc : ((code x ?= code y)%N = Lt ∧ (code y ?= code x)%N = Gt) ∨
               ((code x ?= code y)%N = Gt ∧ (code y ?= code x)%N = Lt)).
  { destruct (N.compare_spec (code x) (code y)) as [Heq|Hlt|Hgt]; [done|..].
    - left. split; [done|]. by apply N.compare_gt_iff.
    - right. split; [done|]. exact Hgt. }
  repeat (apply elem_of_cons in Hl as [->|Hl]);
    [..|by apply elem_of_nil in Hl];
    destruct Hc as [[Hc1 Hc2]|[Hc1 Hc2]];
    cbn [fold_left Schema.Add Schema.NewSet];
    repeat (rewrite ?N.compare_refl, ?Hc1, ?Hc2; cbn [Schema.Add]);
    reflexivity.
Qed.

Lemma mustClearPorts_true (rule : RuleBlock) (st : readLocals) :
  mustClearPorts rule st = true ↔
    Schema.Len (l_cidrList st) = Schema.Len (cidr_list rule) ∧
    Schema.Len (l_ports st) = Schema.Len (ports rule) ∧
    Schema.Len (l_userSecurityGroupList st)
      = Schema.Len (user_security_group_list rule) ∧
    l_actualLen st ≠
      ((Schema.Len (cidr_list rule)
        + Schema.Len (user_security_group_list rule))
       * Schema.Len (ports rule))%nat.
Proof.
  unfold mustClearPorts.
  rewrite !andb_true_iff, negb_true_iff, !Nat.eqb_eq, Nat.eqb_neq.
  intuition congruence.
Qed.

Lemma elem_of_three {A} (x a b c : A) :
  x = a ∨ x = b ∨ x = c → x ∈ [a; b; c].
Proof. rewrite !elem_of_cons. tauto. Qed.

(** The pass over a block that declares two CIDRs and two ports, no
    group, and reaches three TCP rules that cover both networks and
    both ports. *)
Lemma readRule_three_rules (rule : RuleBlock) (n1 n2 n3 : string)
    (p1 p2 p3 : N) (r1 r2 r3 : SecurityGroupRule) (x y : string) (px py : N) :
  Schema.Len (cidr_list rule) = 2%nat →
  Schema.Len (ports rule) = 2%nat →
  Schema.Len (user_security_group_list rule) = 0%nat →
  omap ruleFunc (ids rule) = [r1; r2; r3] →
  tcpBacking n1 p1 r1 → tcpBacking n2 p2 r2 → tcpBacking n3 p3 r3 →
  code x ≠ code y →
  [n1; n2; n3] ∈ [[x; x; y]; [x; y; x]; [y; x; x]] →
  code (fmtD (Z.of_N px)) ≠ code (fmtD (Z.of_N py)) →
  [p1; p2; p3] ∈ [[px; px; py]; [px; py; px]; [py; px; px]] →
  ∃ rule',
    readRule code GetSecurityGroup defaultString ruleFunc rule = OK rule' ∧
    ports rule' = Schema.NewSet.
Proof.
  intros Hc Hp Hu Hrs H1 H2 H3 Hxy Hn Hpxy Hps.
  unfold readRule, Schema.List.
  rewrite readWalk_skip, readWalk_found by apply forallb_filter_id.
  rewrite omap_filter_present, Hrs. cbn [readFoundAll].
  rewrite (readFound_tcp _ _ _ _ H1). cbn [mbind result_bind].
  rewrite (readFound_tcp _ _ _ _ H2). cbn [mbind result_bind].
  rewrite (readFound_tcp _ _ _ _ H3). cbn [mbind result_bind fmap result_fmap].
  eexists. split; [reflexivity|]. cbn [ports].
  match goal with
  | |- (if ?b then _ else _) = _ => assert (b = true) as ->; [|done]
  end.
  apply mustClearPorts_true.
  cbn [l_cidrList l_ports map_ids l_userSecurityGroupList l_actualLen
       readInit].
  rewrite Hc, Hp, Hu.
  split; [exact (Len_Add_three x y [n1; n2; n3] Hxy Hn)|].
  split; [|split; [done|lia]].
  apply (Len_Add_three (fmtD (Z.of_N px)) (fmtD (Z.of_N py))
           [fmtD (Z.of_N p1); fmtD (Z.of_N p2); fmtD (Z.of_N p3)] Hpxy).
  repeat (apply elem_of_cons in Hps as [[= -> -> ->]|Hps]);
    [..|by apply elem_of_nil in Hps];
    apply elem_of_three; auto.
Qed.

(** C1. When the walk over the identifiers of a rule block goes
    through, [readRules] outputs a block; [actualLen] is the number of
    identifiers that the backing rules hold; if the observed CIDR,
    port and group sets each have the declared size and [actualLen]
    differs from [(cidrLen + userSecurityGroupLen) * portsLen], the
    output port set is empty; in every other case it is the observed
    port set, unchanged.  In particular, a block that declares two
    CIDRs A and B and the ports 80 and 443 (each pair filed under two
    codes, as the elements of a set are), and whose identifiers reach
    exactly the rules A:80, A:443 and B:80, in whatever order the set
    lists them, comes out with the empty port set. *)
Theorem readRule_ports_policy :
  (∀ (rule : RuleBlock) (st : readLocals),
     walk (Schema.List (ids rule)) (readInit rule) = OK st →
     ∃ rule',
       readRule code GetSecurityGroup defaultString ruleFunc rule = OK rule' ∧
       l_actualLen st = length (List.filter isPresent (ids rule)) ∧
       (Schema.Len (l_cidrList st) = Schema.Len (cidr_list rule) ∧
        Schema.Len (l_ports st) = Schema.Len (ports rule) ∧
        Schema.Len (l_userSecurityGroupList st)
          = Schema.Len (user_security_group_list rule) ∧
        l_actualLen st ≠
          ((Schema.Len (cidr_list rule)
            + Schema.Len (user_security_group_list rule))
           * Schema.Len (ports rule))%nat →
        ports rule' = Schema.NewSet) ∧
       (¬ (Schema.Len (l_cidrList st) = Schema.Len (cidr_list rule) ∧
           Schema.Len (l_ports st) = Schema.Len (ports rule) ∧
           Schema.Len (l_userSecurityGroupList st)
             = Schema.Len (user_security_group_list rule) ∧
           l_actualLen st ≠
             ((Schema.Len (cidr_list rule)
               + Schema.Len (user_security_group_list rule))
              * Schema.Len (ports rule))%nat) →
        ports rule' = l_ports st)) ∧
  (∀ (rule : RuleBlock) (A B : string) (a b c : SecurityGroupRule),
     Schema.Len (cidr_list rule) = 2%nat →
     Schema.Len (ports rule) = 2%nat →
     Schema.Len (user_security_group_list rule) = 0%nat →
     code A ≠ code B →
     code "80" ≠ code "443" →
     tcpBacking A 80 a → tcpBacking A 443 b → tcpBacking B 80 c →
     omap ruleFunc (Schema.List (ids rule)) ≡ₚ [a; b; c] →
     ∃ rule',
       readRule code GetSecurityGroup defaultString ruleFunc rule = OK rule' ∧
       ports rule' = Schema.NewSet).
Proof.
  split.
  - intros rule st Hw. unfold readRule. rewrite Hw. simpl.
    eexists. split; [reflexivity|]. split.
    + by rewrite (readWalk_actualLen _ _ _ Hw).
    + simpl. split; intros Hc.
      * apply mustClearPorts_true in Hc. by rewrite Hc.
      * destruct (mustClearPorts rule st) eqn:Hm; [|done].
        by apply mustClearPorts_true in Hm.
  - intros rule A B a b c Hc Hp Hu HAB H80 Ha Hb Hc' Hperm.
    symmetry in Hperm.
    apply permutations_Permutation in Hperm. unfold Schema.List in Hperm.
    cbn in Hperm.
    repeat (apply elem_of_cons in Hperm as [Hperm|Hperm]);
      [..|by apply elem_of_nil in Hperm].
    all: eapply (readRule_three_rules rule _ _ _ _ _ _ _ _ _ A B 80 443);
      [exact Hc|exact Hp|exact Hu|exact Hperm|..];
      try eassumption; try done; apply elem_of_three; auto.
Qed.

(** C6. In a pass over a rule block whose set of identifiers is well
    formed, an identifier that the backing rules do not hold is dropped
    from the set and changes nothing else: the pass gives what it gives
    on the block without these identifiers, and the identifiers it
    outputs are those that the backing rules hold.  When the backing
    rules hold none of the identifiers, the pass outputs a block with
    no identifier and empty CIDR, port and group sets. *)
Theorem readRule_absent_ids (rule : RuleBlock) :
  (NoDup (code <$> ids rule) →
   readRule code GetSecurityGroup defaultString ruleFunc rule
     = readRule code GetSecurityGroup defaultString ruleFunc
         (set_ids (List.filter isPresent (ids rule)) rule) ∧
   ∀ rule',
     readRule code GetSecurityGroup defaultString ruleFunc rule = OK rule' →
     ids rule' = List.filter isPresent (ids rule)) ∧
  (forallb (λ id, negb (isPresent id)) (ids rule) = true →
   ∃ rule',
     readRule code GetSecurityGroup defaultString ruleFunc rule = OK rule' ∧
     ids rule' = [] ∧ cidr_list rule' = [] ∧ ports rule' = [] ∧
     user_security_group_list rule' = []).
Proof.
  split.
  - intros Hnd. split.
    + unfold readRule at 1. unfold Schema.List. rewrite readWalk_skip.
      unfold readRule, Schema.List.
      change (ids (set_ids (List.filter isPresent (ids rule)) rule))
        with (List.filter isPresent (ids rule)).
      change (readInit (set_ids (List.filter isPresent (ids rule)) rule))
        with (map_ids (λ _, List.filter isPresent (ids rule))
                      (readInit rule)).
      rewrite readWalk_present_ids by apply forallb_filter_id.
      destruct (walk (List.filter isPresent (ids rule)) (readInit rule))
        as [st| |] eqn:Hw; [|done..].
      simpl. f_equal.
      pose proof (readWalk_present_keeps_ids _ _ _
                    (forallb_filter_id _ _) Hw) as Hids.
      simpl in Hids. rewrite Hids, (dropAbsent_self _ Hnd).
      done.
    + intros rule' (st & Hw & _ & Hids & _ & ->)%readRule_shape.
      simpl. by rewrite Hids, (dropAbsent_self _ Hnd).
  - intros Habs. unfold readRule, Schema.List.
    rewrite readWalk_skip, (filter_none _ Habs). simpl.
    eexists. split; [reflexivity|]. simpl.
    rewrite (dropAbsent_all_absent _ Habs).
    repeat split. by destruct (mustClearPorts _ _).
Qed.

Lemma mustClearPorts_again (rule1 rl : RuleBlock) (st : readLocals) :
  cidr_list rule1 = l_cidrList st →
  user_security_group_list rule1 = l_userSecurityGroupList st →
  mustClearPorts rule1 (with_rule rl st) =
    Nat.eqb (Schema.Len (l_ports st)) (Schema.Len (ports rule1))
    && negb (Nat.eqb ((Schema.Len (cidr_list rule1)
                       + Schema.Len (user_security_group_list rule1))
                      * Schema.Len (ports rule1))
                     (l_actualLen st)).
Proof.
  intros Hc Hu. unfold mustClearPorts. simpl.
  rewrite Hc, Hu, !Nat.eqb_refl. simpl. by rewrite andb_true_r.
Qed.

(** A second pass over the block that a first pass produced, with the
    same backing rules, goes through and
    reproduces the identifiers, the CIDR set, the group set, the
    protocol, the description and the ICMP fields.  The port set is
    reproduced when the first pass output a non-empty port set and the
    number of identifiers is [(cidrLen + userSecurityGroupLen) *
    portsLen] on that output; with another number the second pass
    outputs the empty set; and after a first pass that output the empty
    port set the second pass outputs the ports observed on the backing
    rules. *)
Theorem readRule_second_pass (rule rule1 : RuleBlock) :
  NoDup (code <$> ids rule) →
  readRule code GetSecurityGroup defaultString ruleFunc rule = OK rule1 →
  ∃ rule2,
    readRule code GetSecurityGroup defaultString ruleFunc rule1 = OK rule2 ∧
    ids rule2 = ids rule1 ∧
    cidr_list rule2 = cidr_list rule1 ∧
    user_security_group_list rule2 = user_security_group_list rule1 ∧
    protocol rule2 = protocol rule1 ∧
    description rule2 = description rule1 ∧
    icmp_code rule2 = icmp_code rule1 ∧
    icmp_type rule2 = icmp_type rule1 ∧
    (ports rule1 ≠ [] →
     ports rule2 =
       if Nat.eqb ((Schema.Len (cidr_list rule1)
                    + Schema.Len (user_security_group_list rule1))
                   * Schema.Len (ports rule1))
                  (Schema.Len (ids rule1))
       then ports rule1 else []) ∧
    (ports rule1 = [] →
     ∃ st, walk (Schema.List (ids rule)) (readInit rule) = OK st ∧
           ports rule2 = l_ports st).
Proof.
  intros Hnd (st & Hw & Hwa & Hids & Hact & Hr1)%readRule_shape.
  set (l1 := List.filter isPresent (ids rule)) in *.
  set (D := dropAbsent code ruleFunc (ids rule)) in *.
  assert (Hids1 : ids rule1 = l1).
  { rewrite Hr1. simpl. rewrite Hids. by apply dropAbsent_self. }
  assert (Hc : cidr_list rule1 = l_cidrList st) by by rewrite Hr1.
  assert (Hu : user_security_group_list rule1 = l_userSecurityGroupList st)
    by by rewrite Hr1.
  assert (Hp : ports rule1 = if mustClearPorts rule (map_ids D st)
                             then [] else l_ports st) by by rewrite Hr1.
  assert (Hs : protocol rule1 = protocol (l_rule st) ∧
               description rule1 = description (l_rule st) ∧
               icmp_code rule1 = icmp_code (l_rule st) ∧
               icmp_type rule1 = icmp_type (l_rule st)) by by rewrite Hr1.
  destruct Hs as (Hs1 & Hs2 & Hs3 & Hs4).
  clear Hr1.
  assert (Hrule : l_rule st = fold_left write l1 rule).
  { pose proof (readWalk_with_rule l1 rule (readInit rule)) as H.
    change (with_rule rule (readInit rule)) with (readInit rule) in H.
    rewrite Hw in H. by injection H as ->. }
  assert (Hw2 : walk l1 (readInit rule1)
                = OK (with_rule (fold_left write l1 rule1) st)).
  { change (readInit rule1) with (with_rule rule1 (readInit rule)).
    by rewrite readWalk_with_rule, Hw. }
  pose proof (readWalk_present_keeps_ids _ _ _
                (forallb_filter_id _ _) Hw2) as Hkeep.
  simpl in Hkeep.
  assert (Hfield : ∀ {A} (field : RuleBlock → A),
             (∀ id, settles field (λ rl, write rl id)) →
             field rule1 = field (l_rule st) →
             field (fold_left write l1 rule1) = field rule1).
  { intros A field Hsett Hf. rewrite Hf, Hrule.
    apply settles_again; [by apply settles_fold|].
    by rewrite Hf, Hrule. }
  unfold readRule at 1. unfold Schema.List.
  rewrite Hids1, Hw2. simpl.
  eexists. split; [reflexivity|]. simpl.
  split; [by rewrite Hkeep, Hids1|].
  split; [done|]. split; [done|].
  split; [apply (Hfield _ protocol); [apply write_settles|done]|].
  split; [apply (Hfield _ description); [apply write_settles|done]|].
  split; [apply (Hfield _ icmp_code); [apply write_settles|done]|].
  split; [apply (Hfield _ icmp_type); [apply write_settles|done]|].
  rewrite (mustClearPorts_again _ _ _ Hc Hu).
  change (Schema.Len l1) with (length l1). rewrite <- Hact.
  rewrite Hp. split.
  - destruct (mustClearPorts rule (map_ids D st)); [done|]. intros _.
    rewrite Nat.eqb_refl. simpl. by destruct (Nat.eqb _ _).
  - intros Hnil. exists (map_ids D st). split; [done|]. simpl.
    rewrite Hnil. simpl.
    destruct (l_ports st) as [|x ps]; [|done].
    by destruct (_ && _).
Qed.

End ReconcileFacts.

(** ** Witnesses and counterexamples for reconciliation *)

(** The policy on the sample block: three of its four rules clear the
    ports, all four keep them. *)
Lemma readRule_ports_policy_witness :
  (∃ rule', Sample.read Sample.threeOfFour Sample.blockAB = OK rule' ∧
            ports rule' = []) ∧
  (∃ rule', Sample.read Sample.fourOfFour Sample.blockAB = OK rule' ∧
            ports rule' = ["80"; "443"]).
Proof.
  split.
  - apply (proj2 (readRule_ports_policy Sample.code Sample.noGroup
                    Sample.defaultString (Sample.fetch Sample.threeOfFour))
             Sample.blockAB Sample.netA Sample.netB
             (Sample.tcpRule "r1" Sample.netA 80 80)
             (Sample.tcpRule "r2" Sample.netA 443 443)
             (Sample.tcpRule "r3" Sample.netB 80 80)).
    + reflexivity.
    + reflexivity.
    + reflexivity.
    + vm_compute. discriminate.
    + vm_compute. discriminate.
    + repeat split.
    + repeat split.
    + repeat split.
    + vm_compute. reflexivity.
  - destruct (proj1 (readRule_ports_policy Sample.code Sample.noGroup
                       Sample.defaultString (Sample.fetch Sample.fourOfFour))
                Sample.blockAB _ eq_refl) as (rule' & H & _ & _ & Hkeep).
    exists rule'. split; [exact H|].
    apply Hkeep. vm_compute. intros (_ & _ & _ & Hne). by apply Hne.
Defined.

(** On the block declaring CIDRs {A, B} and ports {80, 443}, backed by
    A:80, A:443 and B:80, the first pass outputs the empty port set and
    the second pass, over that output and the same backing rules,
    outputs the ports 80 and 443. *)
Lemma readRule_not_idempotent :
  ∃ rule1 rule2,
    Sample.read Sample.threeOfFour Sample.blockAB = OK rule1 ∧
    Sample.read Sample.threeOfFour rule1 = OK rule2 ∧
    ports rule1 = [] ∧ ports rule2 = ["80"; "443"].
Proof.
  do 2 eexists.
  split; [vm_compute; reflexivity|].
  split; [vm_compute; reflexivity|].
  split; reflexivity.
Qed.

(** A second pass over a fully backed block. *)
Lemma readRule_second_pass_witness :
  Sample.read Sample.fourOfFour Sample.blockAB = OK Sample.blockAB ∧
  ∃ rule2, Sample.read Sample.fourOfFour Sample.blockAB = OK rule2 ∧
           ids rule2 = ids Sample.blockAB ∧
           cidr_list rule2 = cidr_list Sample.blockAB ∧
           ports rule2 = ports Sample.blockAB.
Proof.
  assert (H1 : Sample.read Sample.fourOfFour Sample.blockAB
               = OK Sample.blockAB) by (vm_compute; reflexivity).
  split; [exact H1|].
  destruct (readRule_second_pass Sample.code Sample.noGroup
              Sample.defaultString (Sample.fetch Sample.fourOfFour)
              Sample.blockAB Sample.blockAB)
    as (rule2 & H2 & Hids & Hcidr & _ & _ & _ & _ & _ & Hports & _).
  - apply (bool_decide_unpack _). vm_compute. exact I.
  - exact H1.
  - exists rule2. split; [exact H2|]. split; [exact Hids|].
    split; [exact Hcidr|]. apply Hports. discriminate.
Defined.

(** A pass without any backing rule, and a pass that misses one. *)
Lemma readRule_absent_ids_witness :
  (∃ rule', Sample.read [] Sample.blockAB = OK rule' ∧
            ids rule' = [] ∧ cidr_list rule' = [] ∧ ports rule' = [] ∧
            user_security_group_list rule' = []) ∧
  (∀ rule', Sample.read Sample.threeOfFour Sample.blockAB = OK rule' →
            ids rule' = [ "r1_tcp_10.0.0.0/8_80-80";
                          "r2_tcp_10.0.0.0/8_443-443";
                          "r3_tcp_192.168.0.0/16_80-80" ]).
Proof.
  split.
  - apply (readRule_absent_ids Sample.code Sample.noGroup
             Sample.defaultString (Sample.fetch []) Sample.blockAB).
    reflexivity.
  - intros rule' H.
    apply (proj1 (readRule_absent_ids Sample.code Sample.noGroup
                    Sample.defaultString (Sample.fetch Sample.threeOfFour)
                    Sample.blockAB)) in H; [exact H|].
    apply (bool_decide_unpack _). vm_compute. exact I.
Defined.

(** ** The create and update loops *)

(** C5, what the code does. When [ruleToID] fails on a rule that was just
    created, the loop of the create pass goes on with the remaining rules
    and records the empty identifier; the same loop of the update pass
    returns the error. *)
Theorem createLoop_drops_ruleToID_error (code : string → N)
    (GetSecurityGroup : string → result string)
    (nonEmptyStringPtr : string → option string)
    (CreateSecurityGroupRule : SecurityGroupRule → result SecurityGroupRule)
    (flowDirection : string) (ruleToAdd securityGroupRule : SecurityGroupRule)
    (rest : list SecurityGroupRule) (ids : schemaSet) (e : string) :
  CreateSecurityGroupRule
    (with_FlowDirection (nonEmptyStringPtr flowDirection) ruleToAdd)
    = OK securityGroupRule →
  ruleToID GetSecurityGroup securityGroupRule = Err e →
  createLoop code GetSecurityGroup nonEmptyStringPtr CreateSecurityGroupRule
    flowDirection (ruleToAdd :: rest) ids
    = createLoop code GetSecurityGroup nonEmptyStringPtr
        CreateSecurityGroupRule flowDirection rest (Schema.Add code "" ids) ∧
  updateAddLoop code GetSecurityGroup nonEmptyStringPtr
    CreateSecurityGroupRule flowDirection (ruleToAdd :: rest) ids = Err e.
Proof.
  intros Hcreate Hid. simpl. rewrite Hcreate. simpl. by rewrite Hid.
Qed.

(** The create and update passes on a block whose peer group cannot be
    resolved once its rule is created. *)
Lemma createLoop_drops_ruleToID_error_witness :
  createRule Sample.code Sample.noGroup Sample.FindSecurityGroup
    Sample.ParseCIDR Sample.nonEmptyStringPtr Sample.CreateSecurityGroupRule
    "ingress" Sample.groupBlock
    = OK (set_ids [""] Sample.groupBlock) ∧
  updateAddRule Sample.code Sample.noGroup Sample.FindSecurityGroup
    Sample.ParseCIDR Sample.nonEmptyStringPtr Sample.CreateSecurityGroupRule
    "ingress" Sample.groupBlock
    = Err "unable to retrieve Security Group: resource not found".
Proof.
  destruct (createLoop_drops_ruleToID_error Sample.code Sample.noGroup
              Sample.nonEmptyStringPtr Sample.CreateSecurityGroupRule
              "ingress" Sample.groupRule
              (with_ID "r9" (with_FlowDirection (Some "ingress")
                                                Sample.groupRule))
              [] [] "unable to retrieve Security Group: resource not found"
              eq_refl eq_refl) as [Hc Hu].
  split.
  - transitivity
      (ids ← createLoop Sample.code Sample.noGroup Sample.nonEmptyStringPtr
               Sample.CreateSecurityGroupRule "ingress" [Sample.groupRule] [];
       OK (set_ids ids Sample.groupBlock)); [reflexivity|].
    rewrite Hc. reflexivity.
  - transitivity
      (ids ← updateAddLoop Sample.code Sample.noGroup
               Sample.nonEmptyStringPtr Sample.CreateSecurityGroupRule
               "ingress" [Sample.groupRule] [];
       OK (set_ids ids Sample.groupBlock)); [reflexivity|].
    rewrite Hu. reflexivity.
Defined.

(** ** Keys within one expansion *)

Lemma lowerChar_idem (c : ascii) :
  GoStrings.lowerChar (GoStrings.lowerChar c) = GoStrings.lowerChar c.
Proof. destruct c as [[] [] [] [] [] [] [] []]; reflexivity. Qed.

Lemma ToLower_idem (s : string) :
  GoStrings.ToLower (GoStrings.ToLower s) = GoStrings.ToLower s.
Proof.
  unfold GoStrings.ToLower. induction s as [|c s IH]; [done|].
  cbn [GoStrings.mapChars]. by rewrite lowerChar_idem, IH.
Qed.

(** Every key starts with the backing ID and an underscore. *)
Lemma ruleToID_prefix (G : string → result string) (r : SecurityGroupRule)
    (k : string) :
  ruleToID G r = OK k →
  ∃ id rest, ID r = Some id ∧ k = id +:+ String underscore rest.
Proof.
  unfold ruleToID. destruct (Protocol r) as [p|]; simpl; [|done].
  destruct (GoStrings.HasPrefix _ _).
  - destruct (ID r) as [id|]; simpl; [|done].
    destruct (ICMPType r), (ICMPCode r); simpl; try done.
    intros [= <-]. by do 2 eexists.
  - destruct (peerName G r); simpl; try done.
    destruct (_ || _).
    + destruct (ID r) as [id|]; simpl; [|done].
      destruct (StartPort r), (EndPort r); simpl; try done.
      intros [= <-]. by do 2 eexists.
    + destruct (ID r) as [id|]; simpl; [|done].
      intros [= <-]. by do 2 eexists.
Qed.

Lemma ruleToID_backing_id (G : string → result string)
    (r : SecurityGroupRule) (k id : string) :
  ruleToID G r = OK k → ID r = Some id →
  containsByte underscore id = false →
  substringBefore underscore k = id.
Proof.
  intros (id' & rest & Hid' & ->)%ruleToID_prefix Hid Hfree.
  assert (id' = id) as -> by congruence.
  by apply substringBefore_app.
Qed.

Lemma mapM_elem_of {A B} (f : A → result B) (l : list A) (bs : list B)
    (b : B) :
  mapM f l = OK bs → b ∈ bs → ∃ a, a ∈ l ∧ f a = OK b.
Proof.
  intros H%mapM_Forall2 Hb.
  induction H as [|a b' l bs Hab _ IH].
  - by apply elem_of_nil in Hb.
  - apply elem_of_cons in Hb as [->|Hb].
    + exists a. split; [apply elem_of_cons; by left|done].
    + destruct (IH Hb) as (a' & Ha' & Hfa'). exists a'.
      split; [apply elem_of_cons; by right|done].
Qed.

(** Rules under distinct backing IDs without underscore get distinct
    keys. *)
Lemma keys_NoDup (G : string → result string) (rules : list SecurityGroupRule)
    (backingIDs keys : list string) :
  ID <$> rules = Some <$> backingIDs →
  NoDup backingIDs →
  Forall (λ id, containsByte underscore id = false) backingIDs →
  mapM (ruleToID G) rules = OK keys →
  NoDup keys.
Proof.
  revert backingIDs keys.
  induction rules as [|r rules IH]; intros backingIDs keys HIDs Hnd Hfree H.
  - injection H as <-. constructor.
  - destruct backingIDs as [|id backingIDs]; [done|].
    assert (Hid : ID r = Some id) by (by injection HIDs).
    assert (HIDs' : ID <$> rules = Some <$> backingIDs)
      by (by injection HIDs).
    clear HIDs. rename HIDs' into HIDs.
    apply NoDup_cons in Hnd as [Hnotin Hnd].
    apply Forall_cons in Hfree as [Hfree1 Hfree].
    simpl in H. destruct (ruleToID G r) as [k| |] eqn:Hk; [|done..].
    simpl in H. destruct (mapM (ruleToID G) rules) as [ks| |] eqn:Hks;
      [|done..].
    injection H as <-. apply NoDup_cons. split; [|by eapply IH].
    intros (r' & Hr' & Hk')%(mapM_elem_of _ _ _ _ Hks).
    apply Hnotin.
    assert (HID' : ID r' ∈ Some <$> backingIDs).
    { rewrite <- HIDs. by apply list_elem_of_fmap_2. }
    apply list_elem_of_fmap in HID' as (id' & HID' & Hin').
    rewrite Forall_forall in Hfree.
    rewrite <- (ruleToID_backing_id G r k id Hk Hid Hfree1).
    by rewrite (ruleToID_backing_id G r' k id' Hk' HID' (Hfree _ Hin')).
Qed.

Lemma created_IDs (backingIDs : list string) (rules : list SecurityGroupRule) :
  length backingIDs = length rules →
  ID <$> created backingIDs rules = Some <$> backingIDs.
Proof.
  revert rules. induction backingIDs as [|id backingIDs IH];
    intros [|r rules]; simpl; try done.
  intros [= Hlen]. f_equal. by apply IH.
Qed.

Lemma created_Forall (Q : SecurityGroupRule → Prop)
    (backingIDs : list string) (rules : list SecurityGroupRule) :
  Forall (λ r, ∀ id, Q (with_ID id r)) rules →
  Forall Q (created backingIDs rules).
Proof.
  intros H. revert backingIDs.
  induction H as [|r rules Hr _ IH]; intros [|id backingIDs]; simpl;
    try constructor; auto.
Qed.

Lemma Forall2_Forall_right {A B} (P : A → B → Prop) (Q : B → Prop)
    (l : list A) (k : list B) :
  Forall2 P l k → (∀ a b, a ∈ l → P a b → Q b) → Forall Q k.
Proof.
  induction 1 as [|a b l k Hab _ IH]; intros HQ; constructor.
  - apply (HQ a); [apply elem_of_cons; by left|done].
  - apply IH. intros a' b' Ha'. apply HQ. apply elem_of_cons. by right.
Qed.

Lemma Forall_concat_all {A} (Q : A → Prop) (ls : list (list A)) :
  Forall (Forall Q) ls → Forall Q (concat ls).
Proof.
  induction 1 as [|l ls Hl _ IH]; simpl; [constructor|].
  apply Forall_app. by split.
Qed.

(** Where the rules of an expansion come from: a base rule with a parsed
    network, or a base rule with the ID of a declared group. *)
Lemma securityGroupRulesToAdd_shape
    (FindSecurityGroup : string → result string)
    (ParseCIDR : string → result IPNet)
    (nonEmptyStringPtr : string → option string)
    (rule : RuleBlock) (rules : list SecurityGroupRule) :
  securityGroupRulesToAdd FindSecurityGroup ParseCIDR nonEmptyStringPtr rule
    = OK rules →
  Forall (λ r, ∃ b, b ∈ baseRules nonEmptyStringPtr rule ∧
                    ((∃ n, r = with_Network n b) ∨
                     (∃ x gid, x ∈ user_security_group_list rule ∧
                               FindSecurityGroup x = OK gid ∧
                               r = with_SecurityGroupID gid b)))
         rules.
Proof.
  unfold securityGroupRulesToAdd.
  destruct (mapM (expandCIDRs _ _) _) as [byC| |] eqn:HC; [|done..].
  simpl.
  destruct (mapM (expandGroups _ _) _) as [byG| |] eqn:HG; [|done..].
  simpl. intros [= <-]. apply Forall_app. split; apply Forall_concat_all.
  - apply mapM_Forall2 in HC.
    eapply Forall2_Forall_right; [exact HC|]. intros b rs Hb Hrs. simpl in Hrs.
    apply mapM_Forall2 in Hrs.
    eapply Forall2_Forall_right; [exact Hrs|]. intros c r _ Hr. simpl in Hr.
    destruct (ParseCIDR c) as [n| |]; [|done..].
    injection Hr as <-. exists b. split; [done|]. left. by exists n.
  - apply mapM_Forall2 in HG.
    eapply Forall2_Forall_right; [exact HG|]. intros b rs Hb Hrs. simpl in Hrs.
    apply mapM_Forall2 in Hrs.
    eapply Forall2_Forall_right; [exact Hrs|]. intros x r Hx Hr. simpl in Hr.
    destruct (FindSecurityGroup x) as [gid| |] eqn:Hfind; [|done..].
    injection Hr as <-. exists b. split; [done|]. right. by exists x, gid.
Qed.

(** A base rule with a network, once under a backing ID, has a key. *)
Lemma base_network_key (G : string → result string)
    (nonEmptyStringPtr : string → option string) (rule : RuleBlock)
    (b : SecurityGroupRule) (n : IPNet) (id : string) :
  b ∈ baseRules nonEmptyStringPtr rule →
  ∃ k, ruleToID G (with_ID id (with_Network n b)) = OK k.
Proof.
  unfold baseRules.
  destruct (GoStrings.HasPrefix _ _) eqn:Hicmp.
  - intros ->%list_elem_of_singleton. unfold ruleToID. simpl.
    rewrite ToLower_idem, Hicmp. by eexists.
  - destruct (_ || _) eqn:Htcp.
    + intros (pr & <- & _)%list_elem_of_In%in_map_iff.
      unfold ruleToID, peerName. simpl. rewrite ToLower_idem, Hicmp, Htcp.
      by eexists.
    + intros ->%list_elem_of_singleton. unfold ruleToID, peerName. simpl.
      rewrite ToLower_idem, Hicmp, Htcp. by eexists.
Qed.

(** A base rule with a peer group that the registry resolves, once under
    a backing ID, has a key. *)
Lemma base_group_key (G : string → result string)
    (nonEmptyStringPtr : string → option string) (rule : RuleBlock)
    (b : SecurityGroupRule) (gid name id : string) :
  b ∈ baseRules nonEmptyStringPtr rule →
  G gid = OK name →
  ∃ k, ruleToID G (with_ID id (with_SecurityGroupID gid b)) = OK k.
Proof.
  unfold baseRules. intros Hb HG.
  destruct (GoStrings.HasPrefix _ _) eqn:Hicmp.
  - apply list_elem_of_singleton in Hb as ->. unfold ruleToID. simpl.
    rewrite ToLower_idem, Hicmp. by eexists.
  - destruct (_ || _) eqn:Htcp.
    + apply list_elem_of_In, in_map_iff in Hb as (pr & <- & _).
      unfold ruleToID, peerName. simpl. rewrite ToLower_idem, Hicmp, HG.
      simpl. rewrite Htcp. by eexists.
    + apply list_elem_of_singleton in Hb as ->.
      unfold ruleToID, peerName. simpl. rewrite ToLower_idem, Hicmp, HG.
      simpl. rewrite Htcp. by eexists.
Qed.

(** C9, as the code has it. For a rule block whose lookups succeed, once
    each rule that [securityGroupRulesToAdd] produced carries the backing
    ID that its creation gave it, and these backing IDs are pairwise
    distinct and free of underscores, [ruleToID] gives every rule a key
    and the keys are pairwise distinct. *)
Theorem expansion_keys_distinct
    (GetSecurityGroup FindSecurityGroup : string → result string)
    (ParseCIDR : string → result IPNet)
    (nonEmptyStringPtr : string → option string)
    (rule : RuleBlock) (rules : list SecurityGroupRule)
    (backingIDs : list string) :
  securityGroupRulesToAdd FindSecurityGroup ParseCIDR nonEmptyStringPtr rule
    = OK rules →
  (∀ x gid, x ∈ user_security_group_list rule →
            FindSecurityGroup x = OK gid →
            ∃ name, GetSecurityGroup gid = OK name) →
  length backingIDs = length rules →
  NoDup backingIDs →
  Forall (λ id, containsByte underscore id = false) backingIDs →
  ∃ keys,
    mapM (ruleToID GetSecurityGroup) (created backingIDs rules) = OK keys ∧
    length keys = length rules ∧
    NoDup keys.
Proof.
  intros Hexp Hreg Hlen Hnd Hfree.
  destruct (mapM_total (ruleToID GetSecurityGroup) (created backingIDs rules))
    as (keys & Hkeys & Hklen).
  { apply created_Forall.
    eapply Forall_impl; [exact (securityGroupRulesToAdd_shape _ _ _ _ _ Hexp)|].
    intros r (b & Hb & [[n ->]|(x & gid & Hx & Hfind & ->)]) id.
    - by eapply base_network_key.
    - destruct (Hreg x gid Hx Hfind) as [name Hname].
      by eapply base_group_key. }
  exists keys. split; [done|]. split.
  - rewrite Hklen. unfold created. rewrite length_zip_with, Hlen.
    apply Nat.min_id.
  - apply (keys_NoDup GetSecurityGroup (created backingIDs rules)
             backingIDs keys); [by apply created_IDs|done..].
Qed.

(** C9, as stated, fails: the rules that an ICMP block with two CIDRs
    expands to carry no backing ID, so [ruleToID] panics on them; and
    under one and the same backing ID their keys are equal, the ICMP key
    leaving the peer out. *)
Lemma expansion_keys_collide :
  ∃ r1 r2,
    Sample.expand Sample.icmpBlock = OK [r1; r2] ∧
    r1 ≠ r2 ∧
    mapM (ruleToID Sample.GetSecurityGroup) [r1; r2] = Panic ∧
    mapM (ruleToID Sample.GetSecurityGroup) (with_ID "abc" <$> [r1; r2])
      = OK ["abc_icmp_8:0"; "abc_icmp_8:0"].
Proof.
  do 2 eexists. split; [vm_compute; reflexivity|].
  split; [discriminate|]. split; reflexivity.
Qed.

(** The keys of the ICMP block once its two rules are filed under the
    IDs [r1] and [r2]. *)
Lemma expansion_keys_distinct_witness :
  ∃ rules keys,
    Sample.expand Sample.icmpBlock = OK rules ∧
    mapM (ruleToID Sample.GetSecurityGroup) (created ["r1"; "r2"] rules)
      = OK keys ∧
    length keys = length rules ∧ NoDup keys.
Proof.
  assert (H : ∃ rules, Sample.expand Sample.icmpBlock = OK rules)
    by (vm_compute; eauto).
  destruct H as [rules H]. exists rules.
  destruct (expansion_keys_distinct Sample.GetSecurityGroup
              Sample.FindSecurityGroup Sample.ParseCIDR
              Sample.nonEmptyStringPtr Sample.icmpBlock rules ["r1"; "r2"] H)
    as (keys & Hkeys & Hlen & Hnd).
  - intros x gid Hx. by apply elem_of_nil in Hx.
  - revert H. vm_compute. by intros [= <-].
  - apply (bool_decide_unpack _). vm_compute. exact I.
  - repeat constructor.
  - exists keys. split; [exact H|]. split; [exact Hkeys|]. split; assumption.
Defined.

(** ** Witnesses for identification and removal *)

(** The ICMP key example, the key of a TCP rule with a network and the
    key of a TCP rule with a peer group. *)
Lemma ruleToID_format_witness :
  ruleToID Sample.GetSecurityGroup Sample.icmpv6Rule = OK "abc_icmpv6_3:0" ∧
  ruleToID Sample.GetSecurityGroup (Sample.tcpRule "r1" Sample.netA 80 80)
    = OK "r1_tcp_10.0.0.0/8_80-80" ∧
  ruleToID Sample.GetSecurityGroup (with_ID "r9" Sample.groupRule)
    = OK "r9_tcp_web_22-22".
Proof.
  split; [|split].
  - apply (proj1 (ruleToID_format Sample.GetSecurityGroup Sample.icmpv6Rule
                    "abc" "ICMPv6" eq_refl eq_refl)
             eq_refl 3 0 eq_refl eq_refl).
  - apply (proj1 (proj2 (ruleToID_format Sample.GetSecurityGroup
                           (Sample.tcpRule "r1" Sample.netA 80 80)
                           "r1" "tcp" eq_refl eq_refl)
                    eq_refl Sample.netA
                    (or_introl (ex_intro _ {| IPNet_String := Sample.netA |}
                                  (conj eq_refl eq_refl))))
             (or_introl eq_refl) 80%N 80%N eq_refl eq_refl).
  - apply (proj1 (proj2 (ruleToID_format Sample.GetSecurityGroup
                           (with_ID "r9" Sample.groupRule)
                           "r9" "tcp" eq_refl eq_refl)
                    eq_refl "web"
                    (or_intror (conj eq_refl
                                  (ex_intro _ "g-1" (conj eq_refl eq_refl)))))
             (or_introl eq_refl) 22%N 22%N eq_refl eq_refl).
Defined.

(** C2, as stated, fails: the claim has the peer group under its
    lower-cased name, and the code has it under the name that the
    registry returns.  On a registry that returns [Web] for the peer
    group of a TCP rule, the claim's peer name is [web] and its key
    [r9_tcp_web_22-22]; [ruleToID] returns [r9_tcp_Web_22-22]. *)
Lemma ruleToID_name_not_lowered :
  specPeerName (λ _, OK "Web") (with_ID "r9" Sample.groupRule) = OK "web" ∧
  ruleToID (λ _, OK "Web") (with_ID "r9" Sample.groupRule)
    = OK "r9_tcp_Web_22-22" ∧
  ruleToID (λ _, OK "Web") (with_ID "r9" Sample.groupRule)
    ≠ OK "r9_tcp_web_22-22".
Proof. split; [reflexivity|]. split; [reflexivity|discriminate]. Qed.

(** Two registries that agree on the group of the rule. *)
Lemma ruleToID_deterministic_witness :
  ruleToID Sample.GetSecurityGroup (with_ID "r9" Sample.groupRule)
  = ruleToID Sample.GetSecurityGroup' (with_ID "r9" Sample.groupRule).
Proof.
  apply ruleToID_deterministic. intros gid [= <-]. reflexivity.
Defined.

(** The removal example. *)
Lemma securityGroupRulesToRemove_entries_witness :
  ∃ m e, securityGroupRulesToRemove Sample.blockToRemove = OK m ∧
         (m !! "abc_tcp_10.0.0.0/8_80-80" = Some e ∧
          ID e = Some "abc" ∧ Protocol e = None ∧ Network e = None ∧
          StartPort e = None) ∧
         m !! "abc" = None.
Proof.
  destruct (securityGroupRulesToRemove_entries Sample.blockToRemove)
    as (m & Hm & Hin & Hout).
  exists m. eexists. split; [exact Hm|]. split.
  - split;
      [apply (Hin "abc_tcp_10.0.0.0/8_80-80"); apply elem_of_cons; by left|].
    by repeat split.
  - apply Hout. intros [H|H]%elem_of_cons; [discriminate|].
    by apply elem_of_nil in H.
Defined.

(** An identifier without separator. *)
Lemma securityGroupRulesToRemove_total_witness :
  ∃ m, securityGroupRulesToRemove Sample.blockMalformed = OK m ∧
       size m = 1%nat ∧ ∃ e, m !! "abc" = Some e ∧ ID e = Some "abc".
Proof.
  destruct (securityGroupRulesToRemove_total Sample.blockMalformed)
    as (m & Hm & _ & Hsize & Hwhole).
  exists m. split; [exact Hm|]. split.
  - apply Hsize. apply NoDup_singleton.
  - apply Hwhole; [apply elem_of_cons; by left|reflexivity].
Defined.

(** * Further properties *)

(** ** Port ranges: [preparePorts] *)

Lemma allBelow_spec (check : N → bool) (k : nat) (prefix n : N) :
  allBelow check k prefix = true →
  (prefix * 2 ^ N.of_nat k <= n < (prefix + 1) * 2 ^ N.of_nat k)%N →
  check n = true.
Proof.
  revert prefix. induction k as [|k IH]; intros prefix; simpl allBelow.
  - change (2 ^ N.of_nat 0)%N with 1%N. intros H Hn.
    assert (n = prefix) as -> by lia. exact H.
  - intros [H0 H1]%andb_prop Hn.
    rewrite Nat2N.inj_succ, N.pow_succ_r' in Hn.
    destruct (N.lt_ge_cases n ((2 * prefix + 1) * 2 ^ N.of_nat k)).
    + apply (IH (2 * prefix)%N H0). nia.
    + apply (IH (2 * prefix + 1)%N H1). nia.
Qed.

Lemma uint16s_all : allBelow portPrintsAndParses 16 0 = true.
Proof. vm_compute. reflexivity. Qed.

Lemma uint16_prints_and_parses (n : N) :
  (n <= 65535)%N →
  GoStrconv.ParseUint (fmtD (Z.of_N n)) 16 = (n, true) ∧
  containsByte hyphen (fmtD (Z.of_N n)) = false.
Proof.
  intros Hn.
  assert (H : portPrintsAndParses n = true).
  { apply (allBelow_spec _ 16 0 n uint16s_all).
    change (2 ^ N.of_nat 16)%N with 65536%N. lia. }
  unfold portPrintsAndParses in H.
  destruct (GoStrconv.ParseUint _ _) as [v ok].
  apply andb_prop in H as [[Hv%N.eqb_eq Hok]%andb_prop Hh%negb_true_iff].
  by subst.
Qed.

Lemma Split_whole (s : string) (sep : ascii) :
  containsByte sep s = false → GoStrings.Split s sep = [s].
Proof.
  induction s as [|c s IH]; simpl; [done|].
  destruct (Ascii.eqb c sep); simpl; [done|].
  intros H. by rewrite IH.
Qed.

Lemma Split_pair (a b : string) (sep : ascii) :
  containsByte sep a = false → containsByte sep b = false →
  GoStrings.Split (a +:+ String sep b) sep = [a; b].
Proof.
  intros Ha Hb. induction a as [|c a IH]; simpl in *.
  - by rewrite Ascii.eqb_refl, Split_whole.
  - destruct (Ascii.eqb c sep); simpl in *; [done|]. by rewrite IH.
Qed.




Lemma preparePorts_single (s : N) :
  (s <= 65535)%N → preparePorts [fmtD (Z.of_N s)] = [(s, s)].
Proof.
  intros Hs. destruct (uint16_prints_and_parses s Hs) as [Hps Hhs].
  unfold preparePorts, Schema.List. simpl map.
  rewrite (Split_whole _ _ Hhs). simpl. by rewrite Hps.
Qed.

Lemma preparePorts_range (s e : N) :
  (s <= 65535)%N → (e <= 65535)%N →
  preparePorts [fmtD (Z.of_N s) +:+ "-" +:+ fmtD (Z.of_N e)] = [(s, e)].
Proof.
  intros Hs He.
  destruct (uint16_prints_and_parses s Hs) as [Hps Hhs].
  destruct (uint16_prints_and_parses e He) as [Hpe Hhe].
  unfold preparePorts, Schema.List. simpl map.
  change (fmtD (Z.of_N s) +:+ "-" +:+ fmtD (Z.of_N e))
    with (fmtD (Z.of_N s) +:+ String hyphen (fmtD (Z.of_N e))).
  rewrite (Split_pair _ _ _ Hhs Hhe). simpl. by rewrite Hps, Hpe.
Qed.

(** X2. The two forms of a port specification: the decimal form of a
    port [s] gives the couple [(s, s)], and the decimal forms of two
    ports [s] and [e] joined by a hyphen give the couple [(s, e)]. *)
Theorem preparePorts_decimal_forms (s e : N) :
  (s <= 65535)%N → (e <= 65535)%N →
  preparePorts [fmtD (Z.of_N s)] = [(s, s)] ∧
  preparePorts [fmtD (Z.of_N s) +:+ "-" +:+ fmtD (Z.of_N e)] = [(s, e)].
Proof.
  intros Hs He. split.
  - by apply preparePorts_single.
  - by apply preparePorts_range.
Qed.

(** The forms on the ports 443 and 8000-8080. *)
Lemma preparePorts_decimal_forms_witness :
  preparePorts ["443"] = [(443, 443)]%N ∧
  preparePorts ["8000-8080"] = [(8000, 8080)]%N.
Proof.
  split.
  - apply (proj1 (preparePorts_decimal_forms 443 443 ltac:(lia) ltac:(lia))).
  - apply (proj2 (preparePorts_decimal_forms 8000 8080 ltac:(lia) ltac:(lia))).
Defined.

(** X3. What [readRules] writes, [preparePorts] reads back: the port
    entry that the walk adds to an empty port set for a TCP or UDP
    backing rule parses to the port range of that rule. *)
Theorem readFound_ports_round_trip (code : string → N)
    (GetSecurityGroup : string → result string)
    (defaultString : option string → string → string)
    (st st' : readLocals) (r : SecurityGroupRule) (p : string) (s e : N) :
  Protocol r = Some p →
  GoStrings.ToUpper p = "TCP" ∨ GoStrings.ToUpper p = "UDP" →
  StartPort r = Some s → EndPort r = Some e →
  (s <= 65535)%N → (e <= 65535)%N →
  l_ports st = Schema.NewSet →
  readFound code GetSecurityGroup defaultString st r = OK st' →
  preparePorts (l_ports st') = [(s, e)].
Proof.
  intros Hp Hproto Hs He Hsb Heb Hempty. unfold readFound.
  rewrite Hp, Hs, He, Hempty. simpl.
  destruct (match SecurityGroupID r with Some _ => _ | None => _ end);
    simpl; try done.
  assert (GoStrings.HasPrefix (GoStrings.ToUpper p) "ICMP" = false) as ->
    by (destruct Hproto as [-> | ->]; done).
  assert (String.eqb (GoStrings.ToUpper p) "TCP"
          || String.eqb (GoStrings.ToUpper p) "UDP" = true) as ->
    by (destruct Hproto as [-> | ->]; done).
  intros [= <-]. simpl.
  destruct (N.eqb_spec s e) as [->|Hne].
  - by apply preparePorts_single.
  - by apply preparePorts_range.
Qed.

(** The port range 8000-8080 of a UDP rule, written and read back. *)
Lemma readFound_ports_round_trip_witness :
  ∃ st', readFound Sample.code Sample.noGroup Sample.defaultString
           (readInit Sample.tcpBlock) Sample.udpRange = OK st' ∧
         preparePorts (l_ports st') = [(8000, 8080)]%N.
Proof.
  eexists. split; [reflexivity|].
  apply (readFound_ports_round_trip Sample.code Sample.noGroup
           Sample.defaultString (readInit Sample.tcpBlock) _
           Sample.udpRange "udp" 8000 8080 eq_refl (or_intror eq_refl)
           eq_refl eq_refl ltac:(lia) ltac:(lia) eq_refl eq_refl).
Defined.

(** ** Identifiers and removal *)

Lemma substringBefore_app_inside (sep : ascii) (a b : string) :
  containsByte sep a = true →
  substringBefore sep (a +:+ b) = substringBefore sep a.
Proof.
  induction a as [|c a IH]; simpl; [done|].
  destruct (Ascii.eqb c sep); simpl; [done|].
  intros H. by rewrite IH.
Qed.

(** X4. The removal entry that [securityGroupRulesToRemove] builds from
    the identifier of a rule carries the backing ID of that rule, if the
    backing ID has no underscore; if it has one, the entry carries only
    the part of the backing ID before its first underscore. *)
Theorem removal_entry_of_rule (GetSecurityGroup : string → result string)
    (r : SecurityGroupRule) (k id : string) (rule : RuleBlock) :
  ruleToID GetSecurityGroup r = OK k →
  ID r = Some id →
  k ∈ ids rule →
  ∃ m e, securityGroupRulesToRemove rule = OK m ∧
         m !! k = Some e ∧
         (Description e = None ∧ EndPort e = None ∧ FlowDirection e = None ∧
          ICMPCode e = None ∧ ICMPType e = None ∧ Network e = None ∧
          Protocol e = None ∧ SecurityGroupID e = None ∧
          StartPort e = None) ∧
         (containsByte underscore id = false → ID e = Some id) ∧
         (containsByte underscore id = true →
          ID e = Some (substringBefore underscore id)).
Proof.
  intros Hk Hid Hin. unfold securityGroupRulesToRemove, Schema.List.
  destruct (removeLoop_spec (ids rule) ∅) as (m & Hm & Hl).
  exists m. eexists. split; [done|].
  split; [by rewrite Hl, decide_True|].
  split; [by repeat split|]. simpl.
  split; intros Hu.
  - by rewrite (ruleToID_backing_id _ _ _ _ Hk Hid Hu).
  - apply ruleToID_prefix in Hk as (id' & rest & Hid' & ->).
    assert (id' = id) as -> by congruence.
    by rewrite substringBefore_app_inside.
Qed.

(** The identifier of the rule [r1] of the sample, and its removal. *)
Lemma removal_entry_of_rule_witness :
  ∃ m e, securityGroupRulesToRemove Sample.blockAB = OK m ∧
         m !! "r1_tcp_10.0.0.0/8_80-80" = Some e ∧
         ID e = Some "r1" ∧ Protocol e = None ∧ Network e = None.
Proof.
  destruct (removal_entry_of_rule Sample.noGroup
              (Sample.tcpRule "r1" Sample.netA 80 80)
              "r1_tcp_10.0.0.0/8_80-80" "r1" Sample.blockAB
              eq_refl eq_refl) as (m & e & Hm & He & Hnone & Hfree & _).
  - apply (bool_decide_unpack _). vm_compute. exact I.
  - exists m, e. split; [exact Hm|]. split; [exact He|].
    split; [apply Hfree; reflexivity|].
    destruct Hnone as (_ & _ & _ & _ & _ & Hn & Hp & _). by split.
Defined.

(** ** The index of the read pass *)

Lemma ruleIDsLoop_facts (G : string → result string)
    (rules : list SecurityGroupRule) (i : nat) (m0 m : gmap string nat) :
  ruleIDsLoop G rules i m0 = OK m →
  (∀ (id : string) (k : nat), m !! id = Some k →
     m0 !! id = Some k ∨
     ((i ≤ k)%nat ∧
      ∃ r, rules !! (k - i)%nat = Some r ∧ ruleToID G r = OK id))
  ∧ (∀ (id : string) (k0 : nat), m0 !! id = Some k0 →
       ∃ k : nat, m !! id = Some k ∧ (k = k0 ∨ (i ≤ k)%nat))
  ∧ (∀ (j : nat) r (id : string), rules !! j = Some r →
       ruleToID G r = OK id →
       ∃ k : nat, m !! id = Some k ∧ (i ≤ k)%nat).
Proof.
  revert i m0. induction rules as [|rule rest IH]; intros i m0; simpl.
  - intros [= <-]. split; [by left|]. split; [by eauto|].
    intros j r id Hj. by rewrite lookup_nil in Hj.
  - destruct (ruleToID G rule) as [id0| |] eqn:Hid0; [|done..]. simpl.
    intros (H1 & H2 & H3)%IH. split; [|split].
    + intros id k [Hk|(Hle & r & Hr & Hid)]%H1.
      * destruct (decide (id0 = id)) as [->|Hne].
        -- rewrite lookup_insert_eq in Hk. injection Hk as <-.
           right. split; [lia|]. exists rule.
           by rewrite Nat.sub_diag.
        -- rewrite lookup_insert_ne in Hk by done. by left.
      * right. split; [lia|]. exists r. split; [|done].
        replace (k - i)%nat with (S (k - S i)) by lia. done.
    + intros id k0 Hk0.
      destruct (decide (id0 = id)) as [->|Hne].
      * destruct (H2 id i) as (k & Hk & Hor); [by rewrite lookup_insert_eq|].
        exists k. split; [done|]. right. lia.
      * destruct (H2 id k0) as (k & Hk & Hor);
          [by rewrite lookup_insert_ne|].
        exists k. split; [done|]. destruct Hor; [by left|right; lia].
    + intros [|j] r id Hr Hid; simpl in Hr.
      * injection Hr as <-. assert (id0 = id) as -> by congruence.
        destruct (H2 id i) as (k & Hk & Hor); [by rewrite lookup_insert_eq|].
        exists k. split; [done|]. lia.
      * destruct (H3 j r id Hr Hid) as (k & Hk & Hle).
        exists k. split; [done|]. lia.
Qed.

Lemma ruleIDsLoop_total (G : string → result string)
    (rules : list SecurityGroupRule) (i : nat) (m0 : gmap string nat) :
  Forall (λ r, ∃ id, ruleToID G r = OK id) rules →
  ∃ m, ruleIDsLoop G rules i m0 = OK m.
Proof.
  intros H. revert i m0.
  induction H as [|r rules [id Hid] _ IH]; intros i m0; simpl.
  - by eexists.
  - rewrite Hid. simpl. apply IH.
Qed.

(** X5. The closure that the read pass hands to [readRules] finds an
    identifier exactly when a rule of the group has it, and the rule it
    returns is a rule of the group with that identifier. *)
Theorem lookupRule_index (GetSecurityGroup : string → result string)
    (rules : list SecurityGroupRule) (ruleIDs : gmap string nat) :
  ruleIDsLoop GetSecurityGroup rules 0 ∅ = OK ruleIDs →
  (∀ id r, lookupRule rules ruleIDs id = Some r →
           r ∈ rules ∧ ruleToID GetSecurityGroup r = OK id) ∧
  (∀ r id, r ∈ rules → ruleToID GetSecurityGroup r = OK id →
           is_Some (lookupRule rules ruleIDs id)).
Proof.
  intros (H1 & _ & H3)%ruleIDsLoop_facts. unfold lookupRule.
  assert (Hsound : ∀ (id : string) (k : nat), ruleIDs !! id = Some k →
            ∃ r, rules !! k = Some r ∧ ruleToID GetSecurityGroup r = OK id).
  { intros id k [Hk|(_ & r & Hr & Hid)]%H1; [by rewrite lookup_empty in Hk|].
    rewrite Nat.sub_0_r in Hr. eauto. }
  split.
  - intros id r. destruct (ruleIDs !! id) as [k|] eqn:Hk; [|done].
    destruct (Hsound id k Hk) as (r' & Hr' & Hid). rewrite Hr'.
    intros [= <-]. split; [|done]. by eapply list_elem_of_lookup_2.
  - intros r id [j Hj]%list_elem_of_lookup Hid.
    destruct (H3 j r id Hj Hid) as (k & Hk & _). rewrite Hk.
    destruct (Hsound id k Hk) as (r' & -> & _). by eexists.
Qed.

(** The index of the three backing rules of the sample. *)
Lemma lookupRule_index_witness :
  ∃ ruleIDs r,
    ruleIDsLoop Sample.noGroup Sample.threeOfFour 0 ∅ = OK ruleIDs ∧
    lookupRule Sample.threeOfFour ruleIDs "r3_tcp_192.168.0.0/16_80-80"
      = Some r ∧
    ruleToID Sample.noGroup r = OK "r3_tcp_192.168.0.0/16_80-80".
Proof.
  assert (H : ∃ ruleIDs, ruleIDsLoop Sample.noGroup Sample.threeOfFour 0 ∅
                         = OK ruleIDs).
  { apply ruleIDsLoop_total. repeat constructor; by eexists. }
  destruct H as [ruleIDs H]. exists ruleIDs.
  destruct (lookupRule_index Sample.noGroup Sample.threeOfFour ruleIDs H)
    as [Hsound Hcomplete].
  destruct (Hcomplete (Sample.tcpRule "r3" Sample.netB 80 80)
              "r3_tcp_192.168.0.0/16_80-80") as [r Hr].
  - apply list_elem_of_lookup. by exists 2%nat.
  - reflexivity.
  - exists r. split; [exact H|]. split; [exact Hr|].
    apply (Hsound _ _ Hr).
Defined.

Lemma ruleIDsLoop_fails (G : string → result string)
    (pre post : list SecurityGroupRule) (r : SecurityGroupRule) (e : string)
    (i : nat) (m0 : gmap string nat) :
  Forall (λ r', ∃ id, ruleToID G r' = OK id) pre →
  ruleToID G r = Err e →
  ruleIDsLoop G (pre ++ r :: post) i m0 = Err e.
Proof.
  intros Hpre Hr. revert i m0.
  induction Hpre as [|r' pre [id Hid] _ IH]; intros i m0; simpl.
  - by rewrite Hr.
  - rewrite Hid. simpl. apply IH.
Qed.

(** X6. The read pass identifies every rule of the group before it looks
    at any block: when [ruleToID] fails on a rule of the group, after
    succeeding on the rules before it, the read of the direction fails
    with that error, whatever the blocks are and whether or not any of
    them refers to the rule. *)
Theorem readDirection_fails (code : string → N)
    (GetSecurityGroup : string → result string)
    (defaultString : option string → string → string)
    (pre post : list SecurityGroupRule) (r : SecurityGroupRule) (e : string)
    (blocks : list RuleBlock) :
  Forall (λ r', ∃ id, ruleToID GetSecurityGroup r' = OK id) pre →
  ruleToID GetSecurityGroup r = Err e →
  readDirection code GetSecurityGroup defaultString (pre ++ r :: post) blocks
  = Err e.
Proof.
  intros Hpre Hr. unfold readDirection.
  by rewrite (ruleIDsLoop_fails _ _ _ _ _ _ _ Hpre Hr).
Qed.

(** A group that holds, after the three sample rules, a rule whose peer
    group cannot be resolved. *)
Lemma readDirection_fails_witness :
  readDirection Sample.code Sample.noGroup Sample.defaultString
    (Sample.threeOfFour ++ [with_ID "r9" Sample.groupRule])
    [Sample.blockAB]
  = Err "unable to retrieve Security Group: resource not found".
Proof.
  apply (readDirection_fails Sample.code Sample.noGroup Sample.defaultString
           Sample.threeOfFour [] (with_ID "r9" Sample.groupRule)).
  - repeat constructor; by eexists.
  - reflexivity.
Defined.

(** ** The removal loops *)

Lemma deleteLoop_all (code : string → N)
    (Delete : SecurityGroupRule → result unit)
    (entries : list (string * SecurityGroupRule)) (ids : schemaSet) :
  Forall (λ entry, Delete entry.2 = OK tt) entries →
  deleteLoop code Delete entries ids
  = (dropAbsent code (λ _, None) entries.*1 ids, OK tt).
Proof.
  intros H. revert ids.
  induction H as [|[k r] entries Hr _ IH]; intros ids; simpl; [done|].
  simpl in Hr. rewrite Hr. apply IH.
Qed.

Lemma deleteLoop_fails (code : string → N)
    (Delete : SecurityGroupRule → result unit)
    (pre post : list (string * SecurityGroupRule)) (k e : string)
    (r : SecurityGroupRule) (ids : schemaSet) :
  Forall (λ entry, Delete entry.2 = OK tt) pre →
  Delete r = Err e →
  deleteLoop code Delete (pre ++ (k, r) :: post) ids
  = (dropAbsent code (λ _, None) pre.*1 ids, Err e).
Proof.
  intros H Hr. revert ids.
  induction H as [|[k' r'] pre Hr' _ IH]; intros ids; simpl.
  - by rewrite Hr.
  - simpl in Hr'. rewrite Hr'. apply IH.
Qed.

Lemma kept_none (code : string → N) (l : list string) (x : string) :
  x ∈ l → kept code (λ _, None) l x = false.
Proof.
  intros Hx%list_elem_of_In. apply not_true_is_false. intros Hall.
  unfold kept in Hall. rewrite forallb_forall in Hall.
  specialize (Hall x Hx). by rewrite N.eqb_refl in Hall.
Qed.

Lemma kept_none_other (code : string → N) (l s : list string) (x : string) :
  NoDup (code <$> s) → x ∈ s → (∀ y, y ∈ l → y ∈ s) → x ∉ l →
  kept code (λ _, None) l x = true.
Proof.
  intros Hnd Hx Hsub Hnot. apply forallb_forall.
  intros y Hy%list_elem_of_In. unfold present. simpl.
  apply negb_true_iff, N.eqb_neq. intros Heq. apply Hnot.
  assert (y = x) as ->; [|done].
  pose proof (Hsub y Hy) as Hys.
  apply list_elem_of_lookup in Hx as [i Hi].
  apply list_elem_of_lookup in Hys as [j Hj].
  assert (i = j) as ->; [|congruence].
  eapply NoDup_lookup; [exact Hnd|..].
  - by rewrite list_lookup_fmap, Hi.
  - rewrite list_lookup_fmap, Hj. simpl. by rewrite Heq.
Qed.

(** The entries of the map of removals, in whatever order, carry the
    identifiers of the block and their removal entries. *)
Lemma removal_entries (rule : RuleBlock)
    (m : gmap string SecurityGroupRule)
    (entries : list (string * SecurityGroupRule)) :
  securityGroupRulesToRemove rule = OK m →
  entries ≡ₚ map_to_list m →
  (∀ k r, (k, r) ∈ entries →
          k ∈ ids rule ∧ r = removalEntry (substringBefore underscore k)) ∧
  (∀ k, k ∈ ids rule → k ∈ entries.*1) ∧
  NoDup entries.*1.
Proof.
  unfold securityGroupRulesToRemove, Schema.List. intros Hm Hperm.
  destruct (removeLoop_spec (ids rule) ∅) as (m' & Hm' & Hl).
  rewrite Hm in Hm'. injection Hm' as <-.
  split; [|split].
  - intros k r Hin. rewrite Hperm in Hin.
    apply elem_of_map_to_list in Hin. revert Hin. rewrite Hl.
    destruct (decide (k ∈ ids rule)) as [Hd|Hd].
    + rewrite decide_True by done. by intros [= <-].
    + rewrite decide_False, lookup_empty by done. by intros [=].
  - intros k Hk. rewrite Hperm.
    apply list_elem_of_fmap. exists (k, removalEntry (substringBefore underscore k)).
    split; [done|]. apply elem_of_map_to_list. by rewrite Hl, decide_True.
  - rewrite Hperm. apply NoDup_fst_map_to_list.
Qed.

(** X7. When every deletion succeeds, the removal of a rule block leaves
    the block without any identifier, in whatever order the map of
    removals is visited. *)
Theorem removeRuleBlock_all (code : string → N)
    (DeleteSecurityGroupRule : SecurityGroupRule → result unit)
    (mapOrder : gmap string SecurityGroupRule →
                list (string * SecurityGroupRule))
    (rule : RuleBlock) :
  (∀ m, mapOrder m ≡ₚ map_to_list m) →
  (∀ id, id ∈ ids rule →
         DeleteSecurityGroupRule (removalEntry (substringBefore underscore id))
         = OK tt) →
  removeRuleBlock code DeleteSecurityGroupRule mapOrder rule
  = (set_ids [] rule, OK tt).
Proof.
  intros Horder Hdel. unfold removeRuleBlock.
  destruct (removeLoop_spec (ids rule) ∅) as (m & Hm & _).
  change (removeLoop (ids rule) ∅) with (securityGroupRulesToRemove rule) in Hm.
  rewrite Hm.
  destruct (removal_entries rule m (mapOrder m) Hm (Horder m))
    as (Hent & Hall & _).
  rewrite deleteLoop_all.
  - rewrite dropAbsent_filter. f_equal. f_equal.
    assert (∀ l', (∀ x, x ∈ l' → x ∈ ids rule) →
                  List.filter (kept code (λ _, None) (mapOrder m).*1) l'
                  = []) as H; [|by apply H].
    induction l' as [|x l' IH]; intros Hsub; simpl; [done|].
    rewrite kept_none.
    + apply IH. intros y Hy. apply Hsub, elem_of_cons. by right.
    + apply Hall, Hsub, elem_of_cons. by left.
  - apply Forall_forall. intros [k r] [Hk ->]%Hent. by apply Hdel.
Qed.

(** The removal of the sample block by a service that deletes every
    rule. *)
Lemma removeRuleBlock_all_witness :
  removeRuleBlock Sample.code Sample.deleteAny map_to_list Sample.blockAB
  = (set_ids [] Sample.blockAB, OK tt).
Proof.
  apply (removeRuleBlock_all Sample.code Sample.deleteAny map_to_list
           Sample.blockAB).
  - reflexivity.
  - reflexivity.
Defined.

(** X8. When a deletion fails, the removal of a rule block stops with
    that error, and the block keeps exactly the identifiers whose rule
    has not been deleted: those visited before the failure are gone, the
    failing one and those not yet visited stay. *)
Theorem removeRuleBlock_fails (code : string → N)
    (DeleteSecurityGroupRule : SecurityGroupRule → result unit)
    (mapOrder : gmap string SecurityGroupRule →
                list (string * SecurityGroupRule))
    (rule : RuleBlock) (m : gmap string SecurityGroupRule)
    (pre post : list (string * SecurityGroupRule)) (k e : string)
    (r : SecurityGroupRule) :
  NoDup (code <$> ids rule) →
  securityGroupRulesToRemove rule = OK m →
  mapOrder m ≡ₚ map_to_list m →
  mapOrder m = pre ++ (k, r) :: post →
  Forall (λ entry, DeleteSecurityGroupRule entry.2 = OK tt) pre →
  DeleteSecurityGroupRule r = Err e →
  ∃ ids',
    removeRuleBlock code DeleteSecurityGroupRule mapOrder rule
    = (set_ids ids' rule, Err e) ∧
    (∀ id, id ∈ ids' ↔ id ∈ ids rule ∧ id ∉ pre.*1) ∧
    k ∈ ids'.
Proof.
  intros Hnd Hm Hperm Horder Hpre Hr. unfold removeRuleBlock.
  rewrite Hm, Horder, (deleteLoop_fails _ _ _ _ _ _ _ _ Hpre Hr).
  eexists. split; [reflexivity|].
  destruct (removal_entries rule m (mapOrder m) Hm Hperm)
    as (Hent & Hall & Hkeys).
  rewrite Horder in Hent, Hkeys.
  assert (Hsub : ∀ y, y ∈ pre.*1 → y ∈ ids rule).
  { intros y ([y' ry] & -> & Hy)%list_elem_of_fmap.
    apply (Hent y' ry). apply elem_of_app. by left. }
  assert (Hiff : ∀ id, id ∈ dropAbsent code (λ _, None) pre.*1 (ids rule)
                       ↔ id ∈ ids rule ∧ id ∉ pre.*1).
  { intros id. rewrite dropAbsent_filter. split.
    - intros [Hin Hkept]%list_elem_of_In%filter_In.
      apply list_elem_of_In in Hin. split; [done|]. intros Hp.
      by rewrite (kept_none code _ _ Hp) in Hkept.
    - intros [Hin Hnot]. apply list_elem_of_In, filter_In.
      split; [by apply list_elem_of_In|].
      by apply (kept_none_other code _ (ids rule)). }
  split; [exact Hiff|]. apply Hiff. split.
  - apply (Hent k r). apply elem_of_app. right. apply elem_of_cons. by left.
  - rewrite fmap_app, fmap_cons in Hkeys.
    apply NoDup_app in Hkeys as (_ & Hdisj & _).
    intros Hk. apply (Hdisj k Hk). apply elem_of_cons. by left.
Qed.

(** The removal of a block whose only rule the service refuses to
    delete. *)
Lemma removeRuleBlock_fails_witness :
  ∃ ids',
    removeRuleBlock Sample.code Sample.DeleteSecurityGroupRule map_to_list
      Sample.blockR2
    = (set_ids ids' Sample.blockR2, Err "rule in use") ∧
    "r2_tcp_10.0.0.0/8_443-443" ∈ ids'.
Proof.
  destruct (removeRuleBlock_fails Sample.code Sample.DeleteSecurityGroupRule
              map_to_list Sample.blockR2
              {[ "r2_tcp_10.0.0.0/8_443-443" := removalEntry "r2" ]}
              [] [] "r2_tcp_10.0.0.0/8_443-443" "rule in use"
              (removalEntry "r2"))
    as (ids' & Hres & _ & Hk).
  - apply NoDup_singleton.
  - reflexivity.
  - reflexivity.
  - apply map_to_list_singleton.
  - constructor.
  - reflexivity.
  - exists ids'. split; [exact Hres|exact Hk].
Defined.

(** ** More on expansion *)

Lemma not_icmp_when_tcp_udp (lp : string) :
  String.eqb lp "tcp" || String.eqb lp "udp" = true →
  GoStrings.HasPrefix lp "icmp" = false.
Proof.
  intros H. destruct (GoStrings.HasPrefix lp "icmp") eqn:Hicmp; [|done].
  by rewrite (icmp_not_tcp_udp _ Hicmp) in H.
Qed.




(** X10. A TCP or UDP block without port expands to no rule at all, and
    without any lookup: the result is the empty list whatever the peers
    of the block are, be they groups that do not exist or strings that
    are no CIDR. *)
Theorem securityGroupRulesToAdd_no_port
    (FindSecurityGroup : string → result string)
    (ParseCIDR : string → result IPNet)
    (nonEmptyStringPtr : string → option string) (rule : RuleBlock) :
  String.eqb (GoStrings.ToLower (protocol rule)) "tcp"
  || String.eqb (GoStrings.ToLower (protocol rule)) "udp" = true →
  ports rule = Schema.NewSet →
  securityGroupRulesToAdd FindSecurityGroup ParseCIDR nonEmptyStringPtr rule
  = OK [].
Proof.
  intros Htcp Hports. unfold securityGroupRulesToAdd, baseRules.
  by rewrite (not_icmp_when_tcp_udp _ Htcp), Htcp, Hports.
Qed.

(** A UDP block without port whose peers cannot be resolved. *)
Lemma securityGroupRulesToAdd_no_port_witness :
  securityGroupRulesToAdd Sample.noGroup Sample.noCIDR
    Sample.nonEmptyStringPtr Sample.udpNoPorts = OK [].
Proof.
  apply securityGroupRulesToAdd_no_port; reflexivity.
Defined.

Lemma mapM_fails {A B} (f : A → result B) (pre post : list A) (x : A)
    (e : string) :
  Forall (λ a, ∃ b, f a = OK b) pre → f x = Err e →
  mapM f (pre ++ x :: post) = Err e.
Proof.
  intros Hpre Hx. induction Hpre as [|a pre [b Hb] _ IH]; simpl.
  - by rewrite Hx.
  - by rewrite Hb, IH.
Qed.

(** X11. Expansion is all or nothing: when the block has a base rule,
    its CIDRs parse and the lookup of one of its peer groups fails, after
    the lookups of the groups listed before it succeeded, the expansion
    returns that error, wrapped, and none of the rules that the CIDRs
    gave.  The text of the error has the name of the group as [%q]
    prints it, between double quotes and with its double quotes,
    backslashes and control bytes escaped; it is stated for the names of
    ASCII bytes. *)
Theorem securityGroupRulesToAdd_lookup_fails
    (FindSecurityGroup : string → result string)
    (ParseCIDR : string → result IPNet)
    (nonEmptyStringPtr : string → option string) (rule : RuleBlock)
    (pre post : list string) (x e : string) :
  (String.eqb (GoStrings.ToLower (protocol rule)) "tcp"
   || String.eqb (GoStrings.ToLower (protocol rule)) "udp" = true →
   ports rule ≠ Schema.NewSet) →
  Forall (λ c, ∃ n, ParseCIDR c = OK n) (cidr_list rule) →
  Schema.List (user_security_group_list rule) = pre ++ x :: post →
  Forall (λ y, ∃ g, FindSecurityGroup y = OK g) pre →
  FindSecurityGroup x = Err e →
  asciiOnly x = true →
  securityGroupRulesToAdd FindSecurityGroup ParseCIDR nonEmptyStringPtr rule
  = Err ("unable to retrieve Security Group " +:+ fmtQ x +:+ ": " +:+ e).
Proof.
  intros Hports Hc Hlist Hpre Hx _. unfold securityGroupRulesToAdd.
  destruct (mapM_uniform (expandCIDRs ParseCIDR (cidr_list rule))
              (Schema.Len (cidr_list rule))
              (baseRules nonEmptyStringPtr rule)) as (byC & -> & _).
  { intros r. by apply expandCIDRs_total. }
  simpl.
  destruct (baseRules nonEmptyStringPtr rule) as [|b base] eqn:Hbase.
  { exfalso. pose proof (length_baseRules nonEmptyStringPtr rule) as Hlen.
    rewrite Hbase in Hlen. simpl in Hlen.
    destruct (_ || _); [|done].
    destruct (ports rule); [by apply Hports|done]. }
  assert (Hb : expandGroups FindSecurityGroup
                 (user_security_group_list rule) b
               = Err ("unable to retrieve Security Group " +:+ fmtQ x
                        +:+ ": " +:+ e)).
  { unfold expandGroups. rewrite Hlist.
    apply mapM_fails; [|by rewrite Hx].
    eapply Forall_impl; [exact Hpre|]. intros y [g ->]. by eexists. }
  simpl. by rewrite Hb.
Qed.

(** A block whose peer group has a double quote in its name, against a
    registry without groups: the quote comes out behind a backslash. *)
Lemma securityGroupRulesToAdd_lookup_fails_witness :
  securityGroupRulesToAdd Sample.noGroup Sample.ParseCIDR
    Sample.nonEmptyStringPtr
    (set_user_security_group_list ["we" +:+ dquote +:+ "b"] Sample.tcpBlock)
  = Err ("unable to retrieve Security Group "
           +:+ dquote +:+ "we" +:+ backslash +:+ dquote +:+ "b" +:+ dquote
           +:+ ": resource not found").
Proof.
  apply (securityGroupRulesToAdd_lookup_fails Sample.noGroup Sample.ParseCIDR
           Sample.nonEmptyStringPtr
           (set_user_security_group_list ["we" +:+ dquote +:+ "b"]
              Sample.tcpBlock)
           [] [] ("we" +:+ dquote +:+ "b") "resource not found").
  - discriminate.
  - repeat constructor; by eexists.
  - reflexivity.
  - constructor.
  - reflexivity.
  - reflexivity.
Defined.

(** ** What a pass over a block observes *)

Lemma Add_elem_of_inv (code : string → N) (x y : string) (s : schemaSet) :
  y ∈ Schema.Add code x s → y = x ∨ y ∈ s.
Proof.
  induction s as [|z s IH]; simpl.
  - intros ->%list_elem_of_singleton. by left.
  - destruct (code x ?= code z)%N.
    + by right.
    + intros [->|H]%elem_of_cons; [by left|by right].
    + intros [->|H]%elem_of_cons.
      * right. apply elem_of_cons. by left.
      * destruct (IH H) as [->|Hs]; [by left|].
        right. apply elem_of_cons. by right.
Qed.

Lemma Add_mono (code : string → N) (x y : string) (s : schemaSet) :
  y ∈ s → y ∈ Schema.Add code x s.
Proof.
  induction s as [|z s IH]; simpl.
  - by intros ?%elem_of_nil.
  - destruct (code x ?= code z)%N.
    + done.
    + intros H. apply elem_of_cons. by right.
    + intros [->|H]%elem_of_cons; apply elem_of_cons; [by left|].
      right. by apply IH.
Qed.

(** After [Add], the set holds an element with the code of the added
    one: the added one, or the one that had its code before. *)
Lemma Add_has_code (code : string → N) (x : string) (s : schemaSet) :
  ∃ y, y ∈ Schema.Add code x s ∧ code y = code x.
Proof.
  induction s as [|z s IH]; simpl.
  - exists x. split; [by apply list_elem_of_singleton|done].
  - destruct (code x ?= code z)%N eqn:Hcmp.
    + apply N.compare_eq_iff in Hcmp. exists z.
      split; [apply elem_of_cons; by left|done].
    + exists x. split; [apply elem_of_cons; by left|done].
    + destruct IH as (y & Hy & Hc). exists y.
      split; [apply elem_of_cons; by right|done].
Qed.

Lemma fold_Add_mono (code : string → N) (f : string → string)
    (l : list string) (s : schemaSet) (y : string) :
  y ∈ s → y ∈ fold_left (λ acc x, Schema.Add code (f x) acc) l s.
Proof.
  revert s. induction l as [|x l IH]; intros s Hy; simpl; [done|].
  by apply IH, Add_mono.
Qed.

Lemma fold_Add_inv (code : string → N) (f : string → string)
    (l : list string) (s : schemaSet) (y : string) :
  y ∈ fold_left (λ acc x, Schema.Add code (f x) acc) l s →
  y ∈ s ∨ ∃ x, x ∈ l ∧ y = f x.
Proof.
  revert s. induction l as [|x l IH]; intros s; simpl; [by left|].
  intros [[->|Hs]%Add_elem_of_inv|(x' & Hx' & ->)]%IH.
  - right. exists x. split; [apply elem_of_cons; by left|done].
  - by left.
  - right. exists x'. split; [apply elem_of_cons; by right|done].
Qed.

Lemma fold_Add_has_code (code : string → N) (f : string → string)
    (l : list string) (s : schemaSet) (x : string) :
  x ∈ l →
  ∃ y, y ∈ fold_left (λ acc x, Schema.Add code (f x) acc) l s ∧
       code y = code (f x).
Proof.
  revert s. induction l as [|x' l IH]; intros s; simpl.
  - by intros ?%elem_of_nil.
  - intros [->|Hx]%elem_of_cons; [|by apply IH].
    destruct (Add_has_code code (f x') s) as (y & Hy & Hc).
    exists y. split; [by apply fold_Add_mono|done].
Qed.

Section Observed.
Context (code : string → N) (GetSecurityGroup : string → result string)
        (defaultString : option string → string → string)
        (ruleFunc : fetchRuleFunc).

(** What one found rule does to the observed peers. *)
Lemma readFound_peers (st st' : readLocals) (r : SecurityGroupRule) :
  readFound code GetSecurityGroup defaultString st r = OK st' →
  l_cidrList st' =
    match Network r with
    | Some n => Schema.Add code (IPNet_String n) (l_cidrList st)
    | None => l_cidrList st
    end ∧
  match SecurityGroupID r with
  | Some gid =>
      ∃ name, GetSecurityGroup gid = OK name ∧
              l_userSecurityGroupList st'
              = Schema.Add code name (l_userSecurityGroupList st)
  | None => l_userSecurityGroupList st' = l_userSecurityGroupList st
  end.
Proof.
  unfold readFound. destruct (Protocol r) as [p|]; simpl; [|done].
  destruct (SecurityGroupID r) as [gid|]; simpl.
  - destruct (GetSecurityGroup gid) as [name| |]; simpl; try done.
    destruct (GoStrings.HasPrefix _ _).
    + destruct (ICMPCode r), (ICMPType r); simpl; try done.
      intros [= <-]. simpl. eauto.
    + destruct (_ || _); intros [= <-]; simpl; eauto.
  - destruct (GoStrings.HasPrefix _ _).
    + destruct (ICMPCode r), (ICMPType r); simpl; try done.
      by intros [= <-].
    + destruct (_ || _); by intros [= <-].
Qed.

(** The observed peers along the walk over a list of identifiers. *)
Lemma readWalk_peers (l : list string) (st st' : readLocals) :
  readWalk code GetSecurityGroup defaultString ruleFunc l st = OK st' →
  (∀ c, c ∈ l_cidrList st' →
        c ∈ l_cidrList st ∨
        ∃ id r n, id ∈ l ∧ ruleFunc id = Some r ∧ Network r = Some n ∧
                  IPNet_String n = c) ∧
  (∀ c, c ∈ l_cidrList st → c ∈ l_cidrList st') ∧
  (∀ id r n, id ∈ l → ruleFunc id = Some r → Network r = Some n →
             ∃ c, c ∈ l_cidrList st' ∧ code c = code (IPNet_String n)) ∧
  (∀ g, g ∈ l_userSecurityGroupList st' →
        g ∈ l_userSecurityGroupList st ∨
        ∃ id r gid, id ∈ l ∧ ruleFunc id = Some r ∧
                    SecurityGroupID r = Some gid ∧
                    GetSecurityGroup gid = OK g) ∧
  (∀ g, g ∈ l_userSecurityGroupList st → g ∈ l_userSecurityGroupList st') ∧
  (∀ id r gid, id ∈ l → ruleFunc id = Some r → SecurityGroupID r = Some gid →
               ∃ g name, GetSecurityGroup gid = OK name ∧
                         g ∈ l_userSecurityGroupList st' ∧
                         code g = code name).
Proof.
  revert st. induction l as [|id l IH]; intros st; simpl.
  - intros [= <-]. repeat split; try done; try (by left);
      intros ? ? ? ?%elem_of_nil; done.
  - unfold readStep at 1.
    destruct (ruleFunc id) as [r|] eqn:Hid; simpl.
    + destruct (readFound _ _ _ st r) as [st1| |] eqn:Hst1; simpl; try done.
      intros (Hcs & Hcm & Hcc & Hgs & Hgm & Hgc)%IH.
      apply readFound_peers in Hst1 as [Hc1 Hg1].
      repeat split.
      * intros c [Hc|(id' & r' & n & Hin & ? & ? & ?)]%Hcs.
        -- rewrite Hc1 in Hc. destruct (Network r) as [n|] eqn:Hn; [|by left].
           apply Add_elem_of_inv in Hc as [->|Hc]; [|by left].
           right. exists id, r, n. split; [apply elem_of_cons; by left|done].
        -- right. exists id', r', n. split; [apply elem_of_cons; by right|done].
      * intros c Hc. apply Hcm. rewrite Hc1.
        destruct (Network r); [by apply Add_mono|done].
      * intros id' r' n [->|Hin]%elem_of_cons Hr' Hn; [|by eapply Hcc].
        assert (r' = r) as -> by congruence.
        rewrite Hn in Hc1.
        destruct (Add_has_code code (IPNet_String n) (l_cidrList st))
          as (c & Hc & Hcode).
        exists c. split; [|done]. apply Hcm. by rewrite Hc1.
      * intros g [Hg|(id' & r' & gid & Hin & ? & ? & ?)]%Hgs.
        -- destruct (SecurityGroupID r) as [gid|] eqn:Hgid.
           ++ destruct Hg1 as (name & Hname & Hg1). rewrite Hg1 in Hg.
              apply Add_elem_of_inv in Hg as [->|Hg]; [|by left].
              right. exists id, r, gid.
              split; [apply elem_of_cons; by left|done].
           ++ left. by rewrite <- Hg1.
        -- right. exists id', r', gid.
           split; [apply elem_of_cons; by right|done].
      * intros g Hg. apply Hgm.
        destruct (SecurityGroupID r) as [gid|].
        -- destruct Hg1 as (name & _ & ->). by apply Add_mono.
        -- by rewrite Hg1.
      * intros id' r' gid [->|Hin]%elem_of_cons Hr' Hgid; [|by eapply Hgc].
        assert (r' = r) as -> by congruence.
        rewrite Hgid in Hg1. destruct Hg1 as (name & Hname & Hg1).
        destruct (Add_has_code code name (l_userSecurityGroupList st))
          as (g & Hg & Hcode).
        exists g, name. split; [done|]. split; [|done].
        apply Hgm. by rewrite Hg1.
    + intros (Hcs & Hcm & Hcc & Hgs & Hgm & Hgc)%IH. simpl in *.
      repeat split.
      * intros c [Hc|(id' & r' & n & Hin & ? & ? & ?)]%Hcs; [by left|].
        right. exists id', r', n. split; [apply elem_of_cons; by right|done].
      * done.
      * intros id' r' n [->|Hin]%elem_of_cons Hr' Hn; [congruence|].
        by eapply Hcc.
      * intros g [Hg|(id' & r' & gid & Hin & ? & ? & ?)]%Hgs; [by left|].
        right. exists id', r', gid.
        split; [apply elem_of_cons; by right|done].
      * done.
      * intros id' r' gid [->|Hin]%elem_of_cons Hr' Hgid; [congruence|].
        by eapply Hgc.
Qed.

(** X12. The peers that a pass over a block outputs are those of the
    backing rules that the identifiers of the block reach: every CIDR of
    the output is the network of such a rule, and the network of every
    such rule is in the output, as the element of its code; every group
    of the output is the name that the lookup gives for the peer group of
    such a rule, and the peer group of every such rule has been looked
    up and its name is in the output, as the element of its code.  So a
    pass that outputs a block has resolved every peer group it met. *)
Theorem readRule_observed_peers (rule out : RuleBlock) :
  readRule code GetSecurityGroup defaultString ruleFunc rule = OK out →
  (∀ c, c ∈ cidr_list out →
        ∃ id r n, id ∈ ids rule ∧ ruleFunc id = Some r ∧
                  Network r = Some n ∧ IPNet_String n = c) ∧
  (∀ id r n, id ∈ ids rule → ruleFunc id = Some r → Network r = Some n →
             ∃ c, c ∈ cidr_list out ∧ code c = code (IPNet_String n)) ∧
  (∀ g, g ∈ user_security_group_list out →
        ∃ id r gid, id ∈ ids rule ∧ ruleFunc id = Some r ∧
                    SecurityGroupID r = Some gid ∧
                    GetSecurityGroup gid = OK g) ∧
  (∀ id r gid, id ∈ ids rule → ruleFunc id = Some r →
               SecurityGroupID r = Some gid →
               ∃ g name, GetSecurityGroup gid = OK name ∧
                         g ∈ user_security_group_list out ∧
                         code g = code name).
Proof.
  unfold readRule, Schema.List.
  destruct (readWalk _ _ _ _ (ids rule) (readInit rule)) as [st| |] eqn:Hw;
    simpl; [|done..].
  intros [= <-]. simpl.
  apply readWalk_peers in Hw as (Hcs & _ & Hcc & Hgs & _ & Hgc).
  repeat split.
  - intros c [Hc|H]%Hcs; [by apply elem_of_nil in Hc|done].
  - done.
  - intros g [Hg|H]%Hgs; [by apply elem_of_nil in Hg|done].
  - done.
Qed.
End Observed.

(** The pass over the sample block holds the network of the rule [r1]. *)
Lemma readRule_observed_peers_witness :
  ∃ out c,
    Sample.read Sample.threeOfFour Sample.blockAB = OK out ∧
    c ∈ cidr_list out ∧ Sample.code c = Sample.code Sample.netA.
Proof.
  assert (H : ∃ out, Sample.read Sample.threeOfFour Sample.blockAB = OK out)
    by (vm_compute; eauto).
  destruct H as [out H]. exists out.
  destruct (readRule_observed_peers _ _ _ _ _ _ H) as (_ & Hcc & _).
  destruct (Hcc "r1_tcp_10.0.0.0/8_80-80"
              (Sample.tcpRule "r1" Sample.netA 80 80)
              {| IPNet_String := Sample.netA |}) as (c & Hc & Hcode).
  - apply (bool_decide_unpack _). vm_compute. exact I.
  - vm_compute. reflexivity.
  - reflexivity.
  - exists c. split; [exact H|]. split; [exact Hc|exact Hcode].
Defined.

(** ** The passes that add rules *)

Lemma updateAddLoop_keys (code : string → N)
    (G : string → result string)
    (nonEmptyStringPtr : string → option string)
    (Create : SecurityGroupRule → result SecurityGroupRule)
    (flowDirection : string) (rules : list SecurityGroupRule)
    (ids0 ids' : schemaSet) :
  updateAddLoop code G nonEmptyStringPtr Create flowDirection rules ids0
    = OK ids' →
  ∃ keys,
    Forall2 (λ r k, ∃ sg,
               Create (with_FlowDirection (nonEmptyStringPtr flowDirection) r)
               = OK sg ∧ ruleToID G sg = OK k) rules keys ∧
    ids' = fold_left (λ acc k, Schema.Add code k acc) keys ids0.
Proof.
  revert ids0. induction rules as [|r rules IH]; intros ids0; simpl.
  - intros [= <-]. exists []. split; [constructor|done].
  - destruct (Create _) as [sg| |] eqn:Hsg; simpl; try done.
    destruct (ruleToID G sg) as [k| |] eqn:Hk; simpl; try done.
    intros (keys & Hkeys & ->)%IH. exists (k :: keys).
    split; [|done]. constructor; [by exists sg|done].
Qed.

(** X13. When the add pass of an update goes through on a block, every
    rule of the expansion has been created with the direction of the
    pass and identified, and an identifier with the code of its key is
    recorded on the block; the identifiers of the block are those it had
    and keys of created rules, nothing else; and the pass changes no
    other field of the block. *)
Theorem updateAddRule_records (code : string → N)
    (GetSecurityGroup FindSecurityGroup : string → result string)
    (ParseCIDR : string → result IPNet)
    (nonEmptyStringPtr : string → option string)
    (CreateSecurityGroupRule : SecurityGroupRule → result SecurityGroupRule)
    (flowDirection : string) (rule rule' : RuleBlock) :
  updateAddRule code GetSecurityGroup FindSecurityGroup ParseCIDR
    nonEmptyStringPtr CreateSecurityGroupRule flowDirection rule = OK rule' →
  ∃ rules,
    securityGroupRulesToAdd FindSecurityGroup ParseCIDR nonEmptyStringPtr rule
      = OK rules ∧
    (∀ r, r ∈ rules →
       ∃ sg k k',
         CreateSecurityGroupRule
           (with_FlowDirection (nonEmptyStringPtr flowDirection) r) = OK sg ∧
         ruleToID GetSecurityGroup sg = OK k ∧
         k' ∈ ids rule' ∧ code k' = code k) ∧
    (∀ k, k ∈ ids rule' →
       k ∈ ids rule ∨
       ∃ r sg, r ∈ rules ∧
         CreateSecurityGroupRule
           (with_FlowDirection (nonEmptyStringPtr flowDirection) r) = OK sg ∧
         ruleToID GetSecurityGroup sg = OK k) ∧
    (∀ k, k ∈ ids rule → k ∈ ids rule') ∧
    rule' = set_ids (ids rule') rule.
Proof.
  unfold updateAddRule.
  destruct (securityGroupRulesToAdd _ _ _ rule) as [rules| |]; simpl;
    [|done..].
  destruct (updateAddLoop _ _ _ _ _ rules (ids rule)) as [ids'| |] eqn:Hloop;
    simpl; [|done..].
  intros [= <-]. simpl. exists rules. split; [done|].
  apply updateAddLoop_keys in Hloop as (keys & Hkeys & ->).
  repeat split.
  - intros r [i Hi]%list_elem_of_lookup.
    destruct (Forall2_lookup_l _ _ _ _ _ Hkeys Hi)
      as (k & Hk & sg & Hsg & Hid).
    apply list_elem_of_lookup_2 in Hk.
    destruct (fold_Add_has_code code id keys (ids rule) k Hk)
      as (k' & Hk' & Hcode).
    by exists sg, k, k'.
  - intros k [Hk|(k0 & Hk0 & ->)]%(fold_Add_inv code id); [by left|].
    right. apply list_elem_of_lookup in Hk0 as [i Hi].
    destruct (Forall2_lookup_r _ _ _ _ _ Hkeys Hi)
      as (r & Hr & sg & Hsg & Hid).
    exists r, sg. split; [by eapply list_elem_of_lookup_2|done].
  - intros k Hk. by apply (fold_Add_mono code id).
Qed.

(** The add pass over the sample block with one peer group. *)
Lemma updateAddRule_records_witness :
  ∃ rule',
    updateAddRule Sample.code Sample.GetSecurityGroup
      Sample.FindSecurityGroup Sample.ParseCIDR Sample.nonEmptyStringPtr
      Sample.CreateSecurityGroupRule "ingress" Sample.groupBlock = OK rule' ∧
    ∀ k, k ∈ ids rule' →
      ∃ r sg,
        Sample.CreateSecurityGroupRule
          (with_FlowDirection (Some "ingress") r) = OK sg ∧
        ruleToID Sample.GetSecurityGroup sg = OK k.
Proof.
  assert (H : ∃ rule',
            updateAddRule Sample.code Sample.GetSecurityGroup
              Sample.FindSecurityGroup Sample.ParseCIDR
              Sample.nonEmptyStringPtr Sample.CreateSecurityGroupRule
              "ingress" Sample.groupBlock = OK rule')
    by (vm_compute; eauto).
  destruct H as [rule' H]. exists rule'. split; [exact H|].
  destruct (updateAddRule_records _ _ _ _ _ _ _ _ _ H)
    as (rules & _ & _ & Hids & _).
  intros k [Hk|(r & sg & _ & Hsg & Hid)]%Hids.
  - by apply elem_of_nil in Hk.
  - by exists r, sg.
Defined.

Lemma mapM_ext_Forall {A B} (f g : A → result B) (l : list A) :
  Forall (λ a, f a = g a) l → mapM f l = mapM g l.
Proof.
  induction 1 as [|a l Ha _ IH]; simpl; [done|]. by rewrite Ha, IH.
Qed.

(** X14. The create pass looks the peer groups of a block up by their
    lower-cased names only: two lookups that agree on the strings that
    [strings.ToLower] leaves as they are give the same result of the
    pass, whatever they do on names with upper-case letters.  (The add
    pass of an update looks the names up as they are written.) *)
Theorem createRule_lookups_lower (code : string → N)
    (GetSecurityGroup Find1 Find2 : string → result string)
    (ParseCIDR : string → result IPNet)
    (nonEmptyStringPtr : string → option string)
    (CreateSecurityGroupRule : SecurityGroupRule → result SecurityGroupRule)
    (flowDirection : string) (rule : RuleBlock) :
  (∀ x, GoStrings.ToLower x = x → Find1 x = Find2 x) →
  createRule code GetSecurityGroup Find1 ParseCIDR nonEmptyStringPtr
    CreateSecurityGroupRule flowDirection rule
  = createRule code GetSecurityGroup Find2 ParseCIDR nonEmptyStringPtr
      CreateSecurityGroupRule flowDirection rule.
Proof.
  intros Hagree. unfold createRule.
  set (lowered := fold_left _ _ _).
  assert (Hlow : Forall (λ x, Find1 x = Find2 x) lowered).
  { apply Forall_forall. intros y Hy. apply Hagree.
    apply (fold_Add_inv code GoStrings.ToLower) in Hy
      as [Hy|(x & _ & ->)]; [by apply elem_of_nil in Hy|].
    apply ToLower_idem. }
  assert (Hexp : securityGroupRulesToAdd Find1 ParseCIDR nonEmptyStringPtr
                   (set_user_security_group_list lowered rule)
                 = securityGroupRulesToAdd Find2 ParseCIDR nonEmptyStringPtr
                     (set_user_security_group_list lowered rule)).
  { unfold securityGroupRulesToAdd. simpl.
    destruct (mapM (expandCIDRs _ _) _); simpl; try done.
    f_equal. apply mapM_ext_Forall, Forall_forall. intros b _.
    unfold expandGroups, Schema.List. apply mapM_ext_Forall.
    eapply Forall_impl; [exact Hlow|]. intros x Hx. simpl in Hx.
    by rewrite Hx. }
  by rewrite Hexp.
Qed.

(** A registry that knows the group [web] under this spelling only, and
    the block that names it [Web]. *)
Lemma createRule_lookups_lower_witness :
  createRule Sample.code Sample.GetSecurityGroup Sample.FindSecurityGroup
    Sample.ParseCIDR Sample.nonEmptyStringPtr Sample.CreateSecurityGroupRule
    "ingress" (set_user_security_group_list ["Web"] Sample.groupBlock)
  = createRule Sample.code Sample.GetSecurityGroup
      (λ x, if String.eqb (GoStrings.ToLower x) x
            then Sample.FindSecurityGroup x
            else Err "resource not found")
      Sample.ParseCIDR Sample.nonEmptyStringPtr Sample.CreateSecurityGroupRule
      "ingress" (set_user_security_group_list ["Web"] Sample.groupBlock).
Proof.
  apply createRule_lookups_lower.
  intros x Hx. rewrite Hx. by rewrite String.eqb_refl.
Defined.

(** ** Regular expressions and the upgrades of the state *)

Section RegexpFacts.
Import GoRegexp.
Local Arguments String.append : simpl nomatch.

Lemma append_assoc (a b c : string) : (a +:+ b) +:+ c = a +:+ b +:+ c.
Proof. induction a as [|x a IH]; simpl; [done|]. by rewrite IH. Qed.

Lemma append_nil_r (a : string) : a +:+ "" = a.
Proof. induction a as [|x a IH]; simpl; [done|]. by rewrite IH. Qed.

Lemma length_append (a b : string) :
  String.length (a +:+ b) = (String.length a + String.length b)%nat.
Proof. induction a as [|x a IH]; simpl; [done|]. by rewrite IH. Qed.

Lemma takeBytes_append (a b : string) :
  takeBytes (String.length a) (a +:+ b) = a.
Proof.
  unfold takeBytes. induction a as [|x a IH]; simpl.
  - by destruct b.
  - by rewrite IH.
Qed.

Lemma dropBytes_append (a b : string) :
  dropBytes (String.length a) (a +:+ b) = b.
Proof. induction a as [|x a IH]; simpl; [by destruct b|done]. Qed.

Lemma HasPrefix_append (a b : string) : GoStrings.HasPrefix (a +:+ b) a = true.
Proof.
  induction a as [|x a IH]; simpl; [by destruct b|].
  by rewrite Ascii.eqb_refl.
Qed.

Lemma HasPrefix_inv (s l : string) :
  GoStrings.HasPrefix s l = true → s = l +:+ dropBytes (String.length l) s.
Proof.
  revert s. induction l as [|x l IH]; intros s; simpl.
  - by destruct s.
  - destruct s as [|c s]; [done|].
    intros [Hc Hl]%andb_prop. apply Ascii.eqb_eq in Hc as ->.
    simpl. f_equal. by apply IH.
Qed.

Lemma allChars_append (p : ascii → bool) (a b : string) :
  allChars p (a +:+ b) = allChars p a && allChars p b.
Proof.
  induction a as [|x a IH]; simpl; [done|].
  by rewrite IH, andb_assoc.
Qed.

Context {R : Type}.
Implicit Types k : @cont R.

Lemma rep_inv (n : nat) (p : ascii → bool) k (pos : nat) (s : string)
    (caps : captures) (x : R) :
  rep n p k pos s caps = Some x →
  ∃ a b, s = a +:+ b ∧ String.length a = n ∧ allChars p a = true ∧
         k (pos + n)%nat b caps = Some x.
Proof.
  revert pos s. induction n as [|n IH]; intros pos s; simpl.
  - intros H. exists "", s. by rewrite Nat.add_0_r.
  - destruct s as [|c s]; [done|].
    destruct (p c) eqn:Hc; [|done].
    intros (a & b & -> & <- & Ha & H)%IH.
    exists (String c a), b. simpl. rewrite Hc, Ha.
    repeat split. by rewrite <- Nat.add_succ_comm.
Qed.

Lemma rep_append (p : ascii → bool) k (pos : nat) (a b : string)
    (caps : captures) :
  allChars p a = true →
  rep (String.length a) p k pos (a +:+ b) caps
  = k (pos + String.length a)%nat b caps.
Proof.
  revert pos. induction a as [|c a IH]; intros pos; simpl.
  - by rewrite Nat.add_0_r.
  - intros [-> Ha]%andb_prop. rewrite (IH _ Ha).
    by rewrite <- Nat.add_succ_comm.
Qed.

Lemma star_inv (p : ascii → bool) k (pos : nat) (s : string)
    (caps : captures) (x : R) :
  star p k pos s caps = Some x →
  ∃ a b, s = a +:+ b ∧ allChars p a = true ∧
         k (pos + String.length a)%nat b caps = Some x.
Proof.
  revert pos. induction s as [|c s IH]; intros pos; simpl.
  - intros H. exists "", "". by rewrite Nat.add_0_r.
  - destruct (p c) eqn:Hc.
    + destruct (star p k (S pos) s caps) as [y|] eqn:Hs.
      * intros [= ->]. apply IH in Hs as (a & b & -> & Ha & H).
        exists (String c a), b. simpl. rewrite Hc, Ha.
        repeat split. by rewrite <- Nat.add_succ_comm.
      * intros H. exists "", (String c s). by rewrite Nat.add_0_r.
    + intros H. exists "", (String c s). by rewrite Nat.add_0_r.
Qed.

(** The star finds a match whenever one of the splits gives one. *)
Lemma star_append (p : ascii → bool) k (pos : nat) (a b : string)
    (caps : captures) :
  allChars p a = true →
  is_Some (k (pos + String.length a)%nat b caps) →
  is_Some (star p k pos (a +:+ b) caps).
Proof.
  revert pos. induction a as [|c a IH]; intros pos; simpl.
  - intros _. rewrite Nat.add_0_r. intros H.
    destruct b as [|c b]; simpl; [done|].
    destruct (p c); [|done]. by destruct (star p k (S pos) b caps).
  - intros [-> Ha]%andb_prop H. rewrite <- Nat.add_succ_comm in H.
    by destruct (IH _ Ha H) as [y ->].
Qed.

Lemma lit_inv (l : string) k (pos : nat) (s : string) (caps : captures)
    (x : R) :
  run (Lit l) k pos s caps = Some x →
  ∃ b, s = l +:+ b ∧ k (pos + String.length l)%nat b caps = Some x.
Proof.
  simpl. destruct (GoStrings.HasPrefix s l) eqn:Hl; [|done].
  intros H. exists (dropBytes (String.length l) s).
  split; [by apply HasPrefix_inv|done].
Qed.

Lemma lit_append (l : string) k (pos : nat) (b : string) (caps : captures) :
  run (Lit l) k pos (l +:+ b) caps = k (pos + String.length l)%nat b caps.
Proof. simpl. by rewrite HasPrefix_append, dropBytes_append. Qed.

Lemma plus_inv (p : ascii → bool) k (pos : nat) (s : string)
    (caps : captures) (x : R) :
  run (Plus p) k pos s caps = Some x →
  ∃ a b, s = a +:+ b ∧ a ≠ "" ∧ allChars p a = true ∧
         k (pos + String.length a)%nat b caps = Some x.
Proof.
  simpl. destruct s as [|c s]; [done|]. destruct (p c) eqn:Hc; [|done].
  intros (a & b & -> & Ha & H)%star_inv.
  exists (String c a), b. simpl. rewrite Hc, Ha.
  repeat split; [done|]. by rewrite <- Nat.add_succ_comm.
Qed.

Lemma plus_append (p : ascii → bool) k (pos : nat) (a b : string)
    (caps : captures) :
  a ≠ "" → allChars p a = true →
  is_Some (k (pos + String.length a)%nat b caps) →
  is_Some (run (Plus p) k pos (a +:+ b) caps).
Proof.
  destruct a as [|c a]; [done|]. intros _. simpl.
  intros [-> Ha]%andb_prop H. rewrite <- Nat.add_succ_comm in H.
  by apply star_append.
Qed.
End RegexpFacts.

Section MigrationFacts.
Import GoRegexp Migration.
Local Arguments String.append : simpl nomatch.

Lemma run_Seq {R} (a b : re) (k : @cont R) pos s caps :
  run (Seq a b) k pos s caps
  = run a (fun pos' rest' caps' => run b k pos' rest' caps') pos s caps.
Proof. reflexivity. Qed.

Lemma run_Cap {R} (i : nat) (r : re) (k : @cont R) pos s caps :
  run (Cap i r) k pos s caps
  = run r (fun pos' rest' caps' =>
             k pos' rest' (setCapture i (takeBytes (pos' - pos) s) caps'))
        pos s caps.
Proof. reflexivity. Qed.

Lemma run_Bol {R} (k : @cont R) s caps :
  run Bol k 0%nat s caps = k 0%nat s caps.
Proof. reflexivity. Qed.

Lemma run_Rep {R} (n : nat) p (k : @cont R) pos s caps :
  run (Rep n p) k pos s caps = rep n p k pos s caps.
Proof. reflexivity. Qed.

Lemma run_Star {R} p (k : @cont R) pos s caps :
  run (Star p) k pos s caps = star p k pos s caps.
Proof. reflexivity. Qed.

Lemma eol_inv {R} (k : @cont R) pos s caps x :
  run Eol k pos s caps = Some x → s = "" ∧ k pos "" caps = Some x.
Proof. by destruct s. Qed.

Lemma opt_inv {R} (r : re) (k : @cont R) pos s caps x :
  run (Opt r) k pos s caps = Some x →
  run r k pos s caps = Some x ∨ k pos s caps = Some x.
Proof. simpl. destruct (run r k pos s caps); [by left|by right]. Qed.

Lemma opt_some {R} (r : re) (k : @cont R) pos s caps :
  is_Some (run r k pos s caps) ∨ is_Some (k pos s caps) →
  is_Some (run (Opt r) k pos s caps).
Proof. simpl. destruct (run r k pos s caps); [by eauto|by intros [[]|]]. Qed.

Lemma alt_lit_inv {R} (l1 l2 : string) (k : @cont R) pos s caps x :
  run (Alt (Lit l1) (Lit l2)) k pos s caps = Some x →
  ∃ l b, (l = l1 ∨ l = l2) ∧ s = l +:+ b ∧
         k (pos + String.length l)%nat b caps = Some x.
Proof.
  change (run (Alt (Lit l1) (Lit l2)) k pos s caps)
    with (match run (Lit l1) k pos s caps with
          | Some y => Some y
          | None => run (Lit l2) k pos s caps
          end).
  destruct (run (Lit l1) k pos s caps) as [y|] eqn:H1.
  - intros [= ->]. apply lit_inv in H1 as (b & -> & H). exists l1, b. auto.
  - intros (b & -> & H)%lit_inv. exists l2, b. auto.
Qed.

Lemma alt_some {R} (a b : re) (k : @cont R) pos s caps :
  is_Some (run a k pos s caps) ∨ is_Some (run b k pos s caps) →
  is_Some (run (Alt a b) k pos s caps).
Proof. simpl. destruct (run a k pos s caps); [by eauto|by intros [[]|]]. Qed.

Lemma takeBytes_prefix (n : nat) (a b s : string) :
  s = a +:+ b → n = String.length a → takeBytes n s = a.
Proof. intros -> ->. apply takeBytes_append. Qed.

(** *** The pattern of the ports *)

Lemma rulePortsRegex_inv (s : string) (pos : nat) (rest : string)
    (caps : captures) :
  matchStart V0.rulePortsRegex s = Some (pos, rest, caps) →
  ∃ d, s = "0-" +:+ d ∧ d ≠ "" ∧ allChars digit d = true ∧
       rest = "" ∧ caps 1%nat = d.
Proof.
  unfold matchStart, V0.rulePortsRegex; cbn [cat]. intros H.
  rewrite run_Seq, run_Bol in H.
  rewrite run_Seq in H. apply lit_inv in H as (b & -> & H).
  rewrite run_Seq, run_Cap in H.
  apply plus_inv in H as (d & b' & -> & Hne & Hd & H).
  apply eol_inv in H as [-> [= <- <- <-]].
  exists d. rewrite append_nil_r. repeat split; try done.
  unfold setCapture. simpl.
  eapply takeBytes_prefix; [by rewrite append_nil_r|lia].
Qed.

Lemma rulePortsRegex_some (d : string) :
  d ≠ "" → allChars digit d = true →
  is_Some (matchStart V0.rulePortsRegex ("0-" +:+ d)).
Proof.
  intros Hne Hd. unfold matchStart, V0.rulePortsRegex; cbn [cat].
  rewrite run_Seq, run_Bol.
  rewrite run_Seq, lit_append, run_Seq, run_Cap.
  rewrite <- (append_nil_r d). by apply plus_append.
Qed.

Lemma patchPorts_0 (d : string) :
  d ≠ "" → allChars digit d = true →
  V0.patchPorts ("0-" +:+ d) = "1-" +:+ d.
Proof.
  intros Hne Hd. unfold V0.patchPorts, ReplaceAllString.
  destruct (rulePortsRegex_some d Hne Hd) as [[[pos rest] caps] H].
  rewrite H.
  apply rulePortsRegex_inv in H as (d' & Hd' & _ & _ & -> & Hc).
  simpl in Hd'. injection Hd' as <-. simpl. by rewrite Hc, !append_nil_r.
Qed.

Lemma patchPorts_inv (s : string) :
  V0.patchPorts s ≠ s →
  ∃ d, s = "0-" +:+ d ∧ d ≠ "" ∧ allChars digit d = true ∧
       V0.patchPorts s = "1-" +:+ d.
Proof.
  unfold V0.patchPorts, ReplaceAllString.
  destruct (matchStart V0.rulePortsRegex s) as [[[pos rest] caps]|] eqn:H;
    [|done].
  apply rulePortsRegex_inv in H as (d & -> & Hne & Hd & -> & Hc).
  intros _. exists d. repeat split; try done.
  simpl. by rewrite Hc, !append_nil_r.
Qed.
End MigrationFacts.

Section MigrationIDs.
Import GoRegexp Migration.
Local Arguments String.append : simpl nomatch.

(** *** The pattern of the identifiers, version 0 *)

Lemma ruleIDRegexV0_inv (s : string) (pos : nat) (rest : string)
    (caps : captures) :
  matchStart V0.ruleIDRegex s = Some (pos, rest, caps) →
  ∃ uuid proto body suf,
    s = uuid +:+ "_" +:+ proto +:+ "_" +:+ body +:+ "_0" +:+ suf ∧
    String.length uuid = 36%nat ∧ allChars digitLowerHyphen uuid = true ∧
    (proto = "tcp" ∨ proto = "udp") ∧ allChars dot body = true ∧
    V0.isTail suf ∧ rest = "" ∧
    caps 1%nat = uuid +:+ "_" +:+ proto +:+ "_" +:+ body ∧
    caps 2%nat = suf.
Proof.
  unfold matchStart, V0.ruleIDRegex; cbn [cat]. intros H.
  rewrite run_Seq, run_Bol, run_Seq, run_Cap, run_Seq, run_Rep in H.
  apply rep_inv in H as (uuid & b & -> & Hlen & Huuid & H).
  rewrite run_Seq in H. apply lit_inv in H as (b1 & -> & H).
  rewrite run_Seq in H.
  apply alt_lit_inv in H as (proto & b2 & Hproto & -> & H).
  rewrite run_Seq in H. apply lit_inv in H as (b3 & -> & H).
  rewrite run_Star in H. apply star_inv in H as (body & b4 & -> & Hbody & H).
  rewrite run_Seq in H. apply lit_inv in H as (b5 & -> & H).
  rewrite run_Seq in H.
  exists uuid, proto, body, b5.
  apply opt_inv in H as [H|H].
  - rewrite run_Cap, run_Seq in H. apply lit_inv in H as (b6 & -> & H).
    apply plus_inv in H as (d & b7 & -> & Hne & Hd & H).
    apply eol_inv in H as [-> [= <- <- <-]].
    unfold setCapture; cbn [Nat.eqb]. rewrite !append_nil_r.
    repeat split; try done.
    + right. by exists d.
    + apply (takeBytes_prefix _ _ ("_0-" +:+ d));
        [rewrite ?append_assoc; simpl; reflexivity
        |rewrite ?length_append; simpl; lia].
    + apply (takeBytes_prefix _ _ "");
        [rewrite ?append_nil_r; simpl; reflexivity
        |rewrite ?length_append; simpl; lia].
  - apply eol_inv in H as [-> [= <- <- <-]].
    unfold setCapture; cbn [Nat.eqb].
    repeat split; try done.
    + by left.
    + apply (takeBytes_prefix _ _ "_0");
        [rewrite ?append_assoc; simpl; reflexivity
        |rewrite ?length_append; simpl; lia].
Qed.

Lemma ruleIDRegexV0_some (uuid proto body suf : string) :
  String.length uuid = 36%nat → allChars digitLowerHyphen uuid = true →
  (proto = "tcp" ∨ proto = "udp") → allChars dot body = true →
  V0.isTail suf →
  is_Some (matchStart V0.ruleIDRegex
             (uuid +:+ "_" +:+ proto +:+ "_" +:+ body +:+ "_0" +:+ suf)).
Proof.
  intros Hlen Huuid Hproto Hbody Hsuf.
  unfold matchStart, V0.ruleIDRegex; cbn [cat].
  rewrite run_Seq, run_Bol, run_Seq, run_Cap, run_Seq, run_Rep.
  rewrite <- Hlen, (rep_append _ _ _ _ _ _ Huuid).
  rewrite run_Seq, lit_append, run_Seq.
  apply alt_some.
  assert (Htail : ∀ (pos : nat) (caps : captures),
            is_Some
              (run (Seq (Opt (Cap 2 (Seq (Lit "-") (Plus digit)))) Eol)
                 (λ pos rest caps, Some (pos, rest, caps)) pos suf caps)).
  { intros pos caps. rewrite run_Seq. apply opt_some.
    destruct Hsuf as [->|(d & -> & Hne & Hd)].
    - right. by eexists.
    - left. rewrite run_Cap, run_Seq, lit_append.
      rewrite <- (append_nil_r d). apply plus_append; [done..|].
      by eexists. }
  destruct Hproto as [->| ->]; [left|right].
  - rewrite lit_append, run_Seq, lit_append, run_Star.
    apply star_append; [done|].
    rewrite run_Seq, lit_append. apply Htail.
  - rewrite lit_append, run_Seq, lit_append, run_Star.
    apply star_append; [done|].
    rewrite run_Seq, lit_append. apply Htail.
Qed.

Lemma containsByte_append (c : ascii) (a b : string) :
  containsByte c (a +:+ b) = containsByte c a || containsByte c b.
Proof.
  induction a as [|x a IH]; simpl; [done|].
  destruct (Ascii.eqb x c); [done|]. apply IH.
Qed.

(** A string splits at its last underscore in one way only. *)
Lemma last_underscore_unique (g g' t t' : string) :
  g +:+ "_" +:+ t = g' +:+ "_" +:+ t' →
  containsByte underscore t = false → containsByte underscore t' = false →
  g = g' ∧ t = t'.
Proof.
  intros H Ht Ht'. revert g' H.
  induction g as [|c g IH]; intros [|c' g']; simpl.
  - by intros [= ->].
  - intros [= <- ->]. rewrite containsByte_append in Ht. simpl in Ht.
    by rewrite orb_true_r in Ht.
  - intros [= -> <-]. rewrite containsByte_append in Ht'. simpl in Ht'.
    by rewrite orb_true_r in Ht'.
  - intros [= <- H]. by destruct (IH _ H) as [-> ->].
Qed.

Lemma digits_no_underscore (d : string) :
  allChars digit d = true → containsByte underscore d = false.
Proof.
  induction d as [|c d IH]; simpl; [done|].
  intros [Hc Hd]%andb_prop. rewrite (IH Hd).
  destruct (Ascii.eqb c underscore) eqn:E; [|done].
  apply Ascii.eqb_eq in E as ->. done.
Qed.

Lemma isTail_no_underscore (suf : string) :
  V0.isTail suf → containsByte underscore suf = false.
Proof.
  intros [->|(d & -> & _ & Hd)]; [done|]. simpl.
  by apply digits_no_underscore.
Qed.

(** What [patchID] does to the identifiers that the pattern describes. *)
Lemma patchIDV0_form (uuid proto body suf : string) :
  String.length uuid = 36%nat → allChars digitLowerHyphen uuid = true →
  (proto = "tcp" ∨ proto = "udp") → allChars dot body = true →
  V0.isTail suf →
  V0.patchID (uuid +:+ "_" +:+ proto +:+ "_" +:+ body +:+ "_0" +:+ suf)
  = uuid +:+ "_" +:+ proto +:+ "_" +:+ body +:+ "_1" +:+ suf.
Proof.
  intros Hlen Huuid Hproto Hbody Hsuf. unfold V0.patchID, ReplaceAllString.
  destruct (ruleIDRegexV0_some uuid proto body suf)
    as [[[pos rest] caps] H]; [done..|].
  rewrite H.
  apply ruleIDRegexV0_inv in H
    as (uuid' & proto' & body' & suf' & Hs & _ & _ & _ & _ & Hsuf' & ->
        & Hc1 & Hc2).
  simpl expand. rewrite Hc1, Hc2, !append_nil_r.
  assert (Hs' : (uuid +:+ "_" +:+ proto +:+ "_" +:+ body) +:+ "_"
                  +:+ ("0" +:+ suf)
                = (uuid' +:+ "_" +:+ proto' +:+ "_" +:+ body') +:+ "_"
                  +:+ ("0" +:+ suf')).
  { rewrite !append_assoc. exact Hs. }
  apply last_underscore_unique in Hs' as [Hg Ht];
    [|simpl; by apply isTail_no_underscore..].
  simpl in Ht. injection Ht as <-. rewrite <- Hg.
  by rewrite !append_assoc.
Qed.

(** What the identifiers that [patchID] changes look like. *)
Lemma patchIDV0_inv (s : string) :
  V0.patchID s ≠ s →
  ∃ uuid proto body suf,
    s = uuid +:+ "_" +:+ proto +:+ "_" +:+ body +:+ "_0" +:+ suf ∧
    V0.patchID s = uuid +:+ "_" +:+ proto +:+ "_" +:+ body +:+ "_1" +:+ suf ∧
    String.length uuid = 36%nat ∧ allChars digitLowerHyphen uuid = true ∧
    (proto = "tcp" ∨ proto = "udp") ∧ V0.isTail suf.
Proof.
  unfold V0.patchID, ReplaceAllString.
  destruct (matchStart V0.ruleIDRegex s) as [[[pos rest] caps]|] eqn:H;
    [|done].
  intros _.
  apply ruleIDRegexV0_inv in H
    as (uuid & proto & body & suf & -> & Hlen & Huuid & Hproto & _ & Hsuf
        & -> & Hc1 & Hc2).
  exists uuid, proto, body, suf. repeat split; try done.
  simpl expand. rewrite Hc1, Hc2, !append_nil_r. by rewrite !append_assoc.
Qed.

Lemma patchIDV0_idem (s : string) : V0.patchID (V0.patchID s) = V0.patchID s.
Proof.
  destruct (decide (V0.patchID s = s)) as [E|Hs]; [by rewrite !E|].
  apply patchIDV0_inv in Hs
    as (uuid & proto & body & suf & -> & -> & _ & _ & _ & Hsuf).
  destruct (decide (V0.patchID
                      (uuid +:+ "_" +:+ proto +:+ "_" +:+ body +:+ "_1" +:+ suf)
                    = uuid +:+ "_" +:+ proto +:+ "_" +:+ body +:+ "_1" +:+ suf))
    as [E|Hs]; [exact E|].
  exfalso.
  apply patchIDV0_inv in Hs
    as (uuid' & proto' & body' & suf' & Hs & _ & _ & _ & _ & Hsuf').
  assert (Hs' : (uuid +:+ "_" +:+ proto +:+ "_" +:+ body) +:+ "_"
                  +:+ ("1" +:+ suf)
                = (uuid' +:+ "_" +:+ proto' +:+ "_" +:+ body') +:+ "_"
                  +:+ ("0" +:+ suf')).
  { rewrite !append_assoc. exact Hs. }
  apply last_underscore_unique in Hs' as [_ Ht];
    [|simpl; by apply isTail_no_underscore..].
  done.
Qed.

Lemma patchPorts_idem (s : string) :
  V0.patchPorts (V0.patchPorts s) = V0.patchPorts s.
Proof.
  destruct (decide (V0.patchPorts s = s)) as [E|Hs]; [by rewrite !E|].
  apply patchPorts_inv in Hs as (d & -> & _ & _ & ->).
  destruct (decide (V0.patchPorts ("1-" +:+ d) = "1-" +:+ d)) as [E|Hs];
    [exact E|].
  by apply patchPorts_inv in Hs as (d' & Hd' & _).
Qed.
End MigrationIDs.

Section MigrationV1.
Import GoRegexp Migration.
Local Arguments String.append : simpl nomatch.

(** *** The pattern of the identifiers, version 1 *)

Lemma opt_lit_inv {R} (l : string) (k : @cont R) pos s caps x :
  run (Opt (Lit l)) k pos s caps = Some x →
  ∃ six b, (six = l ∨ six = "") ∧ s = six +:+ b ∧
           k (pos + String.length six)%nat b caps = Some x.
Proof.
  intros [(b & -> & H)%lit_inv|H]%opt_inv.
  - exists l, b. auto.
  - exists "", s. simpl. rewrite Nat.add_0_r. auto.
Qed.

Lemma ToLower_append (a b : string) :
  GoStrings.ToLower (a +:+ b) = GoStrings.ToLower a +:+ GoStrings.ToLower b.
Proof.
  unfold GoStrings.ToLower.
  induction a as [|c a IH]; simpl; [done|]. by rewrite IH.
Qed.

Lemma ToLower_fixed (p : ascii → bool) (a : string) :
  (∀ c, p c = true → GoStrings.lowerChar c = c) →
  allChars p a = true → GoStrings.ToLower a = a.
Proof.
  intros Hp. unfold GoStrings.ToLower.
  induction a as [|c a IH]; simpl; [done|].
  intros [Hc Ha]%andb_prop. by rewrite (Hp c Hc), IH.
Qed.

Lemma digitLowerHyphen_lower (c : ascii) :
  digitLowerHyphen c = true → GoStrings.lowerChar c = c.
Proof. destruct c as [[] [] [] [] [] [] [] []]; vm_compute; congruence. Qed.

Lemma lower_lower (c : ascii) : lower c = true → GoStrings.lowerChar c = c.
Proof. destruct c as [[] [] [] [] [] [] [] []]; vm_compute; congruence. Qed.

Lemma digit_lower (c : ascii) : digit c = true → GoStrings.lowerChar c = c.
Proof. destruct c as [[] [] [] [] [] [] [] []]; vm_compute; congruence. Qed.

Lemma ruleIDRegexV1_inv (s : string) (pos : nat) (rest : string)
    (caps : captures) :
  matchStart V1.ruleIDRegex s = Some (pos, rest, caps) →
  ∃ g1 g2 g3,
    s = g1 +:+ g2 +:+ g3 ∧ pos = String.length s ∧
    caps 1%nat = g1 ∧ caps 2%nat = g2 ∧ caps 3%nat = g3 ∧
    GoStrings.ToLower g1 = g1 ∧ GoStrings.ToLower g3 = g3.
Proof.
  unfold matchStart, V1.ruleIDRegex; cbn [cat]. intros H.
  rewrite run_Seq, run_Bol, run_Seq, run_Cap, run_Seq, run_Rep in H.
  apply rep_inv in H as (uuid & b & -> & Hlen & Huuid & H).
  rewrite run_Seq in H. apply lit_inv in H as (b1 & -> & H).
  rewrite run_Seq, run_Seq in H.
  apply plus_inv in H as (letters & b2 & -> & _ & Hletters & H).
  apply opt_lit_inv in H as (six & b3 & Hsix & -> & H).
  apply lit_inv in H as (b4 & -> & H).
  rewrite run_Seq, run_Cap, run_Star in H.
  apply star_inv in H as (g2 & b5 & -> & Hg2 & H).
  rewrite run_Seq in H.
  assert (Hg1 : GoStrings.ToLower (uuid +:+ "_" +:+ letters +:+ six +:+ "_")
                = uuid +:+ "_" +:+ letters +:+ six +:+ "_").
  { rewrite !ToLower_append.
    rewrite (ToLower_fixed _ _ digitLowerHyphen_lower Huuid).
    rewrite (ToLower_fixed _ _ lower_lower Hletters).
    by destruct Hsix as [->| ->]. }
  exists (uuid +:+ "_" +:+ letters +:+ six +:+ "_"), g2, b5.
  apply opt_inv in H as [H|H].
  - rewrite run_Cap, run_Seq in H. apply lit_inv in H as (b6 & -> & H).
    rewrite run_Seq in H.
    apply plus_inv in H as (d1 & b7 & -> & _ & Hd1 & H).
    rewrite run_Seq in H. apply lit_inv in H as (b8 & -> & H).
    apply plus_inv in H as (d2 & b9 & -> & _ & Hd2 & H).
    apply eol_inv in H as [-> [= <- <- <-]].
    unfold setCapture; cbn [Nat.eqb]. rewrite !append_nil_r.
    split; [by rewrite !append_assoc|].
    split; [rewrite ?length_append; simpl; lia|].
    split.
    { apply (takeBytes_prefix _ _ (g2 +:+ "_" +:+ d1 +:+ "-" +:+ d2));
        [rewrite ?append_assoc; simpl; reflexivity
        |rewrite ?length_append; simpl; lia]. }
    split.
    { apply (takeBytes_prefix _ _ ("_" +:+ d1 +:+ "-" +:+ d2));
        [rewrite ?append_assoc; simpl; reflexivity
        |rewrite ?length_append; simpl; lia]. }
    split.
    { apply (takeBytes_prefix _ _ "");
        [rewrite ?append_nil_r; simpl; reflexivity
        |rewrite ?length_append; simpl; lia]. }
    split; [exact Hg1|].
    rewrite !ToLower_append.
    rewrite (ToLower_fixed _ _ digit_lower Hd1).
    by rewrite (ToLower_fixed _ _ digit_lower Hd2).
  - apply eol_inv in H as [-> [= <- <- <-]].
    unfold setCapture; cbn [Nat.eqb]. rewrite ?append_nil_r.
    split; [by rewrite !append_assoc|].
    split; [rewrite ?length_append; simpl; lia|].
    split.
    { apply (takeBytes_prefix _ _ g2);
        [rewrite ?append_assoc, ?append_nil_r; simpl; reflexivity
        |rewrite ?length_append; simpl; lia]. }
    split.
    { apply (takeBytes_prefix _ _ "");
        [rewrite ?append_nil_r; simpl; reflexivity
        |rewrite ?length_append; simpl; lia]. }
    done.
Qed.

Lemma ruleIDRegexV1_some (uuid letters six rest : string) :
  String.length uuid = 36%nat → allChars digitLowerHyphen uuid = true →
  letters ≠ "" → allChars lower letters = true →
  (six = "" ∨ six = "6") → allChars dot rest = true →
  is_Some (matchStart V1.ruleIDRegex
             (uuid +:+ "_" +:+ letters +:+ six +:+ "_" +:+ rest)).
Proof.
  intros Hlen Huuid Hne Hletters Hsix Hrest.
  unfold matchStart, V1.ruleIDRegex; cbn [cat].
  rewrite run_Seq, run_Bol, run_Seq, run_Cap, run_Seq, run_Rep.
  rewrite <- Hlen, (rep_append _ _ _ _ _ _ Huuid).
  rewrite run_Seq, lit_append, run_Seq, run_Seq.
  apply plus_append; [done..|].
  apply opt_some.
  assert (Hend : ∀ (pos : nat) (caps : captures),
            is_Some
              (run (Lit "_")
                 (λ pos' rest' caps',
                    run (Seq (Cap 2 (Star dot))
                           (Seq (Opt (Cap 3 (Seq (Lit "_")
                                               (Seq (Plus digit)
                                                  (Seq (Lit "-")
                                                     (Plus digit))))))
                              Eol))
                      (λ pos rest caps, Some (pos, rest, caps))
                      pos' rest' caps')
                 pos ("_" +:+ rest) caps)).
  { intros pos caps. rewrite lit_append, run_Seq, run_Cap, run_Star.
    rewrite <- (append_nil_r rest). apply star_append; [done|].
    rewrite run_Seq. apply opt_some. right. by eexists. }
  destruct Hsix as [->| ->].
  - right. simpl ("" +:+ _). apply Hend.
  - left. rewrite lit_append. apply Hend.
Qed.

(** [patchID] leaves an identifier as it is or lower-cases it. *)
Lemma patchIDV1_cases (s : string) :
  V1.patchID s = s ∨ V1.patchID s = GoStrings.ToLower s.
Proof.
  unfold V1.patchID, FindStringSubmatch.
  destruct (matchStart V1.ruleIDRegex s) as [[[pos rest] caps]|] eqn:H;
    [|by left].
  right.
  apply ruleIDRegexV1_inv in H as (g1 & g2 & g3 & -> & _ & Hc1 & Hc2 & Hc3
                                    & Hg1 & Hg3).
  cbn [map seq length Nat.eqb nth]. rewrite Hc1, Hc2, Hc3.
  by rewrite !ToLower_append, Hg1, Hg3.
Qed.

Lemma patchIDV1_form (uuid letters six rest : string) :
  String.length uuid = 36%nat → allChars digitLowerHyphen uuid = true →
  letters ≠ "" → allChars lower letters = true →
  (six = "" ∨ six = "6") → allChars dot rest = true →
  V1.patchID (uuid +:+ "_" +:+ letters +:+ six +:+ "_" +:+ rest)
  = uuid +:+ "_" +:+ letters +:+ six +:+ "_" +:+ GoStrings.ToLower rest.
Proof.
  intros Hlen Huuid Hne Hletters Hsix Hrest.
  destruct (ruleIDRegexV1_some uuid letters six rest)
    as [[[pos r] caps] H]; [done..|].
  unfold V1.patchID, FindStringSubmatch. rewrite H.
  apply ruleIDRegexV1_inv in H as (g1 & g2 & g3 & Hs & _ & Hc1 & Hc2 & Hc3
                                    & Hg1 & Hg3).
  cbn [map seq length Nat.eqb nth]. rewrite Hc1, Hc2, Hc3.
  transitivity (GoStrings.ToLower
                  (uuid +:+ "_" +:+ letters +:+ six +:+ "_" +:+ rest)).
  - by rewrite Hs, !ToLower_append, Hg1, Hg3.
  - rewrite !ToLower_append.
    rewrite (ToLower_fixed _ _ digitLowerHyphen_lower Huuid).
    rewrite (ToLower_fixed _ _ lower_lower Hletters).
    by destruct Hsix as [->| ->].
Qed.

Lemma patchIDV1_idem (s : string) : V1.patchID (V1.patchID s) = V1.patchID s.
Proof.
  destruct (patchIDV1_cases s) as [E|E]; rewrite E; [exact E|].
  destruct (patchIDV1_cases (GoStrings.ToLower s)) as [E'|E']; [exact E'|].
  by rewrite E', ToLower_idem.
Qed.
End MigrationV1.

Section MigrationRules.
Import GoRegexp.
Local Arguments String.append : simpl nomatch.

Lemma OK_inj {A} (a b : A) : OK a = OK b → a = b.
Proof. congruence. Qed.

Lemma uint16s_digits : allBelow portPrintsDigits 16 0 = true.
Proof. vm_compute. reflexivity. Qed.

Lemma uint16_prints_digits (n : N) :
  (n <= 65535)%N →
  allChars digit (fmtD (Z.of_N n)) = true ∧ fmtD (Z.of_N n) ≠ "" ∧
  (fmtD (Z.of_N n) = "0" → n = 0%N).
Proof.
  intros Hn.
  assert (H : portPrintsDigits n = true).
  { apply (allBelow_spec _ 16 0 n uint16s_digits).
    change (2 ^ N.of_nat 16)%N with 65536%N. lia. }
  unfold portPrintsDigits in H.
  apply andb_prop in H as [[Hd Hne%negb_true_iff]%andb_prop H0].
  split; [done|]. split.
  - intros E. by rewrite E in Hne.
  - intros E. rewrite E in H0. simpl in H0. by apply N.eqb_eq in H0.
Qed.

(** X15. The upgrade of version 0 rewrites the port entry of a range
    that starts at 0: the entry [0-E] becomes [1-E], which
    [preparePorts] reads as the range from 1 to E; and an entry that
    the upgrade changes is a [0-] followed by digits, at least one. *)
Theorem patchPorts_range_from_0 :
  (∀ e : N, (e <= 65535)%N →
     Migration.V0.patchPorts ("0-" +:+ fmtD (Z.of_N e)) = "1-" +:+ fmtD (Z.of_N e) ∧
     preparePorts [Migration.V0.patchPorts ("0-" +:+ fmtD (Z.of_N e))] = [(1%N, e)]) ∧
  (∀ s : string, Migration.V0.patchPorts s ≠ s →
     ∃ d, s = "0-" +:+ d ∧ d ≠ "" ∧ allChars digit d = true ∧
          Migration.V0.patchPorts s = "1-" +:+ d).
Proof.
  split; [|exact patchPorts_inv].
  intros e He.
  destruct (uint16_prints_digits e He) as (Hd & Hne & _).
  rewrite (patchPorts_0 _ Hne Hd). split; [done|].
  destruct (uint16_prints_and_parses e He) as [Hpe Hhe].
  unfold preparePorts, Schema.List.
  change ("1-" +:+ fmtD (Z.of_N e))
    with ("1" +:+ String hyphen (fmtD (Z.of_N e))).
  cbn [map]. rewrite (Split_pair "1" _ hyphen eq_refl Hhe). simpl. by rewrite Hpe.
Qed.

(** The entry of the range from 0 to 80. *)
Lemma patchPorts_range_from_0_witness :
  Migration.V0.patchPorts "0-80" = "1-80" ∧
  preparePorts [Migration.V0.patchPorts "0-80"] = [(1, 80)]%N.
Proof.
  apply (proj1 patchPorts_range_from_0 80%N). lia.
Defined.

Lemma peerName_with_StartPort (G : string → result string) (p : N)
    (r : SecurityGroupRule) :
  peerName G (with_StartPort p r) = peerName G r.
Proof. reflexivity. Qed.

(** The identifier of a TCP or UDP rule. *)
Lemma ruleToID_ports (G : string → result string) (r : SecurityGroupRule)
    (id proto name : string) (s e : N) :
  ID r = Some id → Protocol r = Some proto →
  proto = "tcp" ∨ proto = "udp" →
  peerName G r = OK name → StartPort r = Some s → EndPort r = Some e →
  ruleToID G r
  = OK (id +:+ "_" +:+ proto +:+ "_" +:+ name +:+ "_"
           +:+ fmtD (Z.of_N s) +:+ "-" +:+ fmtD (Z.of_N e)).
Proof.
  intros Hid Hp Hproto Hname Hs He. unfold ruleToID.
  rewrite Hp, Hname, Hid, Hs, He.
  by destruct Hproto as [->| ->].
Qed.

(** X16. The upgrade of version 0 turns the identifier of a TCP or UDP
    rule whose start port is 0 into the identifier that the same rule
    has with the start port 1, when the backing ID of the rule has the
    36 characters of a UUID and the name of its peer has no newline. *)
Theorem patchID_start_port_0 (GetSecurityGroup : string → result string)
    (r : SecurityGroupRule) (uuid name : string) (e : N) :
  ID r = Some uuid → String.length uuid = 36%nat →
  allChars digitLowerHyphen uuid = true →
  Protocol r = Some "tcp" ∨ Protocol r = Some "udp" →
  peerName GetSecurityGroup r = OK name → allChars dot name = true →
  StartPort r = Some 0%N → EndPort r = Some e → (e <= 65535)%N →
  ∃ k, ruleToID GetSecurityGroup r = OK k ∧
       ruleToID GetSecurityGroup (with_StartPort 1 r) = OK (Migration.V0.patchID k).
Proof.
  intros Hid Hlen Huuid Hp Hname Hdot Hs He Hle.
  destruct (uint16_prints_digits e Hle) as (Hd & Hne & _).
  assert (∃ proto, Protocol r = Some proto ∧
                   (proto = "tcp" ∨ proto = "udp")) as (proto & Hp' & Hproto).
  { destruct Hp as [Hp|Hp]; eauto. }
  eexists. split.
  - by apply (ruleToID_ports _ _ uuid proto name 0%N e).
  - rewrite (ruleToID_ports _ _ uuid proto name 1%N e); try done.
    f_equal. symmetry.
    apply (patchIDV0_form uuid proto name ("-" +:+ fmtD (Z.of_N e)));
      try done.
    right. by eexists.
Qed.

(** A rule for the ports 0 to 80, under a UUID. *)
Lemma patchID_start_port_0_witness :
  Migration.V0.patchID "0123456789abcdef-0123456789abcdef-01_tcp_10.0.0.0/8_0-80"
  = "0123456789abcdef-0123456789abcdef-01_tcp_10.0.0.0/8_1-80".
Proof.
  destruct (patchID_start_port_0 Sample.noGroup
              (Sample.tcpRule "0123456789abcdef-0123456789abcdef-01"
                 Sample.netA 0 80)
              "0123456789abcdef-0123456789abcdef-01" Sample.netA 80%N
              eq_refl eq_refl eq_refl (or_introl eq_refl) eq_refl eq_refl
              eq_refl eq_refl ltac:(lia))
    as (k & Hk & Hk').
  apply OK_inj in Hk as <-. symmetry. exact (OK_inj _ _ Hk').
Defined.

(** X17. The upgrade of version 0 leaves the other identifiers alone: an
    identifier that it changes ends, after its last underscore, with a 0
    alone or with a 0, a hyphen and digits, and the upgrade writes a 1
    for that 0; so the identifier of a TCP or UDP rule whose start port
    is not 0 is left as it is. *)
Theorem patchID_others_unchanged :
  (∀ s : string, Migration.V0.patchID s ≠ s →
     ∃ g suf, s = g +:+ "_0" +:+ suf ∧ Migration.V0.patchID s = g +:+ "_1" +:+ suf ∧
              Migration.V0.isTail suf ∧ containsByte underscore suf = false) ∧
  (∀ (G : string → result string) (r : SecurityGroupRule)
     (id name : string) (s e : N),
     ID r = Some id →
     Protocol r = Some "tcp" ∨ Protocol r = Some "udp" →
     peerName G r = OK name →
     StartPort r = Some s → EndPort r = Some e →
     (1 <= s <= 65535)%N → (e <= 65535)%N →
     ∃ k, ruleToID G r = OK k ∧ Migration.V0.patchID k = k).
Proof.
  split.
  - intros s (uuid & proto & body & suf & -> & -> & _ & _ & _ & Hsuf)
             %patchIDV0_inv.
    exists (uuid +:+ "_" +:+ proto +:+ "_" +:+ body), suf.
    rewrite !append_assoc. repeat split; try done.
    by apply isTail_no_underscore.
  - intros G r id name s e Hid Hp Hname Hs He Hsle Hele.
    assert (∃ proto, Protocol r = Some proto ∧
                     (proto = "tcp" ∨ proto = "udp"))
      as (proto & Hp' & Hproto).
    { destruct Hp as [Hp|Hp]; eauto. }
    eexists. split;
      [by apply (ruleToID_ports _ _ id proto name s e)|].
    destruct (uint16_prints_digits s) as (Hds & Hnes & H0s); [lia|].
    destruct (uint16_prints_digits e Hele) as (Hde & Hnee & _).
    match goal with |- Migration.V0.patchID ?k = _ =>
      destruct (decide (Migration.V0.patchID k = k)) as [E|Hk]; [exact E|] end.
    exfalso.
    apply patchIDV0_inv in Hk
      as (uuid' & proto' & body' & suf' & Hk & _ & _ & _ & _ & Hsuf').
    assert (Hk' : (id +:+ "_" +:+ proto +:+ "_" +:+ name) +:+ "_"
                    +:+ (fmtD (Z.of_N s) +:+ "-" +:+ fmtD (Z.of_N e))
                  = (uuid' +:+ "_" +:+ proto' +:+ "_" +:+ body') +:+ "_"
                    +:+ ("0" +:+ suf')).
    { rewrite !append_assoc. exact Hk. }
    apply last_underscore_unique in Hk' as [_ Ht].
    + destruct (fmtD (Z.of_N s)) as [|c ds] eqn:Es; [done|].
      simpl in Ht. injection Ht as -> Ht.
      destruct ds as [|c' ds].
      * assert (s = 0%N) by (by apply H0s). lia.
      * simpl in Hds. apply andb_prop in Hds as [Hc' _].
        destruct Hsuf' as [->|(d & -> & _)]; [done|].
        simpl in Ht. injection Ht as -> _. done.
    + rewrite !containsByte_append. simpl.
      by rewrite (digits_no_underscore _ Hds), (digits_no_underscore _ Hde).
    + simpl. by apply isTail_no_underscore.
Qed.

(** A rule for the ports 10 to 80. *)
Lemma patchID_others_unchanged_witness :
  Migration.V0.patchID "0123456789abcdef-0123456789abcdef-01_tcp_10.0.0.0/8_10-80"
  = "0123456789abcdef-0123456789abcdef-01_tcp_10.0.0.0/8_10-80".
Proof.
  destruct (proj2 patchID_others_unchanged Sample.noGroup
              (Sample.tcpRule "0123456789abcdef-0123456789abcdef-01"
                 Sample.netA 10 80)
              "0123456789abcdef-0123456789abcdef-01" Sample.netA 10%N 80%N
              eq_refl (or_introl eq_refl) eq_refl eq_refl eq_refl
              ltac:(lia) ltac:(lia))
    as (k & Hk & Hk').
  apply OK_inj in Hk as <-. exact Hk'.
Defined.
End MigrationRules.

Section MigrationMore.
Import GoRegexp.
Local Arguments String.append : simpl nomatch.

Lemma allChars_impl (p q : ascii → bool) (a : string) :
  (∀ c, p c = true → q c = true) → allChars p a = true → allChars q a = true.
Proof.
  intros Hpq. induction a as [|c a IH]; simpl; [done|].
  intros [Hc Ha]%andb_prop. by rewrite (Hpq c Hc), IH.
Qed.

Lemma digit_dot (c : ascii) : digit c = true → dot c = true.
Proof. destruct c as [[] [] [] [] [] [] [] []]; vm_compute; congruence. Qed.

(** X18. On identifiers of ASCII bytes, the upgrade of version 1
    leaves an identifier as it is or lower-cases it as a whole, that is,
    writes a-z for its letters A-Z; and it turns the identifier of a TCP
    or UDP rule whose peer is a group with a name of ASCII bytes into
    the identifier that the rule has once the lookup of the group gives
    its name in lower case, when the backing ID of the rule has the 36
    characters of a UUID and the name has no newline. *)
Theorem patchID_lower_cases :
  (∀ s : string,
     asciiOnly s = true →
     Migration.V1.patchID s = s ∨
     Migration.V1.patchID s = GoStrings.ToLower s) ∧
  (∀ (G G' : string → result string) (r : SecurityGroupRule)
     (uuid gid name : string) (s e : N),
     ID r = Some uuid → String.length uuid = 36%nat →
     allChars digitLowerHyphen uuid = true →
     Protocol r = Some "tcp" ∨ Protocol r = Some "udp" →
     Network r = None → SecurityGroupID r = Some gid →
     G gid = OK name → G' gid = OK (GoStrings.ToLower name) →
     asciiOnly name = true → allChars dot name = true →
     StartPort r = Some s → EndPort r = Some e →
     (s <= 65535)%N → (e <= 65535)%N →
     ∃ k, ruleToID G r = OK k ∧
          ruleToID G' r = OK (Migration.V1.patchID k)).
Proof.
  split; [intros s _; exact (patchIDV1_cases s)|].
  intros G G' r uuid gid name s e Hid Hlen Huuid Hp Hnet Hgid HG HG' _ Hdot
         Hs He Hsle Hele.
  assert (∃ proto, Protocol r = Some proto ∧
                   (proto = "tcp" ∨ proto = "udp")) as (proto & Hp' & Hproto).
  { destruct Hp as [Hp|Hp]; eauto. }
  assert (Hname : peerName G r = OK name).
  { unfold peerName. rewrite Hnet, Hgid. simpl. by rewrite HG. }
  assert (Hname' : peerName G' r = OK (GoStrings.ToLower name)).
  { unfold peerName. rewrite Hnet, Hgid. simpl. by rewrite HG'. }
  destruct (uint16_prints_digits s Hsle) as (Hds & _ & _).
  destruct (uint16_prints_digits e Hele) as (Hde & _ & _).
  eexists. split.
  - by apply (ruleToID_ports _ _ uuid proto name s e).
  - rewrite (ruleToID_ports _ _ uuid proto (GoStrings.ToLower name) s e);
      try done.
    f_equal. symmetry.
    transitivity
      (uuid +:+ "_" +:+ proto +:+ "" +:+ "_"
         +:+ GoStrings.ToLower
               (name +:+ "_" +:+ fmtD (Z.of_N s) +:+ "-"
                  +:+ fmtD (Z.of_N e))).
    + apply (patchIDV1_form uuid proto ""
               (name +:+ "_" +:+ fmtD (Z.of_N s) +:+ "-"
                  +:+ fmtD (Z.of_N e)) Hlen Huuid).
      * by destruct Hproto as [->| ->].
      * by destruct Hproto as [->| ->].
      * by left.
      * rewrite !allChars_append, Hdot.
        rewrite (allChars_impl _ _ _ digit_dot Hds).
        by rewrite (allChars_impl _ _ _ digit_dot Hde).
    + rewrite !ToLower_append.
      rewrite (ToLower_fixed _ _ digit_lower Hds).
      by rewrite (ToLower_fixed _ _ digit_lower Hde).
Qed.

(** A rule whose peer group was written [Web]. *)
Lemma patchID_lower_cases_witness :
  Migration.V1.patchID "0123456789abcdef-0123456789abcdef-01_tcp_Web_22-22"
  = "0123456789abcdef-0123456789abcdef-01_tcp_web_22-22".
Proof.
  destruct (proj2 patchID_lower_cases (λ _, OK "Web") (λ _, OK "web")
              (with_ID "0123456789abcdef-0123456789abcdef-01"
                 Sample.groupRule)
              "0123456789abcdef-0123456789abcdef-01" "g-1" "Web" 22%N 22%N
              eq_refl eq_refl eq_refl (or_introl eq_refl) eq_refl eq_refl
              eq_refl eq_refl eq_refl eq_refl eq_refl eq_refl
              ltac:(lia) ltac:(lia))
    as (k & Hk & Hk').
  apply OK_inj in Hk as <-. symmetry. exact (OK_inj _ _ Hk').
Defined.

Lemma differ_map (f : string → string) (l : list string) :
  Migration.differ l (map f l) = false ↔ map f l = l.
Proof.
  unfold Migration.differ. induction l as [|a l IH]; simpl; [done|].
  rewrite orb_false_iff, negb_false_iff, String.eqb_eq, IH.
  split.
  - intros [Ha Hl]. congruence.
  - intros [= Ha Hl]. by split.
Qed.

Lemma map_idem (f : string → string) (l : list string) :
  (∀ x, f (f x) = f x) → map f (map f l) = map f l.
Proof.
  intros Hf. rewrite map_map. apply map_ext. intros x. apply Hf.
Qed.

(** X19. The upgrades are idempotent: run on a rule of the state that
    it has upgraded already, each of them leaves the rule as it is and
    asks for no patch. *)
Theorem patchRule_idempotent (rule : Migration.stateSecurityGroupRule) :
  Migration.V0.patchRule (fst (Migration.V0.patchRule rule))
  = (fst (Migration.V0.patchRule rule), false) ∧
  Migration.V1.patchRule (fst (Migration.V1.patchRule rule))
  = (fst (Migration.V1.patchRule rule), false).
Proof.
  split.
  - unfold Migration.V0.patchRule. simpl. f_equal.
    + f_equal; apply map_idem; [exact patchIDV0_idem|exact patchPorts_idem].
    + apply orb_false_iff. split; apply differ_map, map_idem;
        [exact patchIDV0_idem|exact patchPorts_idem].
  - unfold Migration.V1.patchRule. simpl. f_equal.
    + f_equal; apply map_idem; [exact patchIDV1_idem|exact ToLower_idem].
    + apply orb_false_iff. split; apply differ_map, map_idem;
        [exact patchIDV1_idem|exact ToLower_idem].
Qed.

(** X20. The flag [patchRules] is raised exactly when the loops have
    changed the rule: each upgrade writes a rule back to the state if
    and only if it differs from the rule read. *)
Theorem patchRules_flag (rule : Migration.stateSecurityGroupRule) :
  (snd (Migration.V0.patchRule rule) = false
   ↔ fst (Migration.V0.patchRule rule) = rule) ∧
  (snd (Migration.V1.patchRule rule) = false
   ↔ fst (Migration.V1.patchRule rule) = rule).
Proof.
  destruct rule as [cidrs desc icode itype ids ports proto groups].
  unfold Migration.V0.patchRule, Migration.V1.patchRule. simpl.
  rewrite !orb_false_iff, !differ_map. split; split.
  - intros [-> ->]. done.
  - intros [= -> ->]. done.
  - intros [-> ->]. done.
  - intros [= -> ->]. done.
Qed.
End MigrationMore.

(** ** A drift that a pass has flagged *)

Lemma NoDup_fmap_filter {A B} (f : A → B) (q : A → bool) (l : list A) :
  NoDup (f <$> l) → NoDup (f <$> List.filter q l).
Proof.
  induction l as [|a l IH]; [done|].
  rewrite fmap_cons, NoDup_cons. intros [Ha Hl].
  cbn [List.filter]. destruct (q a); [|by apply IH].
  rewrite fmap_cons. apply NoDup_cons. split; [|by apply IH].
  intros (y & Hy & Hin%list_elem_of_In%filter_In)%list_elem_of_fmap.
  apply Ha. apply list_elem_of_fmap. exists y.
  split; [done|]. apply list_elem_of_In. tauto.
Qed.

Section Drift.
Context (code : string → N) (GetSecurityGroup : string → result string)
        (defaultString : option string → string → string)
        (ruleFunc : fetchRuleFunc).

(** C4. Reconciliation is not idempotent, and a drift that one pass has
    flagged is unflagged by the next.  Take a block with a well-formed
    set of identifiers on which the walk goes through and the test of
    lines 743-746 holds: the observed CIDR, port and group sets have the
    declared sizes, and the number of identifiers found is not
    [(cidrLen + userSecurityGroupLen) * portsLen]; let some port be
    observed.  The first pass outputs the empty port set.  The second
    pass, over that output and with the same backing rules, outputs the
    observed ports, so a block that differs from the first output and
    has the declared sizes, while the number of its identifiers is still
    not the expected one.  The third pass outputs the empty port set
    again. *)
Theorem readRule_drift_flag_lost (rule : RuleBlock) (st : readLocals) :
  NoDup (code <$> ids rule) →
  readWalk code GetSecurityGroup defaultString ruleFunc
    (Schema.List (ids rule)) (readInit rule) = OK st →
  Schema.Len (l_cidrList st) = Schema.Len (cidr_list rule) →
  Schema.Len (l_ports st) = Schema.Len (ports rule) →
  Schema.Len (l_userSecurityGroupList st)
    = Schema.Len (user_security_group_list rule) →
  l_actualLen st ≠
    ((Schema.Len (cidr_list rule)
      + Schema.Len (user_security_group_list rule))
     * Schema.Len (ports rule))%nat →
  l_ports st ≠ [] →
  ∃ rule1 rule2 rule3,
    readRule code GetSecurityGroup defaultString ruleFunc rule = OK rule1 ∧
    ports rule1 = [] ∧
    readRule code GetSecurityGroup defaultString ruleFunc rule1 = OK rule2 ∧
    ports rule2 = l_ports st ∧
    rule2 ≠ rule1 ∧
    (Schema.Len (cidr_list rule2) = Schema.Len (cidr_list rule) ∧
     Schema.Len (ports rule2) = Schema.Len (ports rule) ∧
     Schema.Len (user_security_group_list rule2)
       = Schema.Len (user_security_group_list rule) ∧
     Schema.Len (ids rule2) ≠
       ((Schema.Len (cidr_list rule)
         + Schema.Len (user_security_group_list rule))
        * Schema.Len (ports rule))%nat) ∧
    readRule code GetSecurityGroup defaultString ruleFunc rule2 = OK rule3 ∧
    ports rule3 = [].
Proof.
  intros Hnd Hw Hc Hp Hg Hact Hne.
  assert (Hclear : mustClearPorts rule st = true)
    by (by apply mustClearPorts_true).
  assert (∃ rule1,
            readRule code GetSecurityGroup defaultString ruleFunc rule
            = OK rule1 ∧
            ports rule1 = [] ∧ cidr_list rule1 = l_cidrList st ∧
            user_security_group_list rule1 = l_userSecurityGroupList st)
    as (rule1 & H1 & Hp1 & Hc1 & Hg1).
  { unfold readRule. rewrite Hw. simpl. rewrite Hclear.
    eexists. split; [reflexivity|]. done. }
  assert (Hids1 : ids rule1 = List.filter (present ruleFunc) (ids rule) ∧
                  length (ids rule1) = l_actualLen st).
  { pose proof H1 as (st0 & _ & Hw0 & Hids0 & Hact0 & ->)%readRule_shape.
    unfold Schema.List in Hw. rewrite Hw0 in Hw. injection Hw as <-.
    simpl. rewrite Hids0, (dropAbsent_self _ _ _ Hnd). split; [done|].
    by rewrite Hact0. }
  destruct Hids1 as [Hids1 Hlen1].
  destruct (readRule_second_pass code GetSecurityGroup defaultString ruleFunc
              rule rule1 Hnd H1)
    as (rule2 & H2 & Hids2 & Hc2 & Hg2 & _ & _ & _ & _ & _ & Hp2).
  destruct (Hp2 Hp1) as (st' & Hw' & Hports2).
  rewrite Hw in Hw'. injection Hw' as <-.
  assert (Hnd1 : NoDup (code <$> ids rule1)).
  { rewrite Hids1. by apply NoDup_fmap_filter. }
  destruct (readRule_second_pass code GetSecurityGroup defaultString ruleFunc
              rule1 rule2 Hnd1 H2)
    as (rule3 & H3 & _ & _ & _ & _ & _ & _ & _ & Hp3 & _).
  assert (Hne2 : ports rule2 ≠ []) by (by rewrite Hports2).
  exists rule1, rule2, rule3.
  split; [done|]. split; [done|]. split; [done|]. split; [done|].
  split; [intros E; apply Hne2; by rewrite E|].
  assert (Hsizes :
    Schema.Len (cidr_list rule2) = Schema.Len (cidr_list rule) ∧
    Schema.Len (ports rule2) = Schema.Len (ports rule) ∧
    Schema.Len (user_security_group_list rule2)
      = Schema.Len (user_security_group_list rule) ∧
    Schema.Len (ids rule2) ≠
      ((Schema.Len (cidr_list rule)
        + Schema.Len (user_security_group_list rule))
       * Schema.Len (ports rule))%nat).
  { rewrite Hc2, Hc1, Hg2, Hg1, Hports2, Hids2. unfold Schema.Len at 7.
    rewrite Hlen1. done. }
  split; [exact Hsizes|]. split; [done|].
  rewrite (Hp3 Hne2).
  destruct Hsizes as (-> & -> & -> & Hn).
  apply Nat.eqb_neq in Hn. rewrite Nat.eqb_sym in Hn. by rewrite Hn.
Qed.
End Drift.

(** The block declaring CIDRs {A, B} and ports {80, 443}, backed by
    A:80, A:443 and B:80: the passes output the port sets [], {80, 443}
    and [] in turn, the rule B:443 missing all along. *)
Lemma readRule_drift_flag_lost_witness :
  ∃ rule1 rule2 rule3,
    Sample.read Sample.threeOfFour Sample.blockAB = OK rule1 ∧
    ports rule1 = [] ∧
    Sample.read Sample.threeOfFour rule1 = OK rule2 ∧
    ports rule2 = ["80"; "443"] ∧
    cidr_list rule2 = cidr_list Sample.blockAB ∧
    Sample.read Sample.threeOfFour rule2 = OK rule3 ∧
    ports rule3 = [].
Proof.
  destruct (readRule_drift_flag_lost Sample.code Sample.noGroup
              Sample.defaultString (Sample.fetch Sample.threeOfFour)
              Sample.blockAB
              {| l_rule :=
                   set_ids [ "r1_tcp_10.0.0.0/8_80-80";
                             "r2_tcp_10.0.0.0/8_443-443";
                             "r3_tcp_192.168.0.0/16_80-80" ] Sample.blockAB;
                 l_actualLen := 3;
                 l_cidrList := cidr_list Sample.blockAB;
                 l_userSecurityGroupList := [];
                 l_ports := ["80"; "443"] |})
    as (rule1 & rule2 & rule3 & H1 & Hp1 & H2 & Hp2 & _ & _ & H3 & Hp3).
  - apply (bool_decide_unpack _). vm_compute. exact I.
  - vm_compute. reflexivity.
  - reflexivity.
  - reflexivity.
  - reflexivity.
  - vm_compute. lia.
  - discriminate.
  - exists rule1, rule2, rule3.
    split; [exact H1|]. split; [exact Hp1|]. split; [exact H2|].
    split; [exact Hp2|]. split; [|split; [exact H3|exact Hp3]].
    assert (E : Sample.read Sample.threeOfFour Sample.blockAB = OK rule1)
      by exact H1.
    vm_compute in E. apply OK_inj in E. subst rule1.
    vm_compute in H2. apply OK_inj in H2. subst rule2. reflexivity.
Defined.
